(** * npc-node-persist: the NodePersist storage engine

    A shallow embedding of [src/index.js] (class [NodePersist]) and of the
    older copy of the same class kept in [src/unnamed/part_000].

    The class is asynchronous JavaScript: promises, [async]/[await],
    [setTimeout] and a process-wide lock table.  The embedding keeps that
    shape:

    - the methods are written in a small command language [prog] whose
      continuations are Rocq functions, so that each definition can be read
      next to the method it embeds;
    - [exec] runs a command synchronously up to its next [await], on a
      [world] holding the promise heap, the microtask queue, the timers, the
      clock, the lock table [#cacheDirectories] and the engine instances;
    - [drain] runs the microtask queue, [advance] lets time pass and fires
      the due timers, [store_done] completes a call of the underlying store.

    The promise machinery follows ECMAScript: a resolve/reject pair shares
    one "already resolved" flag, resolving with a promise locks the pair and
    defers to that promise through a microtask, reactions run as microtasks
    in the order they were registered. *)

From Stdlib Require Import ZArith String Ascii List Bool Lia.
From stdpp Require Import base option list gmap strings.
Import ListNotations.

Set Implicit Arguments.
Local Open Scope string_scope.
Local Open Scope list_scope.

(* ===================================================================== *)
(** ** Values *)
(* ===================================================================== *)

Definition pid := nat.

(** A resolve/reject pair of a promise: the promise and the index of the
    pair's "already resolved" flag among the promise's pairs. *)
Definition resolver := (pid * nat)%type.

(** JavaScript values as far as the engine handles them. *)
Inductive val : Type :=
| VUndef
| VBool (b : bool)
| VNum (n : Z)
| VQuot (n d : Z)            (* the number n / d *)
| VData (json : string)      (* a value of the cache, opaque to the engine *)
| VErr (msg : string)
| VPromise (p : pid)
| VRows (rows : list row)
(** One element of the array [load] returns: [{ key, val, ttl }]. *)
with row : Type :=
| Row (key : string) (v : val) (ttl : val).

(** A number or [undefined]: TTLs and timestamps. *)
Definition num := option Z.

(** [if (x)] on a number or [undefined]. *)
Definition truthy (x : num) : bool :=
  match x with
  | Some n => negb (n =? 0)%Z
  | None => false
  end.

Definition of_num (x : num) : val :=
  match x with
  | Some n => VNum n
  | None => VUndef
  end.

(** What the underlying store hands to the visitor of [forEach]. *)
Record datum := { d_key : string; d_value : val; d_ttl : num }.

(** The calls the engine makes on the underlying store. *)
Inductive store_call : Type :=
| GetItem (key : string)
| UpdateItem (key : string) (value : val) (ttl : num)
| RemoveItem (key : string)
| ClearAll
| InitStore
| ForEachItem.

(** A record of [#cacheDirectories]: [{ lock, unlock }]. *)
Record lockrec := { lock : pid; unlock : resolver }.

(** The owning cache, as the engine uses it. *)
Record cache := {
  getTtl : string -> num;      (* this.cache.getTtl(key) *)
  cache_get : string -> val    (* this.cache.get(key) *)
}.

(** Constructor options. *)
Record options := { directory : option string; prefix : option string }.

(* ===================================================================== *)
(** ** The write queue *)
(* ===================================================================== *)

(** Modelled from the spec: the write queue is the external library
    Bottleneck, of which only the calls [new Bottleneck({ maxConcurrent })],
    [schedule] and [stop] appear in the source.  Section 5 of the spec gives
    its behaviour: strict first-in first-out, at most [maxConcurrent] tasks
    running; [stop] lets queued work finish and refuses new submissions.
    What a repeated [stop] answers is not said anywhere: it is the
    parameter [restop] of the world the engines run in. *)
Record limiter := {
  maxConcurrent : nat;
  waiting : list (store_call * pid);   (* queued tasks with their job promise *)
  running : nat;                       (* tasks started and not finished *)
  stopped : bool;
  draining : list resolver             (* stop() promises waiting for the queue to empty *)
}.

(** An engine instance: the private fields of [NodePersist] and the cache
    the base class keeps. *)
Record engine := {
  e_cache : cache;
  e_directory : option string;   (* #directory *)
  e_ready : option pid;          (* #ready *)
  e_engine : option string;      (* #engine: the store handle, bound to its dir *)
  e_limiter : option limiter     (* #limiter *)
}.

(* ===================================================================== *)
(** ** Commands *)
(* ===================================================================== *)

Inductive prog : Type :=
(* control *)
| Ret (v : val)                                   (* return v *)
| Throw (e : val)                                 (* throw e *)
| Await (v : val) (k : val -> prog)               (* await v *)
| CallAsync (body : prog) (k : pid -> prog)       (* call of an async method *)
(* promises and timers *)
| NewPromise (k : pid -> prog)                    (* new Promise(executor) *)
| Resolve (r : resolver) (v : val) (k : prog)     (* resolve(v) *)
| Reject (r : resolver) (e : val) (k : prog)      (* reject(e) *)
| Then (p : pid) (onF onR : val -> prog) (k : pid -> prog)   (* p.then(onF, onR) *)
| SetTimeout (cb : prog) (ms : Z) (k : prog)      (* setTimeout(cb, ms) *)
| DateNow (k : Z -> prog)                         (* Date.now() *)
(* NodePersist.#cacheDirectories *)
| DirGet (d : string) (k : option lockrec -> prog)
| DirSet (d : string) (r : lockrec) (k : prog)
| DirDelete (d : string) (k : prog)
(* this *)
| NewObject (c : cache) (k : nat -> prog)         (* super(opts, cache) *)
| This (this : nat) (k : engine -> prog)          (* read the fields of this *)
| SetDirectory (this : nat) (d : string) (k : prog)
| SetReady (this : nat) (p : pid) (k : prog)
| CreateStore (this : nat) (d : string) (k : prog)   (* nodePersist.create({ dir }) *)
| NewLimiter (this : nat) (max : nat) (k : prog)     (* new Bottleneck({ maxConcurrent }) *)
(* this.#limiter *)
| Schedule (this : nat) (c : store_call) (k : val -> prog)
| Stop (this : nat) (k : val -> prog)
| JobDone (this : nat) (k : prog)                 (* the queue learns that a task finished *)
(* this.#engine, called directly *)
| StoreInit (this : nat) (k : val -> prog)
| StoreForEach (this : nat) (visit : datum -> prog) (k : val -> prog)
(* a local array *)
| NewArray (k : nat -> prog)
| Push (a : nat) (x : row) (k : prog)
| ReadArray (a : nat) (k : list row -> prog).

Declare Scope prog_scope.
Delimit Scope prog_scope with prog.
Bind Scope prog_scope with prog.
Local Open Scope prog_scope.

Notation "'let*' x ':=' c 'in' k" := (c (fun x => k))
  (at level 10, x name, c at level 100, k at level 200) : prog_scope.

(* ===================================================================== *)
(** ** Worlds *)
(* ===================================================================== *)

Inductive pstate : Type :=
| Pending
| Fulfilled (v : val)
| Rejected (e : val).

(** A promise reaction: the handlers and the promise their result settles
    (the promise [then] returned, or the promise of the async function that
    awaits). *)
Record reaction := { r_ful : val -> prog; r_rej : val -> prog; r_cap : option pid }.

Record promise := {
  st : pstate;
  flags : list bool;          (* "already resolved", one per resolve/reject pair *)
  reacts : list reaction
}.

Inductive job : Type :=
| JReact (f : val -> prog) (arg : val) (cap : option pid)
| JThenable (p q : pid).      (* NewPromiseResolveThenableJob: p follows q *)

(** A call of the underlying store that has started and not finished. *)
Record flight := {
  f_this : nat;
  f_call : store_call;
  f_promise : pid;
  f_visit : option (datum -> prog)
}.

Record world := {
  heap : list promise;
  micro : list job;
  timers : list (Z * prog);               (* due time and callback *)
  clock : Z;
  registry : gmap string lockrec;         (* NodePersist.#cacheDirectories *)
  engines : list engine;
  inflight : list flight;
  store_log : list (nat * store_call);    (* every store call, in the order received *)
  arrays : list (list row);
  restop : option val                     (* Some e: a repeated stop() of a queue rejects with e *)
}.

Definition w0 : world :=
  {| heap := []; micro := []; timers := []; clock := 0; registry := ∅;
     engines := []; inflight := []; store_log := []; arrays := [];
     restop := None |}.

Definition set_heap (h : list promise) (w : world) : world :=
  {| heap := h; micro := micro w; timers := timers w; clock := clock w;
     registry := registry w; engines := engines w; inflight := inflight w;
     store_log := store_log w; arrays := arrays w; restop := restop w |}.

Definition set_micro (m : list job) (w : world) : world :=
  {| heap := heap w; micro := m; timers := timers w; clock := clock w;
     registry := registry w; engines := engines w; inflight := inflight w;
     store_log := store_log w; arrays := arrays w; restop := restop w |}.

Definition set_timers (t : list (Z * prog)) (w : world) : world :=
  {| heap := heap w; micro := micro w; timers := t; clock := clock w;
     registry := registry w; engines := engines w; inflight := inflight w;
     store_log := store_log w; arrays := arrays w; restop := restop w |}.

Definition set_clock (c : Z) (w : world) : world :=
  {| heap := heap w; micro := micro w; timers := timers w; clock := c;
     registry := registry w; engines := engines w; inflight := inflight w;
     store_log := store_log w; arrays := arrays w; restop := restop w |}.

Definition set_registry (r : gmap string lockrec) (w : world) : world :=
  {| heap := heap w; micro := micro w; timers := timers w; clock := clock w;
     registry := r; engines := engines w; inflight := inflight w;
     store_log := store_log w; arrays := arrays w; restop := restop w |}.

Definition set_engines (e : list engine) (w : world) : world :=
  {| heap := heap w; micro := micro w; timers := timers w; clock := clock w;
     registry := registry w; engines := e; inflight := inflight w;
     store_log := store_log w; arrays := arrays w; restop := restop w |}.

Definition set_inflight (f : list flight) (w : world) : world :=
  {| heap := heap w; micro := micro w; timers := timers w; clock := clock w;
     registry := registry w; engines := engines w; inflight := f;
     store_log := store_log w; arrays := arrays w; restop := restop w |}.

Definition set_store_log (l : list (nat * store_call)) (w : world) : world :=
  {| heap := heap w; micro := micro w; timers := timers w; clock := clock w;
     registry := registry w; engines := engines w; inflight := inflight w;
     store_log := l; arrays := arrays w; restop := restop w |}.

Definition set_arrays (a : list (list row)) (w : world) : world :=
  {| heap := heap w; micro := micro w; timers := timers w; clock := clock w;
     registry := registry w; engines := engines w; inflight := inflight w;
     store_log := store_log w; arrays := a; restop := restop w |}.

Definition set_restop (r : option val) (w : world) : world :=
  {| heap := heap w; micro := micro w; timers := timers w; clock := clock w;
     registry := registry w; engines := engines w; inflight := inflight w;
     store_log := store_log w; arrays := arrays w; restop := r |}.

(* ===================================================================== *)
(** ** Promises *)
(* ===================================================================== *)

Definition outcome := (val + val)%type.   (* inl: value, inr: thrown *)

Definition fresh (s : pstate) : promise :=
  {| st := s; flags := [false]; reacts := [] |}.

(** A new promise with its first resolve/reject pair. *)
Definition alloc (s : pstate) (w : world) : world * pid :=
  (set_heap (heap w ++ [fresh s]) w, length (heap w)).

Definition state_of (p : pid) (w : world) : option pstate :=
  st <$> heap w !! p.

Definition enqueue (j : job) (w : world) : world :=
  set_micro (micro w ++ [j]) w.

(** FulfillPromise and RejectPromise: a pending promise takes its final
    state and its reactions become microtasks, in registration order. *)
Definition settle (p : pid) (o : outcome) (w : world) : world :=
  match heap w !! p with
  | Some pr =>
      match st pr with
      | Pending =>
          let jobs :=
            map (fun r =>
                   match o with
                   | inl v => JReact (r_ful r) v (r_cap r)
                   | inr e => JReact (r_rej r) e (r_cap r)
                   end) (reacts pr) in
          let s := match o with inl v => Fulfilled v | inr e => Rejected e end in
          set_micro (micro w ++ jobs)
            (set_heap (<[p := {| st := s; flags := flags pr; reacts := [] |}]> (heap w)) w)
      | _ => w
      end
  | None => w
  end.

Definition flag_of (r : resolver) (w : world) : bool :=
  match heap w !! r.1 with
  | Some pr => default true (flags pr !! r.2)
  | None => true
  end.

Definition set_flag (r : resolver) (w : world) : world :=
  match heap w !! r.1 with
  | Some pr =>
      set_heap (<[r.1 := {| st := st pr; flags := <[r.2 := true]> (flags pr);
                            reacts := reacts pr |}]> (heap w)) w
  | None => w
  end.

(** A further resolve/reject pair for [p], as the thenable job makes one. *)
Definition new_pair (p : pid) (w : world) : world * resolver :=
  match heap w !! p with
  | Some pr =>
      (set_heap (<[p := {| st := st pr; flags := flags pr ++ [false];
                           reacts := reacts pr |}]> (heap w)) w,
       (p, length (flags pr)))
  | None => (w, (p, 0))
  end.

(** The steps of a resolve function once its flag is taken: a promise as
    value is followed through a microtask, anything else fulfils. *)
Definition resolve_with (p : pid) (v : val) (w : world) : world :=
  match v with
  | VPromise q =>
      if (p =? q)%nat then settle p (inr (VErr "TypeError: Chaining cycle detected for promise")) w
      else enqueue (JThenable p q) w
  | _ => settle p (inl v) w
  end.

(** Calling a resolve function: nothing happens when the pair's flag is
    already set, by an earlier call of this function or of its twin. *)
Definition call_resolve (r : resolver) (v : val) (w : world) : world :=
  if flag_of r w then w else resolve_with r.1 v (set_flag r w).

Definition call_reject (r : resolver) (e : val) (w : world) : world :=
  if flag_of r w then w else settle r.1 (inr e) (set_flag r w).

(** PerformPromiseThen. *)
Definition perform_then (p : pid) (rc : reaction) (w : world) : world :=
  match heap w !! p with
  | Some pr =>
      match st pr with
      | Pending =>
          set_heap (<[p := {| st := Pending; flags := flags pr;
                              reacts := reacts pr ++ [rc] |}]> (heap w)) w
      | Fulfilled v => enqueue (JReact (r_ful rc) v (r_cap rc)) w
      | Rejected e => enqueue (JReact (r_rej rc) e (r_cap rc)) w
      end
  | None => w
  end.

(** [p.then(onF, onR)]: the derived promise is returned. *)
Definition then_ (p : pid) (onF onR : val -> prog) (w : world) : world * pid :=
  let '(w1, q) := alloc Pending w in
  (perform_then p {| r_ful := onF; r_rej := onR; r_cap := Some q |} w1, q).

(** [await v]: a value that is not a promise is wrapped in a fulfilled one;
    the rest of the function is the reaction. *)
Definition await_on (v : val) (k : val -> prog) (tgt : option pid) (w : world) : world :=
  let rc := {| r_ful := k; r_rej := Throw; r_cap := tgt |} in
  match v with
  | VPromise q => perform_then q rc w
  | _ => let '(w1, q) := alloc (Fulfilled v) w in perform_then q rc w1
  end.

(** The end of a callback or of an async function body: its result settles
    the promise it works for, through that promise's first pair. *)
Definition finish (tgt : option pid) (o : outcome) (w : world) : world :=
  match tgt with
  | Some t =>
      match o with
      | inl v => call_resolve (t, 0) v w
      | inr e => call_reject (t, 0) e w
      end
  | None => w
  end.

(* ===================================================================== *)
(** ** Engines, the write queue and the underlying store *)
(* ===================================================================== *)

Definition new_engine (c : cache) : engine :=
  {| e_cache := c; e_directory := None; e_ready := None; e_engine := None;
     e_limiter := None |}.

Definition with_directory (d : string) (e : engine) : engine :=
  {| e_cache := e_cache e; e_directory := Some d; e_ready := e_ready e;
     e_engine := e_engine e; e_limiter := e_limiter e |}.

Definition with_ready (p : pid) (e : engine) : engine :=
  {| e_cache := e_cache e; e_directory := e_directory e; e_ready := Some p;
     e_engine := e_engine e; e_limiter := e_limiter e |}.

Definition with_engine (d : string) (e : engine) : engine :=
  {| e_cache := e_cache e; e_directory := e_directory e; e_ready := e_ready e;
     e_engine := Some d; e_limiter := e_limiter e |}.

Definition with_limiter (l : limiter) (e : engine) : engine :=
  {| e_cache := e_cache e; e_directory := e_directory e; e_ready := e_ready e;
     e_engine := e_engine e; e_limiter := Some l |}.

Definition update_engine (this : nat) (f : engine -> engine) (w : world) : world :=
  match engines w !! this with
  | Some e => set_engines (<[this := f e]> (engines w)) w
  | None => w
  end.

Definition limiter_of (this : nat) (w : world) : option limiter :=
  engines w !! this ≫= e_limiter.

Definition new_limiter (max : nat) : limiter :=
  {| maxConcurrent := max; waiting := []; running := 0; stopped := false;
     draining := [] |}.

(** Modelled from the spec: the underlying store is the external library
    node-persist, "an opaque capability" exposing [init], [getItem],
    [updateItem], [removeItem], [clear] and [forEach], each returning a
    promise.  The store receives a call: it is logged, it is in flight, and
    its promise is pending until [store_done]. *)
Definition start_call (this : nat) (c : store_call) (visit : option (datum -> prog))
    (w : world) : world * pid :=
  let '(w1, t) := alloc Pending w in
  (set_store_log (store_log w1 ++ [(this, c)])
     (set_inflight (inflight w1 ++
        [{| f_this := this; f_call := c; f_promise := t; f_visit := visit |}]) w1),
   t).

(** The queue starts waiting tasks, oldest first, while a slot is free.
    When the store call of a task settles, the queue is told ([JobDone]) and
    the task's job promise settles the same way. *)
Fixpoint dispatch (fuel : nat) (this : nat) (w : world) : world :=
  match fuel with
  | O => w
  | S fuel' =>
      match limiter_of this w with
      | Some l =>
          match waiting l with
          | (c, j) :: rest =>
              if (running l <? maxConcurrent l)%nat then
                let l' := {| maxConcurrent := maxConcurrent l; waiting := rest;
                             running := S (running l); stopped := stopped l;
                             draining := draining l |} in
                let '(w1, t) := start_call this c None (update_engine this (with_limiter l') w) in
                dispatch fuel' this
                  (perform_then t
                     {| r_ful := fun v => JobDone this (Resolve (j, 0) v (Ret VUndef));
                        r_rej := fun e => JobDone this (Reject (j, 0) e (Ret VUndef));
                        r_cap := None |} w1)
              else w
          | [] => w
          end
      | None => w
      end
  end.

Definition dispatch_all (this : nat) (w : world) : world :=
  dispatch (S (length (default [] (waiting <$> limiter_of this w)))) this w.

(** [limiter.schedule(task, ...args)]: the job promise is returned. *)
Definition schedule (l : limiter) (this : nat) (c : store_call) (w : world) : world * pid :=
  if stopped l then alloc (Rejected (VErr "This limiter has been stopped.")) w
  else
    let '(w1, j) := alloc Pending w in
    let l' := {| maxConcurrent := maxConcurrent l; waiting := waiting l ++ [(c, j)];
                 running := running l; stopped := false;
                 draining := draining l |} in
    (dispatch_all this (update_engine this (with_limiter l') w1), j).

Definition idle (l : limiter) : bool :=
  match waiting l with
  | [] => (running l =? 0)%nat
  | _ => false
  end.

(** [limiter.stop({ dropWaitingJobs: false })]. *)
Definition stop (l : limiter) (this : nat) (w : world) : world * pid :=
  match stopped l, restop w with
  | true, Some e => alloc (Rejected e) w
  | _, _ =>
      if idle l then
        let l' := {| maxConcurrent := maxConcurrent l; waiting := waiting l;
                     running := running l; stopped := true;
                     draining := draining l |} in
        alloc (Fulfilled VUndef) (update_engine this (with_limiter l') w)
      else
        let '(w1, s) := alloc Pending w in
        let l' := {| maxConcurrent := maxConcurrent l; waiting := waiting l;
                     running := running l; stopped := true;
                     draining := draining l ++ [(s, 0)] |} in
        (update_engine this (with_limiter l') w1, s)
  end.

(** A task finished: its slot is free, the next task starts, and a stopped
    queue that has emptied answers its [stop] calls. *)
Definition job_done (this : nat) (w : world) : world :=
  match limiter_of this w with
  | Some l =>
      let l' := {| maxConcurrent := maxConcurrent l; waiting := waiting l;
                   running := pred (running l); stopped := stopped l;
                   draining := draining l |} in
      let w1 := dispatch_all this (update_engine this (with_limiter l') w) in
      match limiter_of this w1 with
      | Some l1 =>
          if stopped l1 && idle l1 then
            let l2 := {| maxConcurrent := maxConcurrent l1; waiting := waiting l1;
                         running := running l1; stopped := true;
                         draining := [] |} in
            fold_left (fun w r => call_resolve r VUndef w) (draining l1)
              (update_engine this (with_limiter l2) w1)
          else w1
      | None => w1
      end
  | None => w
  end.

(** The lock table is a JavaScript object used as a map from directory to
    record: [table[d]], [table[d] = r] and [delete table[d]].  [dir_get] is
    the lookup among the records stored in the table.  Directories that
    name a property every object inherits, such as "constructor", are
    outside this model: for them [table[d]] is truthy although no record
    is stored. *)
Definition dir_get (d : string) (t : gmap string lockrec) : option lockrec := t !! d.
Definition dir_set (d : string) (r : lockrec) (t : gmap string lockrec) : gmap string lockrec :=
  <[d := r]> t.
Definition dir_delete (d : string) (t : gmap string lockrec) : gmap string lockrec :=
  delete d t.

(** The names [#cacheDirectories], created as [{}], inherits from
    [Object.prototype]. *)
Definition inherited_names : list string :=
  ["constructor"; "hasOwnProperty"; "isPrototypeOf"; "propertyIsEnumerable";
   "toLocaleString"; "toString"; "valueOf"; "__defineGetter__"; "__defineSetter__";
   "__lookupGetter__"; "__lookupSetter__"; "__proto__"].

Definition inherited (d : string) : bool := existsb (String.eqb d) inherited_names.

(** Timers are kept in firing order: by due time, then by age. *)
Fixpoint insert_timer (t : Z * prog) (ts : list (Z * prog)) : list (Z * prog) :=
  match ts with
  | [] => [t]
  | u :: rest => if (t.1 <? u.1)%Z then t :: ts else u :: insert_timer t rest
  end.

Definition type_error : val := VErr "TypeError: Cannot read properties of undefined".

(* ===================================================================== *)
(** ** Running commands *)
(* ===================================================================== *)

(** [exec p tgt w] runs [p] to its end or to its next [await]; [tgt] is the
    promise the result of [p] settles. *)
Fixpoint exec (p : prog) (tgt : option pid) (w : world) {struct p} : world :=
  match p with
  | Ret v => finish tgt (inl v) w
  | Throw e => finish tgt (inr e) w
  | Await v k => await_on v k tgt w
  | CallAsync body k =>
      let '(w1, r) := alloc Pending w in
      exec (k r) tgt (exec body (Some r) w1)
  | NewPromise k =>
      let '(w1, r) := alloc Pending w in exec (k r) tgt w1
  | Resolve r v k => exec k tgt (call_resolve r v w)
  | Reject r e k => exec k tgt (call_reject r e w)
  | Then q onF onR k =>
      let '(w1, r) := then_ q onF onR w in exec (k r) tgt w1
  | SetTimeout cb ms k =>
      exec k tgt (set_timers (insert_timer ((clock w + ms)%Z, cb) (timers w)) w)
  | DateNow k => exec (k (clock w)) tgt w
  | DirGet d k => exec (k (dir_get d (registry w))) tgt w
  | DirSet d r k => exec k tgt (set_registry (dir_set d r (registry w)) w)
  | DirDelete d k => exec k tgt (set_registry (dir_delete d (registry w)) w)
  | NewObject c k =>
      exec (k (length (engines w))) tgt (set_engines (engines w ++ [new_engine c]) w)
  | This this k =>
      match engines w !! this with
      | Some e => exec (k e) tgt w
      | None => finish tgt (inr type_error) w
      end
  | SetDirectory this d k => exec k tgt (update_engine this (with_directory d) w)
  | SetReady this r k => exec k tgt (update_engine this (with_ready r) w)
  | CreateStore this d k => exec k tgt (update_engine this (with_engine d) w)
  | NewLimiter this max k =>
      exec k tgt (update_engine this (with_limiter (new_limiter max)) w)
  | Schedule this c k =>
      match limiter_of this w with
      | Some l => let '(w1, j) := schedule l this c w in exec (k (VPromise j)) tgt w1
      | None => finish tgt (inr type_error) w
      end
  | Stop this k =>
      match limiter_of this w with
      | Some l => let '(w1, s) := stop l this w in exec (k (VPromise s)) tgt w1
      | None => finish tgt (inr type_error) w
      end
  | JobDone this k => exec k tgt (job_done this w)
  | StoreInit this k =>
      match engines w !! this ≫= e_engine with
      | Some _ => let '(w1, t) := start_call this InitStore None w in exec (k (VPromise t)) tgt w1
      | None => finish tgt (inr type_error) w
      end
  | StoreForEach this visit k =>
      match engines w !! this ≫= e_engine with
      | Some _ =>
          let '(w1, t) := start_call this ForEachItem (Some visit) w in
          exec (k (VPromise t)) tgt w1
      | None => finish tgt (inr type_error) w
      end
  | NewArray k =>
      exec (k (length (arrays w))) tgt (set_arrays (arrays w ++ [[]]) w)
  | Push a x k =>
      exec k tgt (set_arrays (alter (fun l => l ++ [x]) a (arrays w)) w)
  | ReadArray a k => exec (k (default [] (arrays w !! a))) tgt w
  end.

(** One microtask. *)
Definition run_job (j : job) (w : world) : world :=
  match j with
  | JReact f arg cap => exec (f arg) cap w
  | JThenable p q =>
      let '(w1, r) := new_pair p w in
      (then_ q (fun v => Resolve r v (Ret VUndef)) (fun e => Reject r e (Ret VUndef)) w1).1
  end.

(** The microtask queue is run until it is empty: the first job is taken
    off the queue and run, and so on. *)
Fixpoint drain (fuel : nat) (w : world) : option world :=
  match w with
  | {| heap := h; micro := m; timers := t; clock := c; registry := r; engines := e;
       inflight := i; store_log := s; arrays := a; restop := rs |} =>
      match m with
      | [] =>
          Some {| heap := h; micro := []; timers := t; clock := c; registry := r;
                  engines := e; inflight := i; store_log := s; arrays := a;
                  restop := rs |}
      | j :: rest =>
          match fuel with
          | O => None
          | S fuel' =>
              drain fuel'
                (run_job j
                   {| heap := h; micro := rest; timers := t; clock := c; registry := r;
                      engines := e; inflight := i; store_log := s; arrays := a;
                      restop := rs |})
          end
      end
  end.

(** Host code runs a synchronous block, then the microtasks run. *)
Definition run (fuel : nat) (p : prog) (w : world) : option world :=
  drain fuel (exec p None w).

(** Calling an async method from host code: the promise it returns. *)
Definition call (fuel : nat) (body : prog) (w : world) : option (world * pid) :=
  let '(w1, r) := alloc Pending w in
  (fun w2 => (w2, r)) <$> drain fuel (exec body (Some r) w1).

(** Time passes: the due timers fire in order, each followed by the
    microtasks it caused. *)
Fixpoint fire (fuel : nat) (n : nat) (w : world) : option world :=
  match timers w with
  | (t, cb) :: rest =>
      if (t <=? clock w)%Z then
        match n with
        | O => None
        | S n' => drain fuel (exec cb None (set_timers rest w)) ≫= fire fuel n'
        end
      else Some w
  | [] => Some w
  end.

Definition advance (fuel : nat) (ms : Z) (w : world) : option world :=
  fire fuel fuel (set_clock (clock w + ms)%Z w).

(** [forEach] hands the data to its visitor, one datum after the other. *)
Definition visit_all (visit : datum -> prog) (ds : list datum) (w : world) : world :=
  fold_left (fun w d => exec (visit d) None w) ds w.

(** The [i]-th call in flight on the underlying store completes with
    outcome [o].  A [forEach] first hands each datum of [ds], the content of
    the directory, to its visitor. *)
Definition store_done (fuel : nat) (i : nat) (o : outcome) (ds : list datum)
    (w : world) : option world :=
  match inflight w !! i with
  | Some f =>
      let w1 := set_inflight (delete i (inflight w)) w in
      let w2 :=
        match f_visit f with
        | Some visit => visit_all visit ds w1
        | None => w1
        end in
      drain fuel (settle (f_promise f) o w2)
  | None => Some w
  end.

(* ===================================================================== *)
(** ** src/index.js *)
(* ===================================================================== *)

(** The calls of [cache.log.debug] are left out: they write to the log and
    nothing else. *)

Module NodePersist.

Definition defaultOpts : options :=
  {| directory := Some ".npc/storage"; prefix := None |}.

(** [defaultsDeep(opts, this.#defaultOpts)] *)
Definition defaultsDeep (opts dflt : options) : options :=
  {| directory := match directory opts with Some d => Some d | None => directory dflt end;
     prefix := match prefix opts with Some p => Some p | None => prefix dflt end |}.

(** [path.join] of Node.js on a POSIX platform, where the separator is
    [/]: the arguments that are not empty are joined by the separator and the
    result is normalized. *)

(** The segments of a path: what stands between its separators. *)
Fixpoint segments (s : string) : list string :=
  match s with
  | EmptyString => [""]
  | String c rest =>
      if Ascii.eqb c "/"%char then "" :: segments rest
      else
        match segments rest with
        | x :: xs => String c x :: xs
        | [] => [String c ""]
        end
  end.

(** [normalizeString]: empty segments and [.] are dropped; [..] removes the
    segment before it, or is kept when the path is relative and nothing is
    left to remove.  [acc] holds the segments kept so far, last first. *)
Fixpoint normalize_segments (absolute : bool) (segs acc : list string) : list string :=
  match segs with
  | [] => List.rev acc
  | s :: rest =>
      if String.eqb s "" || String.eqb s "." then normalize_segments absolute rest acc
      else if String.eqb s ".." then
        match acc with
        | top :: acc' =>
            if String.eqb top ".." then normalize_segments absolute rest (s :: acc)
            else normalize_segments absolute rest acc'
        | [] =>
            if absolute then normalize_segments absolute rest acc
            else normalize_segments absolute rest [s]
        end
      else normalize_segments absolute rest (s :: acc)
  end.

Definition starts_with_slash (s : string) : bool :=
  match s with
  | String c _ => Ascii.eqb c "/"%char
  | EmptyString => false
  end.

Fixpoint ends_with_slash (s : string) : bool :=
  match s with
  | EmptyString => false
  | String c EmptyString => Ascii.eqb c "/"%char
  | String _ rest => ends_with_slash rest
  end.

(** [path.normalize] *)
Definition normalize (path : string) : string :=
  if String.eqb path "" then "."
  else
    let absolute := starts_with_slash path in
    let trailing := ends_with_slash path in
    let body := String.concat "/" (normalize_segments absolute (segments path) []) in
    if String.eqb body "" then
      if absolute then "/" else if trailing then "./" else "."
    else
      String.append (if absolute then "/" else "")
        (String.append body (if trailing then "/" else "")).

Definition path_join (a b : string) : string :=
  match List.filter (fun s => negb (String.eqb s "")) [a; b] with
  | [] => "."
  | parts => normalize (String.concat "/" parts)
  end.

Definition locked_message (directory : string) : val :=
  VErr (String.append "Another NodePersist engine has already locked directory '"
          (String.append directory
             "'; use prefix to allow multiple node-persist instances")).

(** [static #lockDirectory(directory, forEngine)] *)
Definition lockDirectory (directory : string) (k : pid -> prog) : prog :=
  let* p := NewPromise in
  let* held := DirGet directory in
  (match held with
   | Some r =>
       (* another instance uses the directory: give it 500 ms, then reject *)
       fun rest =>
         SetTimeout (Reject (p, 0) (locked_message directory) (Ret VUndef)) 500
           (Resolve (p, 0) (VPromise (lock r)) rest)
   | None =>
       (* the directory is not locked: just proceed *)
       fun rest => Resolve (p, 0) VUndef rest
   end)
    (let* q :=
       Then p
         (fun _ =>
            let* lock := NewPromise in
            DirSet directory {| lock := lock; unlock := (lock, 0) |}
              (Ret (VBool true)))
         Throw in
     k q).

(** [static #unlockDirectory(directory, forEngine)] *)
Definition unlockDirectory (directory : string) (k : val -> prog) : prog :=
  let* held := DirGet directory in
  match held with
  | Some r => Resolve (unlock r) VUndef (DirDelete directory (k (VBool true)))
  | None => k (VBool true)
  end.

(** The effective directory of the constructor. *)
Definition effective_directory (opts : options) : string :=
  let opts := defaultsDeep opts defaultOpts in
  let d := default "" (directory opts) in
  match prefix opts with
  | Some p => if (p =? "")%string then d else path_join d p
  | None => d
  end.

(** [constructor(opts, cache)], over the lock acquisition it calls. *)
Definition constructor_with (acquire : string -> (pid -> prog) -> prog)
    (opts : options) (c : cache) (k : nat -> prog) : prog :=
  let* this := NewObject c in
  let d := effective_directory opts in
  SetDirectory this d
    (let* ready := NewPromise in
     SetReady this ready
       (let* acquired := acquire d in
        let* initialized :=
          Then acquired
            (fun _ =>
               CreateStore this d
                 (NewLimiter this 1
                    (Resolve (ready, 0) VUndef (Ret VUndef))))
            Throw in
        (* .catch(readyReject) *)
        let* _ := Then initialized Ret (fun e => Reject (ready, 0) e (Ret VUndef)) in
        k this)).

Definition constructor : options -> cache -> (nat -> prog) -> prog :=
  constructor_with lockDirectory.

(** [await this.#ready] *)
Definition await_ready (this : nat) (k : prog) : prog :=
  let* me := This this in
  let* _ := Await (match e_ready me with Some r => VPromise r | None => VUndef end) in
  k.

(** [async get(key)] *)
Definition get (this : nat) (key : string) : prog :=
  await_ready this
    (let* j := Schedule this (GetItem key) in
     Ret j).

(** [async del(key)] *)
Definition del (this : nat) (key : string) : prog :=
  await_ready this
    (let* j := Schedule this (RemoveItem key) in
     let* result := Await j in
     Ret result).

(** [async set(key, val, ttl)] *)
Definition set (this : nat) (key : string) (v : val) (ttl : num) : prog :=
  await_ready this
    (let upsert (ttl : num) : prog :=
       let* j := Schedule this (UpdateItem key v ttl) in
       let* _ := Await j in
       Ret v in
     match ttl with
     | None =>
         let* me := This this in
         let ttl := getTtl (e_cache me) key in
         if truthy ttl then
           let* now := DateNow in
           let ttl := (default 0 ttl - now)%Z in
           if (ttl <? 0)%Z then
             (* TTL was actually in the past - instant delete *)
             let* d := CallAsync (del this key) in
             let* _ := Await (VPromise d) in
             Ret VUndef
           else upsert (Some ttl)
         else upsert ttl
     | Some _ => upsert ttl
     end).

(** [async ttl(key, ttl)] *)
Definition ttl (this : nat) (key : string) (newTtl : num) : prog :=
  await_ready this
    (let* me := This this in
     let* v := Await (cache_get (e_cache me) key) in
     match v with
     | VUndef => Ret VUndef
     | _ =>
         let* s := CallAsync (set this key v newTtl) in
         let* result := Await (VPromise s) in
         Ret result
     end).

(** Modelled from the spec: [tsToTtl] is inherited from the base class of
    the package npc-engine, which is not part of the sources.  The spec
    says of [load]: "each retained datum's TTL is computed as
    storedExpiresAt - now"; a datum without expiration has no TTL. *)
Definition tsToTtl (ts : num) (k : num -> prog) : prog :=
  let* now := DateNow in
  k (match ts with Some t => Some (t - now)%Z | None => None end).

(** The visitor [load] hands to [forEach]. *)
Definition load_visitor (result : nat) (datum : datum) : prog :=
  let keep (k : prog) : prog :=
    if negb (truthy (d_ttl datum)) then k
    else
      let* now := DateNow in
      if (now <? default 0 (d_ttl datum))%Z then k else Ret VUndef in
  keep
    (let* t := tsToTtl (d_ttl datum) in
     Push result (Row (d_key datum) (d_value datum) (of_num t)) (Ret VUndef)).

(** [async load()] *)
Definition load (this : nat) : prog :=
  await_ready this
    (let* i := StoreInit this in
     let* _ := Await i in
     let* result := NewArray in
     let* f := StoreForEach this (load_visitor result) in
     let* _ := Await f in
     let* rows := ReadArray result in
     Ret (VRows rows)).

(** [async flush()] *)
Definition flush (this : nat) : prog :=
  await_ready this
    (let* j := Schedule this ClearAll in
     let* _ := Await j in
     Ret (VBool true)).

(** [async close()] *)
Definition close (this : nat) : prog :=
  await_ready this
    (let* s := Stop this in
     let* _ := Await s in
     let* me := This this in
     let* _ := unlockDirectory (default "undefined" (e_directory me)) in
     Ret (VBool true)).

End NodePersist.

(* ===================================================================== *)
(** ** src/unnamed/part_000 *)
(* ===================================================================== *)

(** The older copy of the class.  It differs from [src/index.js] in what
    the lock callback returns, in when [#directory] is assigned, in [set]
    (no test for an expiration in the past), in what [del] and [ttl]
    return, in the unit of the TTLs of [load], and in [close], which is not
    [async] and does not stop the queue. *)

Module Part000.

Definition locked_message := NodePersist.locked_message.
Definition effective_directory := NodePersist.effective_directory.
Definition await_ready := NodePersist.await_ready.
Definition tsToTtl := NodePersist.tsToTtl.

(** [static #lockDirectory(directory)]: the callback returns the new lock
    promise itself. *)
Definition lockDirectory (directory : string) (k : pid -> prog) : prog :=
  let* p := NewPromise in
  let* held := DirGet directory in
  (match held with
   | Some r =>
       fun rest =>
         SetTimeout (Reject (p, 0) (locked_message directory) (Ret VUndef)) 500
           (Resolve (p, 0) (VPromise (lock r)) rest)
   | None => fun rest => Resolve (p, 0) VUndef rest
   end)
    (let* q :=
       Then p
         (fun _ =>
            let* lock := NewPromise in
            DirSet directory {| lock := lock; unlock := (lock, 0) |}
              (Ret (VPromise lock)))
         Throw in
     k q).

(** [static #unlockDirectory(directory)] *)
Definition unlockDirectory (directory : string) (k : val -> prog) : prog :=
  let* held := DirGet directory in
  match held with
  | Some r => Resolve (unlock r) VUndef (DirDelete directory (k (VBool true)))
  | None => k (VBool true)
  end.

(** [constructor(opts, cache)]: [#directory] is assigned once the lock
    is held. *)
Definition constructor (opts : options) (c : cache) (k : nat -> prog) : prog :=
  let* this := NewObject c in
  let d := effective_directory opts in
  let* ready := NewPromise in
  SetReady this ready
    (let* acquired := lockDirectory d in
     let* initialized :=
       Then acquired
         (fun _ =>
            SetDirectory this d
              (CreateStore this d
                 (NewLimiter this 1
                    (Resolve (ready, 0) VUndef (Ret VUndef)))))
         Throw in
     let* _ := Then initialized Ret (fun e => Reject (ready, 0) e (Ret VUndef)) in
     k this).

(** [async get(key)] *)
Definition get (this : nat) (key : string) : prog :=
  await_ready this
    (let* j := Schedule this (GetItem key) in
     Ret j).

(** [async set(key, val, ttl)] *)
Definition set (this : nat) (key : string) (v : val) (ttl : num) : prog :=
  await_ready this
    (let upsert (ttl : num) : prog :=
       let* j := Schedule this (UpdateItem key v ttl) in
       let* _ := Await j in
       Ret v in
     match ttl with
     | None =>
         let* me := This this in
         upsert (getTtl (e_cache me) key)
     | Some _ => upsert ttl
     end).

(** [async del(key)] *)
Definition del (this : nat) (key : string) : prog :=
  await_ready this
    (let* j := Schedule this (RemoveItem key) in
     Ret j).

(** [async ttl(key, ttl)]: nothing is returned. *)
Definition ttl (this : nat) (key : string) (newTtl : num) : prog :=
  await_ready this
    (let* me := This this in
     let* v := Await (cache_get (e_cache me) key) in
     match v with
     | VUndef => Ret VUndef
     | _ =>
         let* s := CallAsync (set this key v newTtl) in
         let* _ := Await (VPromise s) in
         Ret VUndef
     end).

(** The visitor of [load]: the TTL is divided by 1000. *)
Definition load_visitor (result : nat) (datum : datum) : prog :=
  let keep (k : prog) : prog :=
    if negb (truthy (d_ttl datum)) then k
    else
      let* now := DateNow in
      if (now <? default 0 (d_ttl datum))%Z then k else Ret VUndef in
  keep
    (let* t := tsToTtl (d_ttl datum) in
     let ttl := if truthy t then VQuot (default 0%Z t) 1000 else of_num t in
     Push result (Row (d_key datum) (d_value datum) ttl) (Ret VUndef)).

(** [async load()] *)
Definition load (this : nat) : prog :=
  await_ready this
    (let* i := StoreInit this in
     let* _ := Await i in
     let* result := NewArray in
     let* f := StoreForEach this (load_visitor result) in
     let* _ := Await f in
     let* rows := ReadArray result in
     Ret (VRows rows)).

(** [async flush()] *)
Definition flush (this : nat) : prog :=
  await_ready this
    (let* j := Schedule this ClearAll in
     let* _ := Await j in
     Ret (VBool true)).

(** [close()]: an ordinary method. *)
Definition close (this : nat) (k : val -> prog) : prog :=
  let* me := This this in
  let* _ := unlockDirectory (default "undefined" (e_directory me)) in
  k (VBool true).

End Part000.

(* ===================================================================== *)
(** ** Scenarios *)
(* ===================================================================== *)

(** Microtasks allowed per run of the queue; every run below needs fewer. *)
Definition fuel : nat := 40.

(** The promise [lockDirectory] returns when it is called in [w]: the
    second one it creates (see [lockDirectory_returns]). *)
Definition lock_promise (w : world) : pid := S (length (heap w)).

(** Host code that takes and gives back a directory. *)
Definition acquire (d : string) : prog := NodePersist.lockDirectory d (fun _ => Ret VUndef).
Definition release (d : string) : prog := NodePersist.unlockDirectory d (fun _ => Ret VUndef).

Definition opts_for (d : string) : options := {| directory := Some d; prefix := None |}.

(** A process started at time [now] runs [new NodePersist({ directory: d }, c)]. *)
Definition boot (d : string) (c : cache) (now : Z) : option world :=
  run fuel (NodePersist.constructor (opts_for d) c (fun _ => Ret VUndef)) (set_clock now w0).

Definition settled (s : pstate) : promise := {| st := s; flags := [true]; reacts := [] |}.

(** The world [boot] ends in: engine 0 is ready on [d], its queue is empty,
    promise 0 is [#ready] and promise 5 the lock of the directory. *)
Definition ready_world (d : string) (c : cache) (now : Z) : world :=
  {| heap := [settled (Fulfilled VUndef); settled (Fulfilled VUndef);
              settled (Fulfilled (VBool true)); settled (Fulfilled VUndef);
              settled (Fulfilled VUndef); fresh Pending];
     micro := []; timers := []; clock := now;
     registry := dir_set d {| lock := 5; unlock := (5, 0) |} ∅;
     engines := [{| e_cache := c; e_directory := Some d; e_ready := Some 0;
                    e_engine := Some d; e_limiter := Some (new_limiter 1) |}];
     inflight := []; store_log := []; arrays := []; restop := None |}.

(** Several async methods called one after the other by host code. *)
Fixpoint call_all (bodies : list prog) (w : world) : option (world * list pid) :=
  match bodies with
  | [] => Some (w, [])
  | b :: rest =>
      '(w1, p) ← call fuel b w;
      '(w2, ps) ← call_all rest w1;
      Some (w2, p :: ps)
  end.

(** The same calls made in one synchronous block: no microtask runs
    between them. *)
Fixpoint together (bodies : list prog) : prog :=
  match bodies with
  | [] => Ret VUndef
  | b :: rest => CallAsync b (fun _ => together rest)
  end.

(** An acquisition that fails with [e] after 500 ms, as [lockDirectory] is
    documented to when the directory stays locked. *)
Definition failing_acquire (e : val) (_ : string) (k : pid -> prog) : prog :=
  let* p := NewPromise in
  SetTimeout (Reject (p, 0) e (Ret VUndef)) 500 (k p).

Definition boot_failing (e : val) (d : string) (c : cache) (now : Z) : option world :=
  run fuel
    (NodePersist.constructor_with (failing_acquire e) (opts_for d) c (fun _ => Ret VUndef))
    (set_clock now w0).

(** The public operations of engine [this]. *)
Definition public_ops (this : nat) (key : string) (v : val) (t : num) : list prog :=
  [NodePersist.get this key; NodePersist.set this key v t; NodePersist.del this key;
   NodePersist.ttl this key t; NodePersist.load this; NodePersist.flush this;
   NodePersist.close this].

(** What [load] keeps of a datum at time [now], and the row it makes. *)
Definition expired (now : Z) (x : datum) : bool :=
  match d_ttl x with
  | Some t => negb (t =? 0)%Z && (t <=? now)%Z
  | None => false
  end.

Definition loaded_row (now : Z) (x : datum) : row :=
  Row (d_key x) (d_value x)
    (match d_ttl x with Some t => VNum (t - now) | None => VUndef end).

Definition loaded_rows (now : Z) (ds : list datum) : list row :=
  map (loaded_row now) (List.filter (fun x => negb (expired now x)) ds).

(* ===================================================================== *)
(** ** What the theorems observe *)
(* ===================================================================== *)

(** The lock of a record is live while its promise is pending. *)
Definition live (w : world) (r : lockrec) : bool :=
  match state_of (lock r) w with
  | Some Pending => true
  | _ => false
  end.

(** The state of [#ready] of engine [this]. *)
Definition ready_state (this : nat) (w : world) : option pstate :=
  match engines w !! this with
  | Some me =>
      match e_ready me with
      | Some r => state_of r w
      | None => None
      end
  | None => None
  end.

(** Commands that never call the underlying store and never touch the
    write queue except to stop it, at any of their steps. *)
Inductive quiet : prog -> Prop :=
| quiet_Ret v : quiet (Ret v)
| quiet_Throw e : quiet (Throw e)
| quiet_Await v k : (forall x, quiet (k x)) -> quiet (Await v k)
| quiet_CallAsync body k : quiet body -> (forall r, quiet (k r)) -> quiet (CallAsync body k)
| quiet_NewPromise k : (forall r, quiet (k r)) -> quiet (NewPromise k)
| quiet_Resolve r v k : quiet k -> quiet (Resolve r v k)
| quiet_Reject r e k : quiet k -> quiet (Reject r e k)
| quiet_Then p onF onR k :
    (forall x, quiet (onF x)) -> (forall x, quiet (onR x)) -> (forall r, quiet (k r)) ->
    quiet (Then p onF onR k)
| quiet_SetTimeout cb ms k : quiet cb -> quiet k -> quiet (SetTimeout cb ms k)
| quiet_DateNow k : (forall n, quiet (k n)) -> quiet (DateNow k)
| quiet_DirGet d k : (forall r, quiet (k r)) -> quiet (DirGet d k)
| quiet_DirSet d r k : quiet k -> quiet (DirSet d r k)
| quiet_DirDelete d k : quiet k -> quiet (DirDelete d k)
| quiet_NewObject c k : (forall n, quiet (k n)) -> quiet (NewObject c k)
| quiet_This this k : (forall me, quiet (k me)) -> quiet (This this k)
| quiet_SetDirectory this d k : quiet k -> quiet (SetDirectory this d k)
| quiet_SetReady this r k : quiet k -> quiet (SetReady this r k)
| quiet_CreateStore this d k : quiet k -> quiet (CreateStore this d k)
| quiet_NewLimiter this max k : quiet k -> quiet (NewLimiter this max k)
| quiet_Stop this k : (forall s, quiet (k s)) -> quiet (Stop this k)
| quiet_NewArray k : (forall a, quiet (k a)) -> quiet (NewArray k)
| quiet_Push a x k : quiet k -> quiet (Push a x k)
| quiet_ReadArray a k : (forall l, quiet (k l)) -> quiet (ReadArray a k).

(** What the underlying store has been asked and is still working on. *)
Definition store_side (w : world) : list (nat * store_call) * list flight :=
  (store_log w, inflight w).

(** A cache that holds nothing. *)
Definition no_cache : cache := {| getTtl := fun _ => None; cache_get := fun _ => VUndef |}.

(** What the write queue of engine [this] still holds. *)
Definition queued (this : nat) (w : world) : list store_call :=
  match limiter_of this w with
  | Some l => map fst (waiting l)
  | None => []
  end.

(** The calls in flight on the store, each with the engine that made it. *)
Definition in_flight_by (w : world) : list (nat * store_call) :=
  map (fun f => (f_this f, f_call f)) (inflight w).

(** The calls the underlying store is working on. *)
Definition in_flight (w : world) : list store_call := map f_call (inflight w).

(** A cache whose keys all expire at [e]. *)
Definition expiring_at (e : Z) : cache :=
  {| getTtl := fun _ => Some e; cache_get := fun _ => VUndef |}.

(** How the underlying store answers a call: a value, or an error. *)
Definition answer (r : string + val) : outcome :=
  match r with
  | inl y => inl (VData y)
  | inr e => inr e
  end.

(** What the visitor of [load] adds to its array for one datum. *)
Definition kept (now : Z) (x : datum) : list row :=
  if expired now x then [] else [loaded_row now x].

(** A cache that holds [x], expiring at [e], under every key. *)
Definition holding (x : string) (e : num) : cache :=
  {| getTtl := fun _ => e; cache_get := fun _ => VData x |}.

Unset Implicit Arguments.

(** The state a promise takes from an outcome. *)
Definition settled_as (o : outcome) : pstate :=
  match o with
  | inl v => Fulfilled v
  | inr e => Rejected e
  end.

(** An answer of the store, or a value, that is not itself a promise. *)
Definition plain (o : outcome) : Prop := forall q : pid, o <> inl (VPromise q).


Definition is_rejected (s : option pstate) : bool :=
  match s with
  | Some (Rejected _) => true
  | _ => false
  end.

(** [#directory] and the directory of [#engine] of engine [this]. *)
Definition directory_of (this : nat) (w : world) : option string :=
  engines w !! this ≫= e_directory.

Definition store_of (this : nat) (w : world) : option string :=
  engines w !! this ≫= e_engine.

(** [new NodePersist(o, c)] in a fresh process at time [now] gives a ready
    instance whose directory, store and lock record are those of [dir]. *)
Definition starts_in (o : options) (c : cache) (now : Z) (dir : string) : Prop :=
  exists w r,
    run fuel (NodePersist.constructor o c (fun _ => Ret VUndef)) (set_clock now w0) = Some w /\
    ready_state 0 w = Some (Fulfilled VUndef) /\
    directory_of 0 w = Some dir /\ store_of 0 w = Some dir /\
    dir_get dir (registry w) = Some r /\ live w r = true /\
    timers w = [].

(** What a promise operation leaves alone. *)
Definition same_outside (w w' : world) : Prop :=
  registry w' = registry w /\ timers w' = timers w /\ clock w' = clock w /\
  engines w' = engines w /\ store_side w' = store_side w /\ arrays w' = arrays w.

(** The pair [r] has been used: its resolve function or its reject function
    was called. *)
Definition spent (r : resolver) (w : world) : Prop :=
  exists pr, heap w !! r.1 = Some pr /\ flags pr !! r.2 = Some true.

(** From [w] to [w'], the pairs that were used stay used. *)
Definition keeps (w w' : world) : Prop := forall r, spent r w -> spent r w'.


(** The worlds that come after [w]: any command may run, the microtask
    queue may run, time may pass and timers fire, calls of the store may
    complete. *)
Inductive later (w : world) : world -> Prop :=
| later_now : later w w
| later_exec p tgt w1 : later w w1 -> later w (exec p tgt w1)
| later_drain n w1 w2 : later w w1 -> drain n w1 = Some w2 -> later w w2
| later_advance n ms w1 w2 : later w w1 -> advance n ms w1 = Some w2 -> later w w2
| later_store_done n i o ds w1 w2 :
    later w w1 -> store_done n i o ds w1 = Some w2 -> later w w2
| later_run n p w1 w2 : later w w1 -> run n p w1 = Some w2 -> later w w2
| later_call n p w1 w2 q : later w w1 -> call n p w1 = Some (w2, q) -> later w w2.

(* ===================================================================== *)
(** ** Host code as a sequence of events *)
(* ===================================================================== *)

(** The public methods, called on engine 0. *)
Inductive request : Type :=
| RGet (key : string)
| RSet (key : string) (v : val) (t : num)
| RDel (key : string)
| RTtl (key : string) (t : num)
| RLoad
| RFlush
| RClose.

Definition body (r : request) : prog :=
  match r with
  | RGet key => NodePersist.get 0 key
  | RSet key v t => NodePersist.set 0 key v t
  | RDel key => NodePersist.del 0 key
  | RTtl key t => NodePersist.ttl 0 key t
  | RLoad => NodePersist.load 0
  | RFlush => NodePersist.flush 0
  | RClose => NodePersist.close 0
  end.

(** What can happen to a world: host code calls a method, the oldest
    microtask runs, or the [i]-th call in flight on the store completes. *)
Inductive event : Type :=
| Issue (r : request)
| Tick
| Answer (i : nat) (o : outcome) (ds : list datum).

(** [store_done] without the run of the microtask queue that follows. *)
Definition answered (i : nat) (o : outcome) (ds : list datum) (w : world) : world :=
  match inflight w !! i with
  | Some f =>
      let w1 := set_inflight (delete i (inflight w)) w in
      let w2 :=
        match f_visit f with
        | Some visit => visit_all visit ds w1
        | None => w1
        end in
      settle (f_promise f) o w2
  | None => w
  end.

Definition happen (w : world) (ev : event) : world :=
  match ev with
  | Issue r => let '(w1, p) := alloc Pending w in exec (body r) (Some p) w1
  | Tick =>
      match micro w with
      | j :: rest => run_job j (set_micro rest w)
      | [] => w
      end
  | Answer i o ds => answered i o ds w
  end.

Definition after (evs : list event) (w : world) : world := fold_left happen evs w.

(** The calls that go through the write queue, and those of them the store
    is working on. *)
Definition queue_call (c : store_call) : bool :=
  match c with
  | InitStore | ForEachItem => false
  | _ => true
  end.

Definition queued_flights (w : world) : list flight :=
  List.filter (fun f => queue_call (f_call f)) (inflight w).

(* ===================================================================== *)
(** ** The invariant of the write queue *)
(* ===================================================================== *)

(** The promises of the queue's calls in flight.  Only the store settles
    them; every other promise of the heap is [safe]. *)
Definition hpids (w : world) : list pid := map f_promise (queued_flights w).

Definition safe (n : nat) (F : list pid) (p : pid) : Prop := (p < n)%nat /\ ~ In p F.

Definition safe_in (w : world) : pid -> Prop := safe (length (heap w)) (hpids w).

(** Commands that reach the store through [Schedule] on engine 0 or
    directly as [load] does, that never tell the queue that a task is
    done, and that resolve promises satisfying [P] only: the bodies of the
    public methods and what is left of them after each [await]. *)
Inductive tame : (pid -> Prop) -> prog -> Prop :=
| tame_Ret P v : tame P (Ret v)
| tame_Throw P e : tame P (Throw e)
| tame_Await P v k : (forall x, tame P (k x)) -> tame P (Await v k)
| tame_CallAsync P body k :
    tame P body -> (forall r, tame P (k r)) -> tame P (CallAsync body k)
| tame_Resolve P r v k : P r.1 -> tame P k -> tame P (Resolve r v k)
| tame_Reject P r e k : P r.1 -> tame P k -> tame P (Reject r e k)
| tame_DateNow P k : (forall n, tame P (k n)) -> tame P (DateNow k)
| tame_DirGet P d k :
    (forall r, tame (fun p => P p \/ p = (unlock r).1) (k (Some r))) -> tame P (k None) ->
    tame P (DirGet d k)
| tame_DirDelete P d k : tame P k -> tame P (DirDelete d k)
| tame_This P this k : (forall me, tame P (k me)) -> tame P (This this k)
| tame_Schedule P c k :
    queue_call c = true -> (forall j, tame P (k j)) -> tame P (Schedule 0 c k)
| tame_Stop P k : (forall s, tame P (k s)) -> tame P (Stop 0 k)
| tame_StoreInit P this k : (forall t, tame P (k t)) -> tame P (StoreInit this k)
| tame_StoreForEach P this visit k :
    (forall x, tame P (visit x)) -> (forall t, tame P (k t)) ->
    tame P (StoreForEach this visit k)
| tame_NewArray P k : (forall a, tame P (k a)) -> tame P (NewArray k)
| tame_Push P a x k : tame P k -> tame P (Push a x k)
| tame_ReadArray P a k : (forall l, tame P (k l)) -> tame P (ReadArray a k).

Definition cap_ok (P : pid -> Prop) (c : option pid) : Prop :=
  match c with
  | Some q => P q
  | None => True
  end.

Definition tame_reaction (P : pid -> Prop) (rc : reaction) : Prop :=
  (forall v, tame P (r_ful rc v)) /\ (forall v, tame P (r_rej rc v)) /\ cap_ok P (r_cap rc).

(** The reaction [dispatch] puts on the promise of a store call: the queue
    is told that the task is done and the job promise [j] settles. *)
Definition handler (j : pid) : reaction :=
  {| r_ful := fun v => JobDone 0 (Resolve (j, 0) v (Ret VUndef));
     r_rej := fun e => JobDone 0 (Reject (j, 0) e (Ret VUndef));
     r_cap := None |}.

Inductive tame_job (P : pid -> Prop) : job -> Prop :=
| tame_JReact f arg cap : tame P (f arg) -> cap_ok P cap -> tame_job P (JReact f arg cap)
| tame_JThenable p q : P p -> tame_job P (JThenable p q).

Inductive handler_job (P : pid -> Prop) : job -> Prop :=
| handler_ful j v : P j -> handler_job P (JReact (r_ful (handler j)) v None)
| handler_rej j e : P j -> handler_job P (JReact (r_rej (handler j)) e None).

(** A microtask queue with [n] handler jobs; its other jobs are tame. *)
Inductive jobs_ok (P : pid -> Prop) : nat -> list job -> Prop :=
| jobs_nil : jobs_ok P 0 []
| jobs_tame j m n : tame_job P j -> jobs_ok P n m -> jobs_ok P n (j :: m)
| jobs_handler j m n : handler_job P j -> jobs_ok P n m -> jobs_ok P (S n) (j :: m).

(** The promise of a queue call in flight is pending and carries the
    handler first; the reactions of every other promise are tame. *)
Definition promise_ok (n : nat) (F : list pid) (p : pid) (pr : promise) : Prop :=
  (In p F ->
   st pr = Pending /\
   exists j rest, reacts pr = handler j :: rest /\ safe n F j /\
                  Forall (tame_reaction (safe n F)) rest) /\
  (~ In p F -> Forall (tame_reaction (safe n F)) (reacts pr)).

Definition limiter_ok (n : nat) (F : list pid) (l : limiter) : Prop :=
  maxConcurrent l = 1%nat /\
  Forall (fun cj => queue_call cj.1 = true /\ safe n F cj.2) (waiting l) /\
  Forall (fun r => safe n F r.1) (draining l).

(** The invariant.  [e] is 1 while a handler runs and has not yet told the
    queue, 0 otherwise: the queue calls in flight, the handler jobs waiting
    in the microtask queue and [e] add up to the tasks the queue counts as
    running, which never exceed 1. *)
Record inv (e : nat) (w : world) : Prop := {
  inv_limiter :
    exists l k, limiter_of 0 w = Some l /\ limiter_ok (length (heap w)) (hpids w) l /\
      jobs_ok (safe_in w) k (micro w) /\
      (length (queued_flights w) + k + e = running l)%nat /\ (running l <= 1)%nat;
  inv_heap : forall p pr, heap w !! p = Some pr -> promise_ok (length (heap w)) (hpids w) p pr;
  inv_flights : NoDup (map f_promise (inflight w)) /\
    forall f, In f (inflight w) ->
      (f_promise f < length (heap w))%nat /\
      (queue_call (f_call f) = true -> f_visit f = None) /\
      (forall visit, f_visit f = Some visit -> forall x, tame (safe_in w) (visit x));
  inv_registry : forall d r, registry w !! d = Some r -> safe_in w (unlock r).1
}.

(** From [w] to [w']: promises are added, and the queue calls in flight
    among the promises of [w] are the same. *)
Definition grows (w w' : world) : Prop :=
  (length (heap w) <= length (heap w'))%nat /\
  forall p, (p < length (heap w))%nat -> (In p (hpids w') <-> In p (hpids w)).

(** Nothing waits in the queue while the queue has a free slot. *)
Definition queue_settled (w : world) : Prop :=
  forall l, limiter_of 0 w = Some l -> waiting l <> [] -> running l = 1%nat.

(* ===================================================================== *)
(** ** Proof tools *)
(* ===================================================================== *)

Unset Implicit Arguments.

Lemma dir_get_set (d : string) (r : lockrec) (t : gmap string lockrec) :
  dir_get d (dir_set d r t) = Some r.
Proof. apply lookup_insert_eq. Qed.

Lemma dir_get_delete (d : string) (t : gmap string lockrec) :
  dir_get d (dir_delete d t) = None.
Proof. apply lookup_delete_eq. Qed.

Lemma dir_get_empty (d : string) : dir_get d ∅ = None.
Proof. apply lookup_empty. Qed.

Lemma dir_get_set_ne (d d' : string) (r : lockrec) (t : gmap string lockrec) :
  d ≠ d' -> dir_get d' (dir_set d r t) = dir_get d' t.
Proof. intros H. by apply lookup_insert_ne. Qed.

Lemma dir_get_delete_ne (d d' : string) (t : gmap string lockrec) :
  d ≠ d' -> dir_get d' (dir_delete d t) = dir_get d' t.
Proof. intros H. by apply lookup_delete_ne. Qed.

(** Evaluation by value up to the next test on symbolic data or the next
    run of the microtask queue; the lock table, the clock arithmetic and
    the cache stay folded. *)
Ltac whnf t :=
  eval cbv head beta iota zeta delta
    -[dir_get dir_set dir_delete Z.add Z.sub Z.leb Z.ltb Z.eqb String.append
      NodePersist.locked_message getTtl cache_get
      visit_all NodePersist.load_visitor loaded_rows] in t.

Ltac norm t :=
  eval cbv
    -[dir_get dir_set dir_delete Z.add Z.sub Z.leb Z.ltb Z.eqb String.append
      NodePersist.locked_message getTtl cache_get
      visit_all NodePersist.load_visitor loaded_rows] in t.

(** One test on the lock table, or on the clock, is settled. *)
Ltac fact :=
  match goal with
  | |- context [dir_get ?d (dir_set ?d _ _)] => rewrite dir_get_set
  | |- context [dir_get ?d (dir_delete ?d _)] => rewrite dir_get_delete
  | |- context [dir_get _ (dir_set _ _ _)] => rewrite dir_get_set_ne by congruence
  | |- context [dir_get _ (dir_delete _ _)] => rewrite dir_get_delete_ne by congruence
  | |- context [dir_get ?d ?t] => change (dir_get d t) with (@None lockrec)
  | |- context [Z.leb ?a ?b] =>
      first [ replace (Z.leb a b) with true by (symmetry; apply Z.leb_le; lia)
            | replace (Z.leb a b) with false by (symmetry; apply Z.leb_gt; lia) ]
  | |- context [Z.ltb ?a ?b] =>
      first [ replace (Z.ltb a b) with true by (symmetry; apply Z.ltb_lt; lia)
            | replace (Z.ltb a b) with false by (symmetry; apply Z.ltb_ge; lia) ]
  | |- context [Z.eqb ?a ?b] =>
      first [ replace (Z.eqb a b) with true by (symmetry; apply Z.eqb_eq; lia)
            | replace (Z.eqb a b) with false by (symmetry; apply Z.eqb_neq; lia) ]
  end.

(** Runs the left-hand side of the goal to a value; [tac] settles the
    tests that depend on the hypotheses, and fails when it has nothing to
    do. *)
Ltac ev_lhs tac :=
  lazymatch goal with
  | |- ?l = _ =>
      let l' := whnf l in
      change l with l';
      lazymatch l' with
      | Some _ => let l'' := norm l' in change l' with l''
      | None => idtac
      | _ => first [ fact | tac ]; ev_lhs tac
      end
  end.

Ltac runs tac := ev_lhs tac; reflexivity.

(** The left-hand side of the goal is a world, or a part of one: it is
    evaluated to its value. *)
Ltac value :=
  lazymatch goal with
  | |- ?l = _ => let l' := norm l in change l with l'; reflexivity
  end.

(** The same evaluation with the directory of the constructor folded. *)
Ltac whnf_dir t :=
  eval cbv head beta iota zeta delta
    -[dir_get dir_set dir_delete Z.add Z.sub Z.leb Z.ltb Z.eqb String.append
      NodePersist.locked_message getTtl cache_get
      visit_all NodePersist.load_visitor loaded_rows NodePersist.effective_directory] in t.

Ltac norm_dir t :=
  eval cbv
    -[dir_get dir_set dir_delete Z.add Z.sub Z.leb Z.ltb Z.eqb String.append
      NodePersist.locked_message getTtl cache_get
      visit_all NodePersist.load_visitor loaded_rows NodePersist.effective_directory] in t.

Ltac ev_lhs_dir tac :=
  lazymatch goal with
  | |- ?l = _ =>
      let l' := whnf_dir l in
      change l with l';
      lazymatch l' with
      | Some _ => let l'' := norm_dir l' in change l' with l''
      | None => idtac
      | _ => first [ fact | tac ]; ev_lhs_dir tac
      end
  end.

Ltac runs_dir tac := ev_lhs_dir tac; reflexivity.

(** The cases of an answer that is not a promise. *)
Ltac by_answer o H :=
  destruct o as [[]|];
  try (exfalso; eapply H; reflexivity).

(** [boot] succeeds and ends in [ready_world]. *)
Lemma boot_ready (d : string) (c : cache) (now : Z) :
  boot d c now = Some (ready_world d c now).
Proof. runs fail. Qed.

(* ===================================================================== *)
(** ** The directory lock *)
(* ===================================================================== *)

Lemma heap_length_settle (p : pid) (o : outcome) (w : world) :
  length (heap (settle p o w)) = length (heap w).
Proof.
  unfold settle. destruct (heap w !! p) as [pr|]; [|done].
  destruct (st pr); [|done..]. simpl. by rewrite length_insert.
Qed.

Lemma heap_length_set_flag (r : resolver) (w : world) :
  length (heap (set_flag r w)) = length (heap w).
Proof.
  unfold set_flag. destruct (heap w !! r.1); [|done]. simpl. by rewrite length_insert.
Qed.

Lemma heap_length_call_resolve (r : resolver) (v : val) (w : world) :
  length (heap (call_resolve r v w)) = length (heap w).
Proof.
  unfold call_resolve. destruct (flag_of r w); [done|].
  unfold resolve_with. destruct v; rewrite ?heap_length_settle, ?heap_length_set_flag; try done.
  destruct (r.1 =? p)%nat; simpl; rewrite ?heap_length_settle, ?heap_length_set_flag; done.
Qed.

(** [lockDirectory] hands [lock_promise w] to its caller. *)
Lemma lockDirectory_returns (d : string) (k : pid -> prog) (tgt : option pid) (w : world) :
  exists w', exec (NodePersist.lockDirectory d k) tgt w = exec (k (lock_promise w)) tgt w'.
Proof.
  unfold NodePersist.lockDirectory, lock_promise. cbn [exec alloc then_].
  destruct (dir_get d (registry (set_heap (heap w ++ [fresh Pending]) w))) as [r|];
    cbn [exec alloc then_].
  - eexists. f_equal. f_equal. rewrite heap_length_call_resolve. simpl.
    rewrite length_app. simpl. lia.
  - eexists. f_equal. f_equal. rewrite heap_length_call_resolve. simpl.
    rewrite length_app. simpl. lia.
Qed.

(** C8 (what the code does).  Host code asks for [d] twice in one turn,
    in a process that holds no directory; [p1] and [p2] are the promises the
    two calls return.  Both calls find the table without a record, since a
    record is stored by a microtask.  The first microtask stores [r1] and
    fulfils [p1]; the second stores [r2] over it and fulfils [p2]: both
    acquisitions have succeeded, and the two lock records made for the one
    directory are live at once.  A release of [d] resolves [r2] and removes
    it; [r1] is still live, and the table holds nothing that leads to it. *)
Theorem same_turn_acquisitions_both_hold (d : string) (now : Z) :
  exists w p1 p2 w1 w2 w3 r1 r2,
    (forall (k : pid -> pid -> prog) (tgt : option pid),
        exec (NodePersist.lockDirectory d
                (fun p1 => NodePersist.lockDirectory d (fun p2 => k p1 p2)))
          tgt (set_clock now w0) = exec (k p1 p2) tgt w) /\
    p1 <> p2 /\ dir_get d (registry w) = None /\
    happen w Tick = w1 /\
    state_of p1 w1 = Some (Fulfilled (VBool true)) /\
    dir_get d (registry w1) = Some r1 /\ live w1 r1 = true /\
    happen w1 Tick = w2 /\ micro w2 = [] /\
    state_of p2 w2 = Some (Fulfilled (VBool true)) /\
    dir_get d (registry w2) = Some r2 /\ lock r2 <> lock r1 /\
    live w2 r1 = true /\ live w2 r2 = true /\
    run fuel (release d) w2 = Some w3 /\
    dir_get d (registry w3) = None /\ live w3 r2 = false /\ live w3 r1 = true.
Proof.
  do 8 eexists.
  split.
  { intros k tgt. unfold NodePersist.lockDirectory.
    cbn -[dir_get dir_set]. rewrite dir_get_empty.
    cbn -[dir_get dir_set]. rewrite dir_get_empty.
    cbn -[dir_get dir_set].
    lazymatch goal with
    | |- exec _ _ ?x = _ => let x' := norm x in change x with x'
    end.
    reflexivity. }
  split; [cbv; lia|].
  split; [apply dir_get_empty|].
  split; [value|].
  split; [reflexivity|].
  split; [apply dir_get_set|].
  split; [reflexivity|].
  split; [value|].
  split; [reflexivity|].
  split; [reflexivity|].
  split; [apply dir_get_set|].
  split; [cbv; lia|].
  split; [reflexivity|].
  split; [reflexivity|].
  split; [runs fail|].
  split; [apply dir_get_delete|].
  split; reflexivity.
Qed.

(** C1 (what the code does).  A holder takes [d], a contender asks for it
    and the holder keeps it for [t >= 500] ms.  The timer fires, and the
    contender's promise is still pending: its [reject] comes after
    [resolve(lock)] on the same promise and is ignored.  When the holder
    releases after that, the contender's acquisition succeeds. *)
Theorem lockDirectory_timer_cannot_reject (d : string) (t : Z) :
  (500 <= t)%Z ->
  exists w1 w2 w3 w4 r,
    run fuel (acquire d) w0 = Some w1 /\
    run fuel (acquire d) w1 = Some w2 /\
    timers w2 = [(500%Z, Reject (3, 0) (NodePersist.locked_message d) (Ret VUndef))] /\
    state_of (lock_promise w1) w2 = Some Pending /\
    advance fuel t w2 = Some w3 /\
    timers w3 = [] /\
    state_of (lock_promise w1) w3 = Some Pending /\
    run fuel (release d) w3 = Some w4 /\
    state_of (lock_promise w1) w4 = Some (Fulfilled (VBool true)) /\
    dir_get d (registry w4) = Some r /\ live w4 r = true.
Proof.
  intros Ht. do 5 eexists.
  split; [runs fail|].
  split; [runs fail|].
  split; [reflexivity|].
  split; [reflexivity|].
  split; [runs fail|].
  split; [reflexivity|].
  split; [reflexivity|].
  split; [runs fail|].
  split; [reflexivity|].
  split; [apply dir_get_set|reflexivity].
Qed.

(** A run of [lockDirectory_timer_cannot_reject]: the holder releases after
    800 ms. *)
Lemma lockDirectory_timer_cannot_reject_witness :
  exists w1 w2 w3 w4 r,
    run fuel (acquire "cache") w0 = Some w1 /\
    run fuel (acquire "cache") w1 = Some w2 /\
    timers w2 = [(500%Z, Reject (3, 0) (NodePersist.locked_message "cache") (Ret VUndef))] /\
    state_of (lock_promise w1) w2 = Some Pending /\
    advance fuel 800 w2 = Some w3 /\
    timers w3 = [] /\
    state_of (lock_promise w1) w3 = Some Pending /\
    run fuel (release "cache") w3 = Some w4 /\
    state_of (lock_promise w1) w4 = Some (Fulfilled (VBool true)) /\
    dir_get "cache" (registry w4) = Some r /\ live w4 r = true.
Proof. apply (lockDirectory_timer_cannot_reject "cache" 800). lia. Defined.

(** C2.  A holder takes [d], a contender asks for it, and the holder
    releases after [t < 500] ms, the timer of the contender still pending.
    The contender's acquisition is fulfilled, and the lock table holds for
    [d] a new, live record: not the holder's, whose lock is resolved.  When
    the timer fires later, nothing changes. *)
Theorem lockDirectory_handoff (d : string) (t : Z) :
  (0 <= t < 500)%Z ->
  exists w1 w2 w3 w4 w5 held r,
    run fuel (acquire d) w0 = Some w1 /\
    dir_get d (registry w1) = Some held /\
    run fuel (acquire d) w1 = Some w2 /\
    state_of (lock_promise w1) w2 = Some Pending /\
    advance fuel t w2 = Some w3 /\
    map fst (timers w3) = [500%Z] /\
    run fuel (release d) w3 = Some w4 /\
    state_of (lock_promise w1) w4 = Some (Fulfilled (VBool true)) /\
    dir_get d (registry w4) = Some r /\
    lock r <> lock held /\ live w4 r = true /\ live w4 held = false /\
    advance fuel (500 - t) w4 = Some w5 /\
    timers w5 = [] /\
    state_of (lock_promise w1) w5 = Some (Fulfilled (VBool true)) /\
    dir_get d (registry w5) = Some r /\ live w5 r = true.
Proof.
  intros Ht. do 7 eexists.
  split; [runs fail|].
  split; [apply dir_get_set|].
  split; [runs fail|].
  split; [reflexivity|].
  split; [runs fail|].
  split; [reflexivity|].
  split; [runs fail|].
  split; [reflexivity|].
  split; [apply dir_get_set|].
  split; [cbv; lia|].
  split; [reflexivity|].
  split; [reflexivity|].
  split; [runs fail|].
  split; [reflexivity|].
  split; [reflexivity|].
  split; [apply dir_get_set|reflexivity].
Qed.

(** A run of [lockDirectory_handoff]: the holder releases after 100 ms. *)
Lemma lockDirectory_handoff_witness :
  exists w1 w2 w3 w4 w5 held r,
    run fuel (acquire "cache") w0 = Some w1 /\
    dir_get "cache" (registry w1) = Some held /\
    run fuel (acquire "cache") w1 = Some w2 /\
    state_of (lock_promise w1) w2 = Some Pending /\
    advance fuel 100 w2 = Some w3 /\
    map fst (timers w3) = [500%Z] /\
    run fuel (release "cache") w3 = Some w4 /\
    state_of (lock_promise w1) w4 = Some (Fulfilled (VBool true)) /\
    dir_get "cache" (registry w4) = Some r /\
    lock r <> lock held /\ live w4 r = true /\ live w4 held = false /\
    advance fuel (500 - 100) w4 = Some w5 /\
    timers w5 = [] /\
    state_of (lock_promise w1) w5 = Some (Fulfilled (VBool true)) /\
    dir_get "cache" (registry w5) = Some r /\ live w5 r = true.
Proof. apply (lockDirectory_handoff "cache" 100). lia. Defined.

(** Two instances constructed for the same directory in one synchronous
    block: the second finds no record yet, because the first registers its
    record in a microtask; both become ready, and the lock table keeps the
    record of the second only. *)
Lemma simultaneous_constructions_both_ready (d : string) (c : cache) (now : Z) :
  exists w r,
    run fuel
      (NodePersist.constructor (opts_for d) c
         (fun _ => NodePersist.constructor (opts_for d) c (fun _ => Ret VUndef)))
      (set_clock now w0) = Some w /\
    ready_state 0 w = Some (Fulfilled VUndef) /\
    ready_state 1 w = Some (Fulfilled VUndef) /\
    timers w = [] /\
    dir_get d (registry w) = Some r /\ live w r = true.
Proof.
  do 2 eexists.
  split; [runs fail|].
  split; [reflexivity|].
  split; [reflexivity|].
  split; [reflexivity|].
  split; [apply dir_get_set|reflexivity].
Qed.

(** The same at the level of instances.  While engine 0 holds [d], a second
    instance is constructed for [d]: after [t >= 500] ms it has not failed,
    its [#ready] is pending and so is an operation issued on it; it becomes
    ready when engine 0 is closed. *)
Lemma second_instance_never_fails (d : string) (c : cache) (now t : Z) (key : string) :
  (500 <= t)%Z ->
  exists w w1 w2 w3 p w4 q,
    boot d c now = Some w /\
    run fuel (NodePersist.constructor (opts_for d) c (fun _ => Ret VUndef)) w = Some w1 /\
    ready_state 1 w1 = Some Pending /\
    advance fuel t w1 = Some w2 /\
    timers w2 = [] /\ ready_state 1 w2 = Some Pending /\
    call fuel (NodePersist.get 1 key) w2 = Some (w3, p) /\
    state_of p w3 = Some Pending /\
    call fuel (NodePersist.close 0) w3 = Some (w4, q) /\
    state_of q w4 = Some (Fulfilled (VBool true)) /\
    ready_state 1 w4 = Some (Fulfilled VUndef) /\
    in_flight w4 = [GetItem key].
Proof.
  intros Ht. do 7 eexists.
  split; [apply boot_ready|].
  split; [runs fail|].
  split; [reflexivity|].
  split; [runs fail|].
  split; [reflexivity|].
  split; [reflexivity|].
  split; [runs fail|].
  split; [reflexivity|].
  split; [runs fail|].
  repeat split; reflexivity.
Qed.

(** A run of [second_instance_never_fails]: 800 ms of waiting. *)
Lemma second_instance_never_fails_witness :
  exists w w1 w2 w3 p w4 q,
    boot "cache" no_cache 0 = Some w /\
    run fuel (NodePersist.constructor (opts_for "cache") no_cache (fun _ => Ret VUndef)) w
      = Some w1 /\
    ready_state 1 w1 = Some Pending /\
    advance fuel 800 w1 = Some w2 /\
    timers w2 = [] /\ ready_state 1 w2 = Some Pending /\
    call fuel (NodePersist.get 1 "a") w2 = Some (w3, p) /\
    state_of p w3 = Some Pending /\
    call fuel (NodePersist.close 0) w3 = Some (w4, q) /\
    state_of q w4 = Some (Fulfilled (VBool true)) /\
    ready_state 1 w4 = Some (Fulfilled VUndef) /\
    in_flight w4 = [GetItem "a"].
Proof. apply (second_instance_never_fails "cache" no_cache 0 800 "a"). lia. Defined.

(** Engine 0 is closed while a second instance waits for its directory,
    [t < 500] ms after it asked: the second instance becomes ready and its
    writes reach the store. *)
Lemma close_hands_directory_over (d : string) (c : cache) (now t : Z) (key x : string) :
  (0 <= t < 500)%Z ->
  exists w w1 w2 w3 q w4 p r,
    boot d c now = Some w /\
    run fuel (NodePersist.constructor (opts_for d) c (fun _ => Ret VUndef)) w = Some w1 /\
    ready_state 1 w1 = Some Pending /\
    advance fuel t w1 = Some w2 /\
    call fuel (NodePersist.close 0) w2 = Some (w3, q) /\
    state_of q w3 = Some (Fulfilled (VBool true)) /\
    ready_state 1 w3 = Some (Fulfilled VUndef) /\
    dir_get d (registry w3) = Some r /\ live w3 r = true /\
    call fuel (NodePersist.set 1 key (VData x) (Some 5000%Z)) w3 = Some (w4, p) /\
    store_log w4 = [(1%nat, UpdateItem key (VData x) (Some 5000%Z))].
Proof.
  intros Ht. do 8 eexists.
  split; [apply boot_ready|].
  split; [runs fail|].
  split; [reflexivity|].
  split; [runs fail|].
  split; [runs fail|].
  split; [reflexivity|].
  split; [reflexivity|].
  split; [apply dir_get_set|].
  split; [reflexivity|].
  split; [runs fail|reflexivity].
Qed.

(** A run of [close_hands_directory_over]: engine 0 is closed after
    100 ms. *)
Lemma close_hands_directory_over_witness :
  exists w w1 w2 w3 q w4 p r,
    boot "cache" no_cache 0 = Some w /\
    run fuel (NodePersist.constructor (opts_for "cache") no_cache (fun _ => Ret VUndef)) w
      = Some w1 /\
    ready_state 1 w1 = Some Pending /\
    advance fuel 100 w1 = Some w2 /\
    call fuel (NodePersist.close 0) w2 = Some (w3, q) /\
    state_of q w3 = Some (Fulfilled (VBool true)) /\
    ready_state 1 w3 = Some (Fulfilled VUndef) /\
    dir_get "cache" (registry w3) = Some r /\ live w3 r = true /\
    call fuel (NodePersist.set 1 "a" (VData "1") (Some 5000%Z)) w3 = Some (w4, p) /\
    store_log w4 = [(1%nat, UpdateItem "a" (VData "1") (Some 5000%Z))].
Proof. apply (close_hands_directory_over "cache" no_cache 0 100 "a" "1"). lia. Defined.

(* ===================================================================== *)
(** ** Construction failure and close *)
(* ===================================================================== *)

(** C5.  The constructor is run over an acquisition that fails with [e].
    The seven public operations issued before the failure are pending; when
    the acquisition rejects, [#ready] is rejected with [e] and so is each of
    them; the seven operations issued afterwards are rejected with [e] as
    well, and the underlying store has received no call. *)
Theorem failed_construction_rejects_all (e : val) (d : string) (c : cache) (now : Z)
    (key : string) (v : val) (t : num) :
  exists w1 w2 ps w3 w4 qs,
    boot_failing e d c now = Some w1 /\
    ready_state 0 w1 = Some Pending /\
    call_all (public_ops 0 key v t) w1 = Some (w2, ps) /\
    length ps = 7%nat /\
    Forall (fun p => state_of p w2 = Some Pending) ps /\
    advance fuel 500 w2 = Some w3 /\
    ready_state 0 w3 = Some (Rejected e) /\
    Forall (fun p => state_of p w3 = Some (Rejected e)) ps /\
    call_all (public_ops 0 key v t) w3 = Some (w4, qs) /\
    length qs = 7%nat /\
    Forall (fun q => state_of q w4 = Some (Rejected e)) qs /\
    store_log w4 = [].
Proof.
  do 6 eexists.
  split; [runs fail|].
  split; [reflexivity|].
  split; [runs fail|].
  split; [reflexivity|].
  split; [repeat constructor|].
  split; [runs fail|].
  split; [reflexivity|].
  split; [repeat constructor|].
  split; [runs fail|].
  split; [reflexivity|].
  split; [repeat constructor|reflexivity].
Qed.

Lemma store_side_settle (p : pid) (o : outcome) (w : world) :
  store_side (settle p o w) = store_side w.
Proof.
  unfold settle. destruct (heap w !! p) as [pr|]; [|done]. by destruct (st pr).
Qed.

Lemma store_side_set_flag (r : resolver) (w : world) :
  store_side (set_flag r w) = store_side w.
Proof. unfold set_flag. by destruct (heap w !! r.1). Qed.

Lemma store_side_enqueue (j : job) (w : world) :
  store_side (enqueue j w) = store_side w.
Proof. done. Qed.

Lemma store_side_call_resolve (r : resolver) (v : val) (w : world) :
  store_side (call_resolve r v w) = store_side w.
Proof.
  unfold call_resolve. destruct (flag_of r w); [done|].
  unfold resolve_with.
  destruct v; try (rewrite store_side_settle; apply store_side_set_flag).
  destruct (r.1 =? p)%nat; [rewrite store_side_settle|rewrite store_side_enqueue];
    apply store_side_set_flag.
Qed.

Lemma store_side_call_reject (r : resolver) (e : val) (w : world) :
  store_side (call_reject r e w) = store_side w.
Proof.
  unfold call_reject. destruct (flag_of r w); [done|].
  by rewrite store_side_settle, store_side_set_flag.
Qed.

Lemma store_side_finish (tgt : option pid) (o : outcome) (w : world) :
  store_side (finish tgt o w) = store_side w.
Proof.
  destruct tgt as [t|]; [|done]. destruct o; simpl.
  - apply store_side_call_resolve.
  - apply store_side_call_reject.
Qed.

Lemma store_side_perform_then (p : pid) (rc : reaction) (w : world) :
  store_side (perform_then p rc w) = store_side w.
Proof.
  unfold perform_then. destruct (heap w !! p) as [pr|]; [|done]. by destruct (st pr).
Qed.

Lemma store_side_await_on (v : val) (k : val -> prog) (tgt : option pid) (w : world) :
  store_side (await_on v k tgt w) = store_side w.
Proof. unfold await_on. destruct v; simpl; by rewrite store_side_perform_then. Qed.

Lemma store_side_update_engine (this : nat) (f : engine -> engine) (w : world) :
  store_side (update_engine this f w) = store_side w.
Proof. unfold update_engine. by destruct (engines w !! this). Qed.

Lemma store_side_stop (l : limiter) (this : nat) (w : world) :
  store_side (stop l this w).1 = store_side w.
Proof.
  unfold stop.
  destruct (stopped l), (restop w), (idle l); simpl;
    rewrite ?store_side_update_engine; try done;
    match goal with
    | |- context [update_engine ?t ?f ?x] =>
        change (store_side (update_engine t f x) = store_side w);
        by rewrite store_side_update_engine
    end.
Qed.

Ltac quiet_steps :=
  repeat match goal with
  | H : forall x tgt w, store_side (exec (?k x) tgt w) = store_side w
    |- context [exec (?k ?a) ?t ?u] => rewrite (H a t u)
  | H : forall tgt w, store_side (exec ?k tgt w) = store_side w
    |- context [exec ?k ?t ?u] => rewrite (H t u)
  end.

(** A quiet command leaves the underlying store alone. *)
Lemma quiet_exec (p : prog) :
  quiet p -> forall (tgt : option pid) (w : world), store_side (exec p tgt w) = store_side w.
Proof.
  induction 1; intros tgt w; cbn [exec alloc then_ fst snd]; quiet_steps;
    rewrite ?store_side_finish, ?store_side_await_on, ?store_side_call_resolve,
      ?store_side_call_reject, ?store_side_perform_then, ?store_side_update_engine;
    try done.
  - destruct (engines w !! this); quiet_steps; rewrite ?store_side_finish; done.
  - destruct (limiter_of this w) as [l|]; [|apply store_side_finish].
    pose proof (store_side_stop l this w) as Hs.
    destruct (stop l this w) as [w1 s]. quiet_steps. exact Hs.
Qed.

Lemma quiet_close (this : nat) : quiet (NodePersist.close this).
Proof.
  unfold NodePersist.close, NodePersist.await_ready, NodePersist.unlockDirectory.
  repeat (constructor; intros).
  destruct r; repeat (constructor; intros).
Qed.

(** C6 (what the code does).  No step of [close] calls the underlying
    store or hands work to the write queue: stored data is never cleared.
    But a second [close] is not a safe repetition of the first.  Engine 0
    is ready on [d] and is closed; a new instance takes [d] and is ready;
    engine 0 is closed a second time.  [rs] is what the write queue answers
    to a repeated [stop].  Where it rejects with [e], the second [close] is
    rejected with [e].  Where it fulfils, the second [close] is fulfilled
    with [true] after it has resolved and removed the record of the new
    instance, which is still ready with its queue open. *)
Theorem second_close_is_not_safe (d : string) (c c' : cache) (now : Z) (rs : option val) :
  (forall this : nat, quiet (NodePersist.close this)) /\
  exists w w1 p w2 held w3 q,
    boot d c now = Some w /\
    call fuel (NodePersist.close 0) (set_restop rs w) = Some (w1, p) /\
    state_of p w1 = Some (Fulfilled (VBool true)) /\
    dir_get d (registry w1) = None /\
    run fuel (NodePersist.constructor (opts_for d) c' (fun _ => Ret VUndef)) w1 = Some w2 /\
    ready_state 1 w2 = Some (Fulfilled VUndef) /\
    dir_get d (registry w2) = Some held /\ live w2 held = true /\
    call fuel (NodePersist.close 0) w2 = Some (w3, q) /\
    ready_state 1 w3 = Some (Fulfilled VUndef) /\
    stopped <$> limiter_of 1 w3 = Some false /\
    store_side w3 = ([], []) /\
    match rs with
    | Some e =>
        state_of q w3 = Some (Rejected e) /\
        dir_get d (registry w3) = Some held /\ live w3 held = true
    | None =>
        state_of q w3 = Some (Fulfilled (VBool true)) /\
        dir_get d (registry w3) = None /\ live w3 held = false
    end.
Proof.
  split; [exact quiet_close|].
  destruct rs as [e|]; do 7 eexists;
  (split; [apply boot_ready|]);
  (split; [runs fail|]);
  (split; [reflexivity|]);
  (split; [apply dir_get_delete|]);
  (split; [runs fail|]);
  (split; [reflexivity|]);
  (split; [apply dir_get_set|]);
  (split; [reflexivity|]);
  (split; [runs fail|]);
  (split; [reflexivity|]);
  (split; [reflexivity|]);
  (split; [reflexivity|]).
  - split; [reflexivity|]. split; [apply dir_get_set|reflexivity].
  - split; [reflexivity|]. split; [apply dir_get_delete|reflexivity].
Qed.

(* ===================================================================== *)
(** ** set, ttl and the order of writes *)
(* ===================================================================== *)

(** C10.  On a ready engine, [set(key, value)] without [ttl], when the
    cache reports for [key] an expiration [e] that is truthy and earlier
    than the current time: the underlying store receives [removeItem(key)]
    and nothing else, and once that call completes the promise of [set] is
    fulfilled with [undefined]. *)
Theorem set_expired_deletes (d : string) (c : cache) (now : Z) (key x y : string) (e : Z) :
  getTtl c key = Some e -> e <> 0%Z -> (e < now)%Z ->
  exists w w1 p w2,
    boot d c now = Some w /\
    call fuel (NodePersist.set 0 key (VData x) None) w = Some (w1, p) /\
    store_log w1 = [(0%nat, RemoveItem key)] /\
    in_flight w1 = [RemoveItem key] /\ queued 0 w1 = [] /\
    state_of p w1 = Some Pending /\
    store_done fuel 0 (inl (VData y)) [] w1 = Some w2 /\
    store_log w2 = [(0%nat, RemoveItem key)] /\
    in_flight w2 = [] /\ queued 0 w2 = [] /\
    state_of p w2 = Some (Fulfilled VUndef).
Proof.
  intros Hg He Hlt. do 4 eexists.
  split; [apply boot_ready|].
  split; [runs ltac:(rewrite Hg)|].
  split; [reflexivity|].
  split; [reflexivity|].
  split; [reflexivity|].
  split; [reflexivity|].
  split; [runs fail|].
  repeat split; reflexivity.
Qed.

(** A run of [set_expired_deletes]: the expiration 1000 is asked for at
    time 2000. *)
Lemma set_expired_deletes_witness :
  exists w w1 p w2,
    boot "cache" (expiring_at 1000) 2000 = Some w /\
    call fuel (NodePersist.set 0 "a" (VData "1") None) w = Some (w1, p) /\
    store_log w1 = [(0%nat, RemoveItem "a")] /\
    in_flight w1 = [RemoveItem "a"] /\ queued 0 w1 = [] /\
    state_of p w1 = Some Pending /\
    store_done fuel 0 (inl (VData "removed")) [] w1 = Some w2 /\
    store_log w2 = [(0%nat, RemoveItem "a")] /\
    in_flight w2 = [] /\ queued 0 w2 = [] /\
    state_of p w2 = Some (Fulfilled VUndef).
Proof.
  apply (set_expired_deletes "cache" (expiring_at 1000) 2000 "a" "1" "removed" 1000);
    [reflexivity | lia | lia].
Defined.

(** C4 (as amended).  On a ready engine, [set(key, value)] without [ttl]
    reads the expiration of [key] from the cache.  When the cache has none
    ([undefined], or 0), the upsert is handed to the store with that as its
    [ttl]; when the expiration [e] is not earlier than the current time, the
    upsert is handed over with the time that is left, [e - now], as its
    [ttl].  In both cases no other call reaches the store, and once the
    upsert completes the promise of [set] is fulfilled with the value. *)
Theorem set_without_ttl (d : string) (c : cache) (now : Z) (key x y : string) :
  (truthy (getTtl c key) = false ->
   exists w w1 p w2,
     boot d c now = Some w /\
     call fuel (NodePersist.set 0 key (VData x) None) w = Some (w1, p) /\
     store_log w1 = [(0%nat, UpdateItem key (VData x) (getTtl c key))] /\
     state_of p w1 = Some Pending /\
     store_done fuel 0 (inl (VData y)) [] w1 = Some w2 /\
     store_log w2 = store_log w1 /\ in_flight w2 = [] /\ queued 0 w2 = [] /\
     state_of p w2 = Some (Fulfilled (VData x))) /\
  (forall e : Z,
   getTtl c key = Some e -> e <> 0%Z -> (now <= e)%Z ->
   exists w w1 p w2,
     boot d c now = Some w /\
     call fuel (NodePersist.set 0 key (VData x) None) w = Some (w1, p) /\
     store_log w1 = [(0%nat, UpdateItem key (VData x) (Some (e - now)%Z))] /\
     state_of p w1 = Some Pending /\
     store_done fuel 0 (inl (VData y)) [] w1 = Some w2 /\
     store_log w2 = store_log w1 /\ in_flight w2 = [] /\ queued 0 w2 = [] /\
     state_of p w2 = Some (Fulfilled (VData x))).
Proof.
  split.
  - intros Hf. destruct (getTtl c key) as [e|] eqn:Hg.
    + assert (e = 0%Z) as ->.
      { simpl in Hf. apply negb_false_iff in Hf. by apply Z.eqb_eq. }
      do 4 eexists.
      split; [apply boot_ready|].
      split; [runs ltac:(rewrite Hg)|].
      split; [reflexivity|].
      split; [reflexivity|].
      split; [runs fail|].
      repeat split; reflexivity.
    + do 4 eexists.
      split; [apply boot_ready|].
      split; [runs ltac:(rewrite Hg)|].
      split; [reflexivity|].
      split; [reflexivity|].
      split; [runs fail|].
      repeat split; reflexivity.
  - intros e Hg He Hle. do 4 eexists.
    split; [apply boot_ready|].
    split; [runs ltac:(rewrite Hg)|].
    split; [reflexivity|].
    split; [reflexivity|].
    split; [runs fail|].
    repeat split; reflexivity.
Qed.

(** Runs of [set_without_ttl]: a key without expiration, and a key that
    expires at 5000 written at time 2000. *)
Lemma set_without_ttl_witness :
  (exists w w1 p w2,
     boot "cache" no_cache 2000 = Some w /\
     call fuel (NodePersist.set 0 "a" (VData "1") None) w = Some (w1, p) /\
     store_log w1 = [(0%nat, UpdateItem "a" (VData "1") (getTtl no_cache "a"))] /\
     state_of p w1 = Some Pending /\
     store_done fuel 0 (inl (VData "ok")) [] w1 = Some w2 /\
     store_log w2 = store_log w1 /\ in_flight w2 = [] /\ queued 0 w2 = [] /\
     state_of p w2 = Some (Fulfilled (VData "1"))) /\
  (exists w w1 p w2,
     boot "cache" (expiring_at 5000) 2000 = Some w /\
     call fuel (NodePersist.set 0 "a" (VData "1") None) w = Some (w1, p) /\
     store_log w1 = [(0%nat, UpdateItem "a" (VData "1") (Some (5000 - 2000)%Z))] /\
     state_of p w1 = Some Pending /\
     store_done fuel 0 (inl (VData "ok")) [] w1 = Some w2 /\
     store_log w2 = store_log w1 /\ in_flight w2 = [] /\ queued 0 w2 = [] /\
     state_of p w2 = Some (Fulfilled (VData "1"))).
Proof.
  split.
  - apply (proj1 (set_without_ttl "cache" no_cache 2000 "a" "1" "ok")). reflexivity.
  - apply (proj2 (set_without_ttl "cache" (expiring_at 5000) 2000 "a" "1" "ok") 5000%Z);
      [reflexivity | lia | lia].
Defined.

(** C4 (as stated) fails.  The cache reports the expiration 1000 at time
    2000: [set("a", "1")] hands no upsert to the store, which receives
    [removeItem("a")], and its promise is fulfilled with [undefined], not
    with the value. *)
Lemma set_without_ttl_may_delete :
  exists w w1 p w2,
    boot "cache" (expiring_at 1000) 2000 = Some w /\
    call fuel (NodePersist.set 0 "a" (VData "1") None) w = Some (w1, p) /\
    store_done fuel 0 (inl (VData "removed")) [] w1 = Some w2 /\
    store_log w2 = [(0%nat, RemoveItem "a")] /\
    in_flight w2 = [] /\ queued 0 w2 = [] /\
    state_of p w2 = Some (Fulfilled VUndef) /\
    state_of p w2 <> Some (Fulfilled (VData "1")).
Proof.
  do 4 eexists.
  split; [apply boot_ready|].
  split; [runs ltac:(progress cbn [getTtl expiring_at])|].
  split; [runs fail|].
  repeat split; try reflexivity. discriminate.
Qed.

(** C7.  On a ready engine, [ttl(key, newTtl)] asks the cache for the
    value of [key].  When the cache has none, the promise of [ttl] is
    fulfilled with [undefined]; nothing was handed to the write queue or to
    the store.  When the cache has the value [x], the store is sent exactly
    the calls [set(key, x, newTtl)] sends it, and whatever the store
    answers, the promise of [ttl] ends as the promise of that [set]
    does. *)
Theorem ttl_noop_or_full_set (d : string) (c : cache) (now : Z) (key : string)
    (newTtl : num) (r : string + val) :
  (cache_get c key = VUndef ->
   exists w w1 p,
     boot d c now = Some w /\
     call fuel (NodePersist.ttl 0 key newTtl) w = Some (w1, p) /\
     state_of p w1 = Some (Fulfilled VUndef) /\
     store_side w1 = ([], []) /\ engines w1 = engines w) /\
  (forall x : string,
   cache_get c key = VData x ->
   exists w w1 p w2 q w1' w2',
     boot d c now = Some w /\
     call fuel (NodePersist.ttl 0 key newTtl) w = Some (w1, p) /\
     call fuel (NodePersist.set 0 key (VData x) newTtl) w = Some (w2, q) /\
     store_log w1 = store_log w2 /\ length (store_log w1) = 1%nat /\
     in_flight w1 = in_flight w2 /\ queued 0 w1 = queued 0 w2 /\
     state_of p w1 = Some Pending /\ state_of q w2 = Some Pending /\
     store_done fuel 0 (answer r) [] w1 = Some w1' /\
     store_done fuel 0 (answer r) [] w2 = Some w2' /\
     store_log w1' = store_log w2' /\ in_flight w1' = [] /\ in_flight w2' = [] /\
     state_of p w1' = state_of q w2' /\ state_of p w1' <> Some Pending).
Proof.
  split.
  - intros Hv. do 3 eexists.
    split; [apply boot_ready|].
    split; [runs ltac:(rewrite Hv)|].
    repeat split; reflexivity.
  - intros x Hv.
    assert (Hcases :
      (exists t, newTtl = Some t) \/
      (newTtl = None /\ getTtl c key = None) \/
      (newTtl = None /\ getTtl c key = Some 0%Z) \/
      (newTtl = None /\ exists e, getTtl c key = Some e /\ e <> 0%Z /\ (e - now < 0)%Z) \/
      (newTtl = None /\ exists e, getTtl c key = Some e /\ e <> 0%Z /\ (0 <= e - now)%Z)).
    { destruct newTtl as [t|]; [left; eauto|right].
      destruct (getTtl c key) as [e|]; [|left; done]. right.
      destruct (Z.eq_dec e 0%Z) as [->|He]; [left; done|right].
      destruct (Z.lt_ge_cases (e - now)%Z 0%Z); [left|right]; eauto. }
    destruct Hcases as [[t ->]|[[-> Hg]|[[-> Hg]|[[-> (e & Hg & He & Hlt)]|[-> (e & Hg & He & Hge)]]]]];
      destruct r as [y|err]; do 7 eexists;
      (split; [apply boot_ready|]);
      (split; [runs ltac:(first [rewrite Hv | rewrite Hg])|]);
      (split; [runs ltac:(first [rewrite Hv | rewrite Hg])|]);
      (split; [reflexivity|]);
      (split; [reflexivity|]);
      (split; [reflexivity|]);
      (split; [reflexivity|]);
      (split; [reflexivity|]);
      (split; [reflexivity|]);
      (split; [runs fail|]);
      (split; [runs fail|]);
      repeat split; try reflexivity; discriminate.
Qed.

(** Runs of [ttl_noop_or_full_set]: a key the cache does not have, and a
    key it holds, given the TTL 5000. *)
Lemma ttl_noop_or_full_set_witness :
  (exists w w1 p,
     boot "cache" no_cache 2000 = Some w /\
     call fuel (NodePersist.ttl 0 "a" (Some 5000%Z)) w = Some (w1, p) /\
     state_of p w1 = Some (Fulfilled VUndef) /\
     store_side w1 = ([], []) /\ engines w1 = engines w) /\
  (exists w w1 p w2 q w1' w2',
     boot "cache" (holding "1" None) 2000 = Some w /\
     call fuel (NodePersist.ttl 0 "a" (Some 5000%Z)) w = Some (w1, p) /\
     call fuel (NodePersist.set 0 "a" (VData "1") (Some 5000%Z)) w = Some (w2, q) /\
     store_log w1 = store_log w2 /\ length (store_log w1) = 1%nat /\
     in_flight w1 = in_flight w2 /\ queued 0 w1 = queued 0 w2 /\
     state_of p w1 = Some Pending /\ state_of q w2 = Some Pending /\
     store_done fuel 0 (answer (inl "ok")) [] w1 = Some w1' /\
     store_done fuel 0 (answer (inl "ok")) [] w2 = Some w2' /\
     store_log w1' = store_log w2' /\ in_flight w1' = [] /\ in_flight w2' = [] /\
     state_of p w1' = state_of q w2' /\ state_of p w1' <> Some Pending).
Proof.
  split.
  - apply (proj1 (ttl_noop_or_full_set "cache" no_cache 2000 "a" (Some 5000%Z) (inl "ok"))).
    reflexivity.
  - apply (proj2 (ttl_noop_or_full_set "cache" (holding "1" None) 2000 "a" (Some 5000%Z)
                    (inl "ok")) "1").
    reflexivity.
Defined.

(** [get], [del] and [set] with a [ttl], issued in one synchronous block on
    a ready engine: the store receives their calls one at a time, in the
    order of the program. *)
Lemma direct_operations_keep_order (d : string) (c : cache) (now : Z)
    (k1 k2 k3 x y : string) (t : Z) :
  exists w w1 w2 w3 w4,
    boot d c now = Some w /\
    run fuel (together [NodePersist.set 0 k1 (VData x) (Some t); NodePersist.del 0 k2;
                        NodePersist.get 0 k3]) w = Some w1 /\
    in_flight w1 = [UpdateItem k1 (VData x) (Some t)] /\
    queued 0 w1 = [RemoveItem k2; GetItem k3] /\
    store_done fuel 0 (inl (VData y)) [] w1 = Some w2 /\
    in_flight w2 = [RemoveItem k2] /\ queued 0 w2 = [GetItem k3] /\
    store_done fuel 0 (inl (VData y)) [] w2 = Some w3 /\
    in_flight w3 = [GetItem k3] /\ queued 0 w3 = [] /\
    store_done fuel 0 (inl (VData y)) [] w3 = Some w4 /\
    in_flight w4 = [] /\ queued 0 w4 = [] /\
    store_log w4 = [(0%nat, UpdateItem k1 (VData x) (Some t)); (0%nat, RemoveItem k2);
                    (0%nat, GetItem k3)].
Proof.
  do 5 eexists.
  split; [apply boot_ready|].
  split; [runs fail|].
  split; [reflexivity|].
  split; [reflexivity|].
  split; [runs fail|].
  split; [reflexivity|].
  split; [reflexivity|].
  split; [runs fail|].
  split; [reflexivity|].
  split; [reflexivity|].
  split; [runs fail|].
  repeat split; reflexivity.
Qed.

(** C9 (what the code does).  The cache reports for [key] an expiration
    that is already past.  Host code issues [set(key, x1)] and then
    [set(key, x2, t2)], in that order.  The first [set] turns into a delete
    that waits once more for [#ready], so the upsert of the second [set]
    reaches the write queue first: the store applies [updateItem] and then
    [removeItem], the reverse of the program order.  The two calls are never
    in flight together. *)
Theorem expired_set_is_overtaken (d : string) (c : cache) (now : Z)
    (key x1 x2 y : string) (t2 e : Z) :
  getTtl c key = Some e -> e <> 0%Z -> (e < now)%Z ->
  exists w w1 w2 w3,
    boot d c now = Some w /\
    run fuel (together [NodePersist.set 0 key (VData x1) None;
                        NodePersist.set 0 key (VData x2) (Some t2)]) w = Some w1 /\
    in_flight w1 = [UpdateItem key (VData x2) (Some t2)] /\
    queued 0 w1 = [RemoveItem key] /\
    store_done fuel 0 (inl (VData y)) [] w1 = Some w2 /\
    in_flight w2 = [RemoveItem key] /\ queued 0 w2 = [] /\
    store_done fuel 0 (inl (VData y)) [] w2 = Some w3 /\
    in_flight w3 = [] /\ queued 0 w3 = [] /\
    store_log w3 = [(0%nat, UpdateItem key (VData x2) (Some t2)); (0%nat, RemoveItem key)].
Proof.
  intros Hg He Hlt. do 4 eexists.
  split; [apply boot_ready|].
  split; [runs ltac:(rewrite Hg)|].
  split; [reflexivity|].
  split; [reflexivity|].
  split; [runs fail|].
  split; [reflexivity|].
  split; [reflexivity|].
  split; [runs fail|].
  repeat split; reflexivity.
Qed.

(** A run of [expired_set_is_overtaken]: the expiration 1000 at time 2000. *)
Lemma expired_set_is_overtaken_witness :
  exists w w1 w2 w3,
    boot "cache" (expiring_at 1000) 2000 = Some w /\
    run fuel (together [NodePersist.set 0 "a" (VData "1") None;
                        NodePersist.set 0 "a" (VData "2") (Some 5000%Z)]) w = Some w1 /\
    in_flight w1 = [UpdateItem "a" (VData "2") (Some 5000%Z)] /\
    queued 0 w1 = [RemoveItem "a"] /\
    store_done fuel 0 (inl (VData "ok")) [] w1 = Some w2 /\
    in_flight w2 = [RemoveItem "a"] /\ queued 0 w2 = [] /\
    store_done fuel 0 (inl (VData "ok")) [] w2 = Some w3 /\
    in_flight w3 = [] /\ queued 0 w3 = [] /\
    store_log w3 = [(0%nat, UpdateItem "a" (VData "2") (Some 5000%Z)); (0%nat, RemoveItem "a")].
Proof.
  apply (expired_set_is_overtaken "cache" (expiring_at 1000) 2000 "a" "1" "2" "ok" 5000 1000);
    [reflexivity | lia | lia].
Defined.

(* ===================================================================== *)
(** ** load *)
(* ===================================================================== *)

Lemma set_arrays_same (w : world) : set_arrays (arrays w) w = w.
Proof. by destruct w. Qed.

(** One call of the visitor, in any world. *)
Lemma load_visitor_exec (a : nat) (x : datum) (w : world) :
  exec (NodePersist.load_visitor a x) None w =
  set_arrays (alter (fun l => l ++ kept (clock w) x) a (arrays w)) w.
Proof.
  unfold NodePersist.load_visitor, NodePersist.tsToTtl, kept, expired, loaded_row.
  destruct x as [key v [t|]]; simpl.
  - destruct (Z.eqb_spec t 0) as [->|Ht]; simpl; [reflexivity|].
    rewrite (Z.leb_antisym (clock w) t).
    destruct (clock w <? t)%Z; simpl; [reflexivity|].
    rewrite list_alter_id; [by rewrite set_arrays_same|].
    intros l. apply app_nil_r.
  - reflexivity.
Qed.

Lemma loaded_rows_cons (now : Z) (x : datum) (ds : list datum) :
  loaded_rows now (x :: ds) = kept now x ++ loaded_rows now ds.
Proof. unfold loaded_rows, kept. simpl. by destruct (expired now x). Qed.

(** All the calls of the visitor that one [forEach] makes. *)
Lemma visit_all_load (a : nat) (ds : list datum) (w : world) :
  visit_all (NodePersist.load_visitor a) ds w =
  set_arrays (alter (fun l => l ++ loaded_rows (clock w) ds) a (arrays w)) w.
Proof.
  unfold visit_all. revert w. induction ds as [|x ds IH]; intros w; simpl.
  - rewrite list_alter_id; [by rewrite set_arrays_same|].
    intros l. apply app_nil_r.
  - rewrite load_visitor_exec, IH. simpl.
    rewrite list_alter_alter_eq. unfold set_arrays. simpl. f_equal.
    apply list_alter_ext; [|done].
    intros l _. simpl. rewrite loaded_rows_cons. by rewrite app_assoc.
Qed.



(* ===================================================================== *)
(** ** The constructor and its options *)
(* ===================================================================== *)

(** [new NodePersist({ directory: d }, cache)] on a directory nobody holds,
    [d] not being a name the lock table inherits: the instance is ready once
    the microtasks have run, [#directory] and the store handle are those of
    [d], the write queue exists, admits one task at a time, is idle and not
    stopped, the lock table holds a live record for [d], no timer is armed
    and the store has not been called. *)
Lemma constructor_takes_free_directory (d : string) (c : cache) (now : Z) :
  inherited d = false ->
  exists w r l,
    boot d c now = Some w /\
    ready_state 0 w = Some (Fulfilled VUndef) /\
    directory_of 0 w = Some d /\ store_of 0 w = Some d /\
    limiter_of 0 w = Some l /\ maxConcurrent l = 1%nat /\ idle l = true /\
    stopped l = false /\
    dir_get d (registry w) = Some r /\ live w r = true /\
    timers w = [] /\ micro w = [] /\ store_side w = ([], []).
Proof.
  intros _. exists (ready_world d c now). do 2 eexists.
  split; [apply boot_ready|].
  split; [reflexivity|].
  split; [reflexivity|].
  split; [reflexivity|].
  split; [reflexivity|].
  split; [reflexivity|].
  split; [reflexivity|].
  split; [reflexivity|].
  split; [apply dir_get_set|].
  repeat split; reflexivity.
Qed.

(** A run of [constructor_takes_free_directory]: the directory [cache]. *)
Lemma constructor_takes_free_directory_witness :
  exists w r l,
    boot "cache" no_cache 0 = Some w /\
    ready_state 0 w = Some (Fulfilled VUndef) /\
    directory_of 0 w = Some "cache" /\ store_of 0 w = Some "cache" /\
    limiter_of 0 w = Some l /\ maxConcurrent l = 1%nat /\ idle l = true /\
    stopped l = false /\
    dir_get "cache" (registry w) = Some r /\ live w r = true /\
    timers w = [] /\ micro w = [] /\ store_side w = ([], []).
Proof. apply (constructor_takes_free_directory "cache" no_cache 0). reflexivity. Defined.

(** Whatever the options, the instance starts in their effective
    directory, unless that is a name the lock table inherits. *)
Lemma constructor_starts (o : options) (c : cache) (now : Z) :
  inherited (NodePersist.effective_directory o) = false ->
  starts_in o c now (NodePersist.effective_directory o).
Proof.
  intros _. do 2 eexists.
  split; [runs_dir fail|].
  split; [reflexivity|].
  split; [reflexivity|].
  split; [reflexivity|].
  split; [apply dir_get_set|].
  split; reflexivity.
Qed.

(** [path.join] normalizes what it joins. *)
Example path_join_normalizes :
  NodePersist.path_join "cache" "a" = "cache/a" /\
  NodePersist.path_join "cache/" "a" = "cache/a" /\
  NodePersist.path_join "./cache" "a/" = "cache/a/" /\
  NodePersist.path_join "a//b" "c/./d" = "a/b/c/d" /\
  NodePersist.path_join "cache" ".." = "." /\
  NodePersist.path_join "cache" "../../x" = "../x" /\
  NodePersist.path_join "/x" "../.." = "/" /\
  NodePersist.path_join "" "a" = "a" /\
  NodePersist.path_join ".npc/storage" "../../constructor" = "constructor".
Proof. repeat split. Qed.

(** The options of the constructor.  Without [directory] the instance uses
    [.npc/storage]; a [prefix] that is the empty string is ignored; any
    other prefix is joined to the directory, given or defaulted, by
    [path.join], and it is the joined and normalized path that is locked
    and handed to the store.  The directories are not names the lock table
    inherits. *)
Lemma constructor_options (d p : string) (a : Ascii.ascii) (c : cache) (now : Z) :
  inherited d = false ->
  inherited (NodePersist.path_join d (String a p)) = false ->
  inherited (NodePersist.path_join ".npc/storage" (String a p)) = false ->
  starts_in {| directory := None; prefix := None |} c now ".npc/storage" /\
  starts_in {| directory := Some d; prefix := None |} c now d /\
  starts_in {| directory := Some d; prefix := Some "" |} c now d /\
  starts_in {| directory := Some d; prefix := Some (String a p) |} c now
    (NodePersist.path_join d (String a p)) /\
  starts_in {| directory := None; prefix := Some (String a p) |} c now
    (NodePersist.path_join ".npc/storage" (String a p)).
Proof.
  intros Hd Hj Hj'.
  split; [by apply (constructor_starts {| directory := None; prefix := None |})|].
  split; [by apply (constructor_starts {| directory := Some d; prefix := None |})|].
  split; [by apply (constructor_starts {| directory := Some d; prefix := Some "" |})|].
  split.
  - by apply (constructor_starts {| directory := Some d; prefix := Some (String a p) |}).
  - by apply (constructor_starts {| directory := None; prefix := Some (String a p) |}).
Qed.

(** A run of [constructor_options]: the directory [cache/], which ends with
    a separator, and the prefix [a]. *)
Lemma constructor_options_witness :
  starts_in {| directory := None; prefix := None |} no_cache 0 ".npc/storage" /\
  starts_in {| directory := Some "cache/"; prefix := None |} no_cache 0 "cache/" /\
  starts_in {| directory := Some "cache/"; prefix := Some "" |} no_cache 0 "cache/" /\
  starts_in {| directory := Some "cache/"; prefix := Some "a" |} no_cache 0 "cache/a" /\
  starts_in {| directory := None; prefix := Some "a" |} no_cache 0 ".npc/storage/a".
Proof.
  apply (constructor_options "cache/" "" "a"%char no_cache 0); reflexivity.
Defined.

(** Two instances whose effective directories differ, neither being a name
    the lock table inherits, do not contend: the second is ready as soon as
    it is constructed, no timer is armed, and each holds a live record of
    its own. *)
Lemma distinct_directories_do_not_contend (o1 o2 : options) (c1 c2 : cache) (now : Z) :
  inherited (NodePersist.effective_directory o1) = false ->
  inherited (NodePersist.effective_directory o2) = false ->
  NodePersist.effective_directory o1 <> NodePersist.effective_directory o2 ->
  exists w r1 r2,
    run fuel (NodePersist.constructor o1 c1 (fun _ => Ret VUndef)) (set_clock now w0) ≫=
    run fuel (NodePersist.constructor o2 c2 (fun _ => Ret VUndef)) = Some w /\
    ready_state 0 w = Some (Fulfilled VUndef) /\
    ready_state 1 w = Some (Fulfilled VUndef) /\
    timers w = [] /\
    dir_get (NodePersist.effective_directory o1) (registry w) = Some r1 /\ live w r1 = true /\
    dir_get (NodePersist.effective_directory o2) (registry w) = Some r2 /\ live w r2 = true /\
    lock r1 <> lock r2.
Proof.
  intros _ _ Hne. do 3 eexists.
  split.
  { etransitivity.
    - apply (f_equal (fun x => x ≫= _)). runs_dir fail.
    - simpl. runs_dir fail. }
  split; [reflexivity|].
  split; [reflexivity|].
  split; [reflexivity|].
  split; [cbn [registry]; rewrite dir_get_set_ne by congruence; apply dir_get_set|].
  split; [reflexivity|].
  split; [apply dir_get_set|].
  split; [reflexivity|].
  cbv; lia.
Qed.

(** A run of [distinct_directories_do_not_contend]: one directory, the
    prefixes [a] and [b]. *)
Lemma distinct_directories_do_not_contend_witness :
  exists w r1 r2,
    run fuel
      (NodePersist.constructor {| directory := Some "cache"; prefix := Some "a" |} no_cache
         (fun _ => Ret VUndef)) (set_clock 0 w0) ≫=
    run fuel
      (NodePersist.constructor {| directory := Some "cache"; prefix := Some "b" |} no_cache
         (fun _ => Ret VUndef)) = Some w /\
    ready_state 0 w = Some (Fulfilled VUndef) /\
    ready_state 1 w = Some (Fulfilled VUndef) /\
    timers w = [] /\
    dir_get (NodePersist.effective_directory {| directory := Some "cache"; prefix := Some "a" |})
      (registry w) = Some r1 /\ live w r1 = true /\
    dir_get (NodePersist.effective_directory {| directory := Some "cache"; prefix := Some "b" |})
      (registry w) = Some r2 /\ live w r2 = true /\
    lock r1 <> lock r2.
Proof.
  apply (distinct_directories_do_not_contend
           {| directory := Some "cache"; prefix := Some "a" |}
           {| directory := Some "cache"; prefix := Some "b" |} no_cache no_cache 0).
  - reflexivity.
  - reflexivity.
  - vm_compute. discriminate.
Defined.

(** Methods called in the synchronous block that constructs the instance
    wait for [#ready]: nothing is lost, and once the instance is ready the
    store receives the calls one at a time, in the order of the program. *)
Lemma operations_before_ready_are_deferred (d : string) (c : cache) (now : Z)
    (k1 k2 k3 x : string) (t : Z) :
  exists w,
    run fuel
      (NodePersist.constructor (opts_for d) c
         (fun this =>
            together [NodePersist.set this k1 (VData x) (Some t); NodePersist.del this k2;
                      NodePersist.get this k3]))
      (set_clock now w0) = Some w /\
    ready_state 0 w = Some (Fulfilled VUndef) /\
    in_flight w = [UpdateItem k1 (VData x) (Some t)] /\
    queued 0 w = [RemoveItem k2; GetItem k3] /\
    store_log w = [(0%nat, UpdateItem k1 (VData x) (Some t))].
Proof.
  eexists.
  split; [runs fail|].
  repeat split; reflexivity.
Qed.

(* ===================================================================== *)
(** ** The operations of a ready instance *)
(* ===================================================================== *)

(** [get(key)] on a ready engine hands [getItem(key)] to the write queue,
    and its promise ends as the store call does: fulfilled with the value
    the store answers, [undefined] included, or rejected with the store's
    error. *)
Lemma get_settles_as_store (d : string) (c : cache) (now : Z) (key : string) (o : outcome) :
  plain o ->
  exists w w1 p w2,
    boot d c now = Some w /\
    call fuel (NodePersist.get 0 key) w = Some (w1, p) /\
    store_log w1 = [(0%nat, GetItem key)] /\ in_flight w1 = [GetItem key] /\
    state_of p w1 = Some Pending /\
    store_done fuel 0 o [] w1 = Some w2 /\
    store_log w2 = store_log w1 /\ in_flight w2 = [] /\
    state_of p w2 = Some (settled_as o).
Proof.
  intros Ho. by_answer o Ho; do 4 eexists;
    (split; [apply boot_ready|]);
    (split; [runs fail|]);
    (split; [reflexivity|]);
    (split; [reflexivity|]);
    (split; [reflexivity|]);
    (split; [runs fail|]);
    repeat split; reflexivity.
Qed.

(** A run of [get_settles_as_store]: the store does not have the key. *)
Lemma get_settles_as_store_witness :
  exists w w1 p w2,
    boot "cache" no_cache 0 = Some w /\
    call fuel (NodePersist.get 0 "a") w = Some (w1, p) /\
    store_log w1 = [(0%nat, GetItem "a")] /\ in_flight w1 = [GetItem "a"] /\
    state_of p w1 = Some Pending /\
    store_done fuel 0 (inl VUndef) [] w1 = Some w2 /\
    store_log w2 = store_log w1 /\ in_flight w2 = [] /\
    state_of p w2 = Some (settled_as (inl VUndef)).
Proof.
  apply (get_settles_as_store "cache" no_cache 0 "a" (inl VUndef)).
  intros q. discriminate.
Defined.

(** [del(key)] on a ready engine hands [removeItem(key)] to the write
    queue, and its promise ends as the store call does: it is fulfilled
    with what [removeItem] answers, not always with [undefined], or
    rejected with the store's error. *)
Lemma del_settles_as_store (d : string) (c : cache) (now : Z) (key : string) (o : outcome) :
  plain o ->
  exists w w1 p w2,
    boot d c now = Some w /\
    call fuel (NodePersist.del 0 key) w = Some (w1, p) /\
    store_log w1 = [(0%nat, RemoveItem key)] /\ in_flight w1 = [RemoveItem key] /\
    state_of p w1 = Some Pending /\
    store_done fuel 0 o [] w1 = Some w2 /\
    store_log w2 = store_log w1 /\ in_flight w2 = [] /\
    state_of p w2 = Some (settled_as o).
Proof.
  intros Ho. by_answer o Ho; do 4 eexists;
    (split; [apply boot_ready|]);
    (split; [runs fail|]);
    (split; [reflexivity|]);
    (split; [reflexivity|]);
    (split; [reflexivity|]);
    (split; [runs fail|]);
    repeat split; reflexivity.
Qed.

(** A run of [del_settles_as_store]: the store answers with a record of
    what it removed. *)
Lemma del_settles_as_store_witness :
  exists w w1 p w2,
    boot "cache" no_cache 0 = Some w /\
    call fuel (NodePersist.del 0 "a") w = Some (w1, p) /\
    store_log w1 = [(0%nat, RemoveItem "a")] /\ in_flight w1 = [RemoveItem "a"] /\
    state_of p w1 = Some Pending /\
    store_done fuel 0 (inl (VData "removed")) [] w1 = Some w2 /\
    store_log w2 = store_log w1 /\ in_flight w2 = [] /\
    state_of p w2 = Some (settled_as (inl (VData "removed"))).
Proof.
  apply (del_settles_as_store "cache" no_cache 0 "a" (inl (VData "removed"))).
  intros q. discriminate.
Defined.

(** [flush()] on a ready engine hands [clear()] to the write queue; when
    the store has cleared, the promise is fulfilled with [true] whatever
    the store answered, and when the store fails it is rejected with the
    store's error. *)
Lemma flush_clears_through_queue (d : string) (c : cache) (now : Z) (r : string + val) :
  exists w w1 p w2,
    boot d c now = Some w /\
    call fuel (NodePersist.flush 0) w = Some (w1, p) /\
    store_log w1 = [(0%nat, ClearAll)] /\ in_flight w1 = [ClearAll] /\
    state_of p w1 = Some Pending /\
    store_done fuel 0 (answer r) [] w1 = Some w2 /\
    store_log w2 = store_log w1 /\ in_flight w2 = [] /\
    state_of p w2 =
      Some (match r with inl _ => Fulfilled (VBool true) | inr e => Rejected e end).
Proof.
  destruct r; do 4 eexists;
    (split; [apply boot_ready|]);
    (split; [runs fail|]);
    (split; [reflexivity|]);
    (split; [reflexivity|]);
    (split; [reflexivity|]);
    (split; [runs fail|]);
    repeat split; reflexivity.
Qed.

(** [set(key, value, ttl)] with a [ttl] hands the upsert to the store with
    that [ttl] as it is, zero and negative numbers included: the cache is
    not asked for an expiration and nothing is deleted.  The promise is
    fulfilled with the value. *)
Lemma set_with_ttl_passes_through (d : string) (c : cache) (now : Z) (key x y : string)
    (t : Z) :
  exists w w1 p w2,
    boot d c now = Some w /\
    call fuel (NodePersist.set 0 key (VData x) (Some t)) w = Some (w1, p) /\
    store_log w1 = [(0%nat, UpdateItem key (VData x) (Some t))] /\
    in_flight w1 = [UpdateItem key (VData x) (Some t)] /\
    state_of p w1 = Some Pending /\
    store_done fuel 0 (inl (VData y)) [] w1 = Some w2 /\
    store_log w2 = store_log w1 /\ in_flight w2 = [] /\
    state_of p w2 = Some (Fulfilled (VData x)).
Proof.
  do 4 eexists.
  split; [apply boot_ready|].
  split; [runs fail|].
  split; [reflexivity|].
  split; [reflexivity|].
  split; [reflexivity|].
  split; [runs fail|].
  repeat split; reflexivity.
Qed.

(** Whatever its [ttl] argument and whatever the cache reports, [set] hands
    exactly one call to the store, the upsert or the delete; when the store
    fails that call with [e], the promise of [set] is rejected with [e] and
    the write queue is left empty. *)
Lemma set_rejects_with_store_error (d : string) (c : cache) (now : Z) (key x : string)
    (t : num) (e : val) :
  exists w w1 p w2,
    boot d c now = Some w /\
    call fuel (NodePersist.set 0 key (VData x) t) w = Some (w1, p) /\
    length (store_log w1) = 1%nat /\ length (in_flight w1) = 1%nat /\
    state_of p w1 = Some Pending /\
    store_done fuel 0 (inr e) [] w1 = Some w2 /\
    store_log w2 = store_log w1 /\ in_flight w2 = [] /\ queued 0 w2 = [] /\
    state_of p w2 = Some (Rejected e).
Proof.
  assert (Hcases :
    (exists t', t = Some t') \/
    (t = None /\ getTtl c key = None) \/
    (t = None /\ getTtl c key = Some 0%Z) \/
    (t = None /\ exists e, getTtl c key = Some e /\ e <> 0%Z /\ (e - now < 0)%Z) \/
    (t = None /\ exists e, getTtl c key = Some e /\ e <> 0%Z /\ (0 <= e - now)%Z)).
  { destruct t as [t|]; [left; eauto|right].
    destruct (getTtl c key) as [e'|]; [|left; done]. right.
    destruct (Z.eq_dec e' 0%Z) as [->|He]; [left; done|right].
    destruct (Z.lt_ge_cases (e' - now)%Z 0%Z); [left|right]; eauto. }
  destruct Hcases as
    [[t' ->]|[[-> Hg]|[[-> Hg]|[[-> (e' & Hg & He & Hlt)]|[-> (e' & Hg & He & Hge)]]]]];
    do 4 eexists;
    (split; [apply boot_ready|]);
    (split; [runs ltac:(rewrite Hg)|]);
    (split; [reflexivity|]);
    (split; [reflexivity|]);
    (split; [reflexivity|]);
    (split; [runs fail|]);
    repeat split; reflexivity.
Qed.

(** [load] when the store fails.  If [init] fails with [e], the promise of
    [load] is rejected with [e] and [forEach] is never called; if [forEach]
    fails with [e] after visiting the data [ds], the promise is rejected
    with [e] and the rows collected so far are not returned. *)
Lemma load_rejects_with_store_error (d : string) (c : cache) (now : Z) (e : val)
    (ds : list datum) :
  (exists w w1 p w2,
      boot d c now = Some w /\
      call fuel (NodePersist.load 0) w = Some (w1, p) /\
      store_done fuel 0 (inr e) [] w1 = Some w2 /\
      state_of p w2 = Some (Rejected e) /\
      store_log w2 = [(0%nat, InitStore)] /\ in_flight w2 = []) /\
  (exists w w1 p w2 w3,
      boot d c now = Some w /\
      call fuel (NodePersist.load 0) w = Some (w1, p) /\
      store_done fuel 0 (inl VUndef) [] w1 = Some w2 /\
      store_done fuel 0 (inr e) ds w2 = Some w3 /\
      state_of p w3 = Some (Rejected e) /\
      store_log w3 = [(0%nat, InitStore); (0%nat, ForEachItem)] /\ in_flight w3 = []).
Proof.
  split.
  - do 4 eexists.
    split; [apply boot_ready|].
    split; [runs fail|].
    split; [runs fail|].
    repeat split; reflexivity.
  - do 5 eexists.
    split; [apply boot_ready|].
    split; [runs fail|].
    split; [runs fail|].
    split; [runs ltac:(rewrite visit_all_load)|].
    repeat split; reflexivity.
Qed.

(** [load] does not go through the write queue.  While a write is in
    flight, [load] calls [init] on the store at once, so that the store
    works on two calls of the engine at the same time; a [get] issued next
    waits in the queue behind the write. *)
Lemma load_is_not_queued (d : string) (c : cache) (now : Z) (key x : string) (t : Z) :
  exists w w1 p w2 q w3 g,
    boot d c now = Some w /\
    call fuel (NodePersist.set 0 key (VData x) (Some t)) w = Some (w1, p) /\
    in_flight w1 = [UpdateItem key (VData x) (Some t)] /\
    call fuel (NodePersist.load 0) w1 = Some (w2, q) /\
    in_flight w2 = [UpdateItem key (VData x) (Some t); InitStore] /\
    queued 0 w2 = [] /\
    call fuel (NodePersist.get 0 key) w2 = Some (w3, g) /\
    in_flight w3 = [UpdateItem key (VData x) (Some t); InitStore] /\
    queued 0 w3 = [GetItem key].
Proof.
  do 7 eexists.
  split; [apply boot_ready|].
  split; [runs fail|].
  split; [reflexivity|].
  split; [runs fail|].
  split; [reflexivity|].
  split; [reflexivity|].
  split; [runs fail|].
  split; reflexivity.
Qed.

(* ===================================================================== *)
(** ** Closing an instance *)
(* ===================================================================== *)

(** [close] stops the write queue without dropping its work.  With one
    write in flight and one waiting, the promise of [close] stays pending
    and the directory stays locked until the store has completed both,
    whether they succeed or fail; only then is the directory released and
    the promise fulfilled with [true]. *)
Lemma close_waits_for_queued_writes (d : string) (c : cache) (now : Z)
    (k1 k2 x : string) (t : Z) (r1 r2 : string + val) :
  exists w w1 w2 q w3 w4 held,
    boot d c now = Some w /\
    run fuel (together [NodePersist.set 0 k1 (VData x) (Some t); NodePersist.del 0 k2]) w
      = Some w1 /\
    call fuel (NodePersist.close 0) w1 = Some (w2, q) /\
    state_of q w2 = Some Pending /\
    in_flight w2 = [UpdateItem k1 (VData x) (Some t)] /\ queued 0 w2 = [RemoveItem k2] /\
    dir_get d (registry w2) = Some held /\ live w2 held = true /\
    store_done fuel 0 (answer r1) [] w2 = Some w3 /\
    state_of q w3 = Some Pending /\
    in_flight w3 = [RemoveItem k2] /\ queued 0 w3 = [] /\
    dir_get d (registry w3) = Some held /\ live w3 held = true /\
    store_done fuel 0 (answer r2) [] w3 = Some w4 /\
    state_of q w4 = Some (Fulfilled (VBool true)) /\
    in_flight w4 = [] /\
    store_log w4 = [(0%nat, UpdateItem k1 (VData x) (Some t)); (0%nat, RemoveItem k2)] /\
    dir_get d (registry w4) = None /\ live w4 held = false.
Proof.
  destruct r1, r2; do 7 eexists;
  (split; [apply boot_ready|]);
  (split; [runs fail|]);
  (split; [runs fail|]);
  (split; [reflexivity|]);
  (split; [reflexivity|]);
  (split; [reflexivity|]);
  (split; [apply dir_get_set|]);
  (split; [reflexivity|]);
  (split; [runs fail|]);
  (split; [reflexivity|]);
  (split; [reflexivity|]);
  (split; [reflexivity|]);
  (split; [apply dir_get_set|]);
  (split; [reflexivity|]);
  (split; [runs fail|]);
  (split; [reflexivity|]);
  (split; [reflexivity|]);
  (split; [reflexivity|]);
  (split; [apply dir_get_delete|reflexivity]).
Qed.

(** After [close], the instance refuses what goes through the write queue:
    [get], [set], [del] and [flush] are rejected and the store is not
    called.  [load], which calls the store directly, still reaches it,
    although the directory has been released. *)
Lemma closed_instance_refuses_writes (d : string) (c : cache) (now : Z) (key x : string)
    (t : Z) :
  exists w w1 q w2 ps w3 l,
    boot d c now = Some w /\
    call fuel (NodePersist.close 0) w = Some (w1, q) /\
    state_of q w1 = Some (Fulfilled (VBool true)) /\
    dir_get d (registry w1) = None /\
    call_all [NodePersist.get 0 key; NodePersist.set 0 key (VData x) (Some t);
              NodePersist.del 0 key; NodePersist.flush 0] w1 = Some (w2, ps) /\
    length ps = 4%nat /\
    Forall (fun p => is_rejected (state_of p w2) = true) ps /\
    store_side w2 = ([], []) /\
    call fuel (NodePersist.load 0) w2 = Some (w3, l) /\
    store_log w3 = [(0%nat, InitStore)] /\ in_flight w3 = [InitStore].
Proof.
  do 7 eexists.
  split; [apply boot_ready|].
  split; [runs fail|].
  split; [reflexivity|].
  split; [apply dir_get_delete|].
  split; [runs fail|].
  split; [reflexivity|].
  split; [repeat constructor|].
  split; [reflexivity|].
  split; [runs fail|].
  split; reflexivity.
Qed.

(** Once an instance is closed, a new instance constructed for the same
    directory, which is not a name the lock table inherits, is ready at
    once: it holds a live record and no timer is armed. *)
Lemma reopen_after_close (d : string) (c c' : cache) (now : Z) :
  inherited d = false ->
  exists w w1 q w2 r,
    boot d c now = Some w /\
    call fuel (NodePersist.close 0) w = Some (w1, q) /\
    state_of q w1 = Some (Fulfilled (VBool true)) /\
    run fuel (NodePersist.constructor (opts_for d) c' (fun _ => Ret VUndef)) w1 = Some w2 /\
    ready_state 1 w2 = Some (Fulfilled VUndef) /\
    timers w2 = [] /\
    dir_get d (registry w2) = Some r /\ live w2 r = true.
Proof.
  intros _. do 5 eexists.
  split; [apply boot_ready|].
  split; [runs fail|].
  split; [reflexivity|].
  split; [runs fail|].
  split; [reflexivity|].
  split; [reflexivity|].
  split; [apply dir_get_set|reflexivity].
Qed.

(** A run of [reopen_after_close]: the directory [cache]. *)
Lemma reopen_after_close_witness :
  exists w w1 q w2 r,
    boot "cache" no_cache 0 = Some w /\
    call fuel (NodePersist.close 0) w = Some (w1, q) /\
    state_of q w1 = Some (Fulfilled (VBool true)) /\
    run fuel (NodePersist.constructor (opts_for "cache") no_cache (fun _ => Ret VUndef)) w1
      = Some w2 /\
    ready_state 1 w2 = Some (Fulfilled VUndef) /\
    timers w2 = [] /\
    dir_get "cache" (registry w2) = Some r /\ live w2 r = true.
Proof. apply (reopen_after_close "cache" no_cache no_cache 0). reflexivity. Defined.

(* ===================================================================== *)
(** ** Several instances on one directory *)
(* ===================================================================== *)

(** Two instances wait for a directory that a third one holds.  When the
    holder is closed, both waiters become ready: each takes the directory
    in its turn and the lock table keeps the record of the last one only.
    Closing the first waiter then removes that record, while the second
    waiter is still ready and has not been closed. *)
Lemma two_waiters_both_acquire (d : string) (c : cache) (now : Z) :
  exists w w1 w2 w3 q r w4 q1,
    boot d c now = Some w /\
    run fuel (NodePersist.constructor (opts_for d) c (fun _ => Ret VUndef)) w = Some w1 /\
    run fuel (NodePersist.constructor (opts_for d) c (fun _ => Ret VUndef)) w1 = Some w2 /\
    ready_state 1 w2 = Some Pending /\ ready_state 2 w2 = Some Pending /\
    call fuel (NodePersist.close 0) w2 = Some (w3, q) /\
    ready_state 1 w3 = Some (Fulfilled VUndef) /\
    ready_state 2 w3 = Some (Fulfilled VUndef) /\
    dir_get d (registry w3) = Some r /\ live w3 r = true /\
    call fuel (NodePersist.close 1) w3 = Some (w4, q1) /\
    state_of q1 w4 = Some (Fulfilled (VBool true)) /\
    ready_state 2 w4 = Some (Fulfilled VUndef) /\
    dir_get d (registry w4) = None /\ live w4 r = false.
Proof.
  do 8 eexists.
  split; [apply boot_ready|].
  split; [runs fail|].
  split; [runs fail|].
  split; [reflexivity|].
  split; [reflexivity|].
  split; [runs fail|].
  split; [reflexivity|].
  split; [reflexivity|].
  split; [apply dir_get_set|].
  split; [reflexivity|].
  split; [runs fail|].
  split; [reflexivity|].
  split; [reflexivity|].
  split; [apply dir_get_delete|reflexivity].
Qed.

(** [close] releases whatever record the lock table holds for the
    directory of the instance.  After two instances were constructed for a
    directory in one synchronous block, the record is that of the second;
    closing the first resolves the lock of the second and removes its
    record, the second being still ready with its queue open, and a third
    instance takes the directory at once. *)
Lemma close_releases_newer_record (d : string) (c : cache) (now : Z) :
  exists w r w1 q w2 r',
    run fuel
      (NodePersist.constructor (opts_for d) c
         (fun _ => NodePersist.constructor (opts_for d) c (fun _ => Ret VUndef)))
      (set_clock now w0) = Some w /\
    ready_state 1 w = Some (Fulfilled VUndef) /\
    dir_get d (registry w) = Some r /\ live w r = true /\
    call fuel (NodePersist.close 0) w = Some (w1, q) /\
    state_of q w1 = Some (Fulfilled (VBool true)) /\
    ready_state 1 w1 = Some (Fulfilled VUndef) /\
    stopped <$> limiter_of 1 w1 = Some false /\
    dir_get d (registry w1) = None /\ live w1 r = false /\
    run fuel (NodePersist.constructor (opts_for d) c (fun _ => Ret VUndef)) w1 = Some w2 /\
    ready_state 2 w2 = Some (Fulfilled VUndef) /\ timers w2 = [] /\
    dir_get d (registry w2) = Some r' /\ live w2 r' = true.
Proof.
  do 6 eexists.
  split; [runs fail|].
  split; [reflexivity|].
  split; [apply dir_get_set|].
  split; [reflexivity|].
  split; [runs fail|].
  split; [reflexivity|].
  split; [reflexivity|].
  split; [reflexivity|].
  split; [apply dir_get_delete|].
  split; [reflexivity|].
  split; [runs fail|].
  split; [reflexivity|].
  split; [reflexivity|].
  split; [apply dir_get_set|reflexivity].
Qed.

(** Each instance has a write queue of its own.  Two ready instances on
    different directories each hand a [set] to the store at once: both
    calls are in flight together and neither queue holds anything.  A
    further [get] on instance 0 waits behind that instance's own [set]
    only. *)
Lemma queues_are_per_instance (d1 d2 : string) (c1 c2 : cache) (now : Z)
    (k1 k2 k3 x1 x2 : string) (t1 t2 : Z) :
  d1 <> d2 ->
  exists w w1 w2 p1 w3 p2 w4 p3,
    boot d1 c1 now = Some w /\
    run fuel (NodePersist.constructor (opts_for d2) c2 (fun _ => Ret VUndef)) w = Some w1 /\
    call fuel (NodePersist.set 0 k1 (VData x1) (Some t1)) w1 = Some (w2, p1) /\
    call fuel (NodePersist.set 1 k2 (VData x2) (Some t2)) w2 = Some (w3, p2) /\
    in_flight_by w3 = [(0%nat, UpdateItem k1 (VData x1) (Some t1));
                       (1%nat, UpdateItem k2 (VData x2) (Some t2))] /\
    queued 0 w3 = [] /\ queued 1 w3 = [] /\
    call fuel (NodePersist.get 0 k3) w3 = Some (w4, p3) /\
    in_flight_by w4 = in_flight_by w3 /\
    queued 0 w4 = [GetItem k3] /\ queued 1 w4 = [].
Proof.
  intros Hne. do 8 eexists.
  split; [apply boot_ready|].
  split; [runs fail|].
  split; [runs fail|].
  split; [runs fail|].
  split; [reflexivity|].
  split; [reflexivity|].
  split; [reflexivity|].
  split; [runs fail|].
  repeat split; reflexivity.
Qed.

Lemma queues_are_per_instance_witness :
  exists w w1 w2 p1 w3 p2 w4 p3,
    boot "a" no_cache 0 = Some w /\
    run fuel (NodePersist.constructor (opts_for "b") no_cache (fun _ => Ret VUndef)) w
      = Some w1 /\
    call fuel (NodePersist.set 0 "k1" (VData "x1") (Some 5%Z)) w1 = Some (w2, p1) /\
    call fuel (NodePersist.set 1 "k2" (VData "x2") (Some 7%Z)) w2 = Some (w3, p2) /\
    in_flight_by w3 = [(0%nat, UpdateItem "k1" (VData "x1") (Some 5%Z));
                       (1%nat, UpdateItem "k2" (VData "x2") (Some 7%Z))] /\
    queued 0 w3 = [] /\ queued 1 w3 = [] /\
    call fuel (NodePersist.get 0 "k3") w3 = Some (w4, p3) /\
    in_flight_by w4 = in_flight_by w3 /\
    queued 0 w4 = [GetItem "k3"] /\ queued 1 w4 = [].
Proof.
  apply (queues_are_per_instance "a" "b" no_cache no_cache 0 "k1" "k2" "k3" "x1" "x2" 5 7).
  discriminate.
Defined.

(** The directory lock does not keep two instances off one directory.  Two
    instances constructed on the same directory in the same turn are both
    ready with a store on that directory, and a [set] on each reaches the
    store at once: the two writes to the one directory are in flight
    together, and neither write queue holds anything. *)
Lemma same_directory_writes_overlap (d : string) (c : cache) (now : Z)
    (k1 k2 x1 x2 : string) (t1 t2 : Z) :
  exists w w1 p1 w2 p2,
    run fuel
      (NodePersist.constructor (opts_for d) c
         (fun _ => NodePersist.constructor (opts_for d) c (fun _ => Ret VUndef)))
      (set_clock now w0) = Some w /\
    store_of 0 w = Some d /\ store_of 1 w = Some d /\
    call fuel (NodePersist.set 0 k1 (VData x1) (Some t1)) w = Some (w1, p1) /\
    call fuel (NodePersist.set 1 k2 (VData x2) (Some t2)) w1 = Some (w2, p2) /\
    in_flight_by w2 = [(0%nat, UpdateItem k1 (VData x1) (Some t1));
                       (1%nat, UpdateItem k2 (VData x2) (Some t2))] /\
    queued 0 w2 = [] /\ queued 1 w2 = [].
Proof.
  do 5 eexists.
  split; [runs fail|].
  split; [reflexivity|].
  split; [reflexivity|].
  split; [runs fail|].
  split; [runs fail|].
  repeat split; reflexivity.
Qed.

(* ===================================================================== *)
(** ** The directory lock in any world *)
(* ===================================================================== *)

(** Calling a resolve function touches promises and microtasks only. *)
Lemma same_outside_call_resolve (r : resolver) (v : val) (w : world) :
  same_outside w (call_resolve r v w).
Proof.
  unfold same_outside, call_resolve, resolve_with, settle, set_flag, enqueue.
  repeat case_match; simpl; repeat case_match; simpl; tauto.
Qed.








Lemma keeps_refl (w : world) : keeps w w.
Proof. by intros r. Qed.

Lemma keeps_trans (w1 w2 w3 : world) : keeps w1 w2 -> keeps w2 w3 -> keeps w1 w3.
Proof. intros H1 H2 r Hr. by apply H2, H1. Qed.

Lemma keeps_same_heap (w w' : world) : heap w' = heap w -> keeps w w'.
Proof. intros Hh r (pr & H1 & H2). exists pr. by rewrite Hh. Qed.

Lemma keeps_insert (w w' : world) (p : pid) (pr pr' : promise) :
  heap w !! p = Some pr -> heap w' = <[p := pr']> (heap w) ->
  (forall i, flags pr !! i = Some true -> flags pr' !! i = Some true) ->
  keeps w w'.
Proof.
  intros Hp Hh Hf r (pr0 & H1 & H2). unfold spent. rewrite Hh.
  destruct (decide (p = r.1)) as [->|Hne].
  - exists pr'. rewrite list_lookup_insert_eq by (by eapply lookup_lt_Some).
    split; [done|]. apply Hf. unfold pid in *. rewrite Hp in H1. by injection H1 as ->.
  - exists pr0. by rewrite list_lookup_insert_ne.
Qed.

Lemma keeps_append (w : world) (l : list promise) : keeps w (set_heap (heap w ++ l) w).
Proof.
  intros r (pr & H1 & H2). exists pr. split; [|done].
  cbn [heap set_heap]. by apply lookup_app_l_Some.
Qed.

Lemma keeps_enqueue (j : job) (w : world) : keeps w (enqueue j w).
Proof. by apply keeps_same_heap. Qed.

Lemma keeps_settle (p : pid) (o : outcome) (w : world) : keeps w (settle p o w).
Proof.
  unfold settle. destruct (heap w !! p) as [pr|] eqn:Hp; [|apply keeps_refl].
  destruct (st pr); try apply keeps_refl.
  eapply keeps_insert; [exact Hp|reflexivity|]. intros i Hi. exact Hi.
Qed.

Lemma keeps_set_flag (r : resolver) (w : world) : keeps w (set_flag r w).
Proof.
  unfold set_flag. destruct (heap w !! r.1) as [pr|] eqn:Hp; [|apply keeps_refl].
  eapply keeps_insert; [exact Hp|reflexivity|]. cbn [flags]. intros i Hi.
  destruct (decide (r.2 = i)) as [<-|Hne].
  - rewrite list_lookup_insert_eq; [done|]. by eapply lookup_lt_Some.
  - by rewrite list_lookup_insert_ne.
Qed.

Lemma spent_set_flag (r : resolver) (w : world) :
  flag_of r w = false -> spent r (set_flag r w).
Proof.
  unfold flag_of, set_flag, spent. destruct (heap w !! r.1) as [pr|] eqn:Hp; [|done].
  intros Hf. cbn [heap set_heap].
  destruct (flags pr !! r.2) as [b|] eqn:Hb; [|done].
  eexists. rewrite list_lookup_insert_eq by (by eapply lookup_lt_Some).
  split; [done|]. cbn [flags]. rewrite list_lookup_insert_eq; [done|].
  by eapply lookup_lt_Some.
Qed.

Lemma spent_flag (r : resolver) (w : world) : spent r w -> flag_of r w = true.
Proof. intros (pr & H1 & H2). unfold flag_of. unfold pid in *. by rewrite H1, H2. Qed.

Lemma keeps_new_pair (p : pid) (w : world) : keeps w (new_pair p w).1.
Proof.
  unfold new_pair. destruct (heap w !! p) as [pr|] eqn:Hp; [|apply keeps_refl].
  cbn [fst]. eapply keeps_insert; [exact Hp|reflexivity|]. cbn [flags]. intros i Hi.
  by apply lookup_app_l_Some.
Qed.

Lemma keeps_resolve_with (p : pid) (v : val) (w : world) : keeps w (resolve_with p v w).
Proof.
  unfold resolve_with. destruct v; try apply keeps_settle.
  destruct (p =? p0)%nat; [apply keeps_settle|apply keeps_enqueue].
Qed.

Lemma keeps_call_resolve (r : resolver) (v : val) (w : world) : keeps w (call_resolve r v w).
Proof.
  unfold call_resolve. destruct (flag_of r w); [apply keeps_refl|].
  eapply keeps_trans; [apply keeps_set_flag|apply keeps_resolve_with].
Qed.

Lemma keeps_call_reject (r : resolver) (e : val) (w : world) : keeps w (call_reject r e w).
Proof.
  unfold call_reject. destruct (flag_of r w); [apply keeps_refl|].
  eapply keeps_trans; [apply keeps_set_flag|apply keeps_settle].
Qed.

Lemma keeps_finish (tgt : option pid) (o : outcome) (w : world) : keeps w (finish tgt o w).
Proof.
  destruct tgt as [t|]; [|apply keeps_refl].
  destruct o; [apply keeps_call_resolve|apply keeps_call_reject].
Qed.

Lemma keeps_perform_then (p : pid) (rc : reaction) (w : world) : keeps w (perform_then p rc w).
Proof.
  unfold perform_then. destruct (heap w !! p) as [pr|] eqn:Hp; [|apply keeps_refl].
  destruct (st pr); try apply keeps_enqueue.
  eapply keeps_insert; [exact Hp|reflexivity|]. intros i Hi. exact Hi.
Qed.

Lemma keeps_alloc (s : pstate) (w : world) : keeps w (alloc s w).1.
Proof. apply keeps_append. Qed.

Lemma keeps_then (p : pid) (onF onR : val -> prog) (w : world) :
  keeps w (then_ p onF onR w).1.
Proof.
  unfold then_. pose proof (keeps_alloc Pending w) as H.
  destruct (alloc Pending w) as [w1 q]. cbn [fst] in *.
  eapply keeps_trans; [exact H|apply keeps_perform_then].
Qed.

Lemma keeps_await_on (v : val) (k : val -> prog) (tgt : option pid) (w : world) :
  keeps w (await_on v k tgt w).
Proof.
  unfold await_on.
  assert (Hw : forall s rc, keeps w (let '(w1, q) := alloc s w in perform_then q rc w1)).
  { intros s rc. pose proof (keeps_alloc s w) as H.
    destruct (alloc s w) as [w1 q]. cbn [fst] in *.
    eapply keeps_trans; [exact H|apply keeps_perform_then]. }
  destruct v; try apply Hw. apply keeps_perform_then.
Qed.

Lemma keeps_update_engine (this : nat) (f : engine -> engine) (w : world) :
  keeps w (update_engine this f w).
Proof. apply keeps_same_heap. unfold update_engine. by destruct (engines w !! this). Qed.

Lemma keeps_start_call (this : nat) (c : store_call) (visit : option (datum -> prog))
    (w : world) :
  keeps w (start_call this c visit w).1.
Proof.
  unfold start_call. pose proof (keeps_alloc Pending w) as H.
  destruct (alloc Pending w) as [w1 t]. cbn [fst] in *.
  eapply keeps_trans; [exact H|]. by apply keeps_same_heap.
Qed.

Lemma keeps_dispatch (fuel this : nat) (w : world) : keeps w (dispatch fuel this w).
Proof.
  revert w. induction fuel as [|fuel IH]; intros w; [apply keeps_refl|].
  cbn [dispatch]. destruct (limiter_of this w) as [l|]; [|apply keeps_refl].
  destruct (waiting l) as [|[c j] rest]; [apply keeps_refl|].
  destruct (running l <? maxConcurrent l)%nat; [|apply keeps_refl].
  match goal with
  | |- context [start_call ?a ?b ?c ?x] =>
      pose proof (keeps_start_call a b c x) as H;
      pose proof (keeps_update_engine this
                    (with_limiter
                       {| maxConcurrent := maxConcurrent l; waiting := rest;
                          running := S (running l); stopped := stopped l;
                          draining := draining l |}) w) as H0;
      destruct (start_call a b c x) as [w1 t]
  end.
  cbn [fst] in *.
  eapply keeps_trans; [exact H0|]. eapply keeps_trans; [exact H|].
  eapply keeps_trans; [apply keeps_perform_then|apply IH].
Qed.

Lemma keeps_schedule (l : limiter) (this : nat) (c : store_call) (w : world) :
  keeps w (schedule l this c w).1.
Proof.
  unfold schedule. destruct (stopped l); [apply keeps_alloc|].
  pose proof (keeps_alloc Pending w) as H.
  destruct (alloc Pending w) as [w1 j]. cbn [fst] in *.
  eapply keeps_trans; [exact H|]. unfold dispatch_all.
  eapply keeps_trans; [apply keeps_update_engine|apply keeps_dispatch].
Qed.

Lemma keeps_stop (l : limiter) (this : nat) (w : world) : keeps w (stop l this w).1.
Proof.
  unfold stop.
  assert (H : forall X Y,
            keeps w
              (if idle l
               then alloc (Fulfilled VUndef) (update_engine this X w)
               else let '(w1, s) := alloc Pending w in
                    (update_engine this (Y s) w1, s)).1).
  { intros X Y. destruct (idle l).
    - eapply keeps_trans; [apply keeps_update_engine|apply keeps_alloc].
    - pose proof (keeps_alloc Pending w) as H.
      destruct (alloc Pending w) as [w1 s]. cbn [fst] in *.
      eapply keeps_trans; [exact H|apply keeps_update_engine]. }
  destruct (stopped l).
  - destruct (restop w); [apply keeps_alloc|].
    apply (H _ (fun s => with_limiter _)).
  - apply (H _ (fun s => with_limiter _)).
Qed.

Lemma keeps_resolve_all (rs : list resolver) (w : world) :
  keeps w (fold_left (fun w r => call_resolve r VUndef w) rs w).
Proof.
  revert w. induction rs as [|r rs IH]; intros w; [apply keeps_refl|].
  simpl. eapply keeps_trans; [apply keeps_call_resolve|apply IH].
Qed.

Lemma keeps_job_done (this : nat) (w : world) : keeps w (job_done this w).
Proof.
  unfold job_done. destruct (limiter_of this w) as [l|]; [|apply keeps_refl].
  unfold dispatch_all.
  match goal with
  | |- keeps w match limiter_of this ?x with _ => _ end =>
      assert (H : keeps w x)
        by (eapply keeps_trans; [apply keeps_update_engine|apply keeps_dispatch]);
      destruct (limiter_of this x) as [l1|]; [|exact H]
  end.
  destruct (stopped l1 && idle l1); [|exact H].
  eapply keeps_trans; [exact H|].
  eapply keeps_trans; [apply keeps_update_engine|apply keeps_resolve_all].
Qed.

(** Whatever command runs, the pairs that were used stay used. *)
Lemma keeps_exec (p : prog) : forall (tgt : option pid) (w : world), keeps w (exec p tgt w).
Proof.
  induction p; intros tgt w; cbn [exec].
  - apply keeps_finish.
  - apply keeps_finish.
  - apply keeps_await_on.
  - pose proof (keeps_alloc Pending w) as Ha.
    destruct (alloc Pending w) as [w1 r]. cbn [fst] in *.
    eapply keeps_trans; [exact Ha|]. eapply keeps_trans; [apply IHp|apply H].
  - pose proof (keeps_alloc Pending w) as Ha.
    destruct (alloc Pending w) as [w1 r]. cbn [fst] in *.
    eapply keeps_trans; [exact Ha|apply H].
  - eapply keeps_trans; [apply keeps_call_resolve|apply IHp].
  - eapply keeps_trans; [apply keeps_call_reject|apply IHp].
  - pose proof (keeps_then p onF onR w) as Ha.
    destruct (then_ p onF onR w) as [w1 r]. cbn [fst] in *.
    eapply keeps_trans; [exact Ha|apply H1].
  - eapply keeps_trans; [|apply IHp2]. by apply keeps_same_heap.
  - apply H.
  - apply H.
  - eapply keeps_trans; [|apply IHp]. by apply keeps_same_heap.
  - eapply keeps_trans; [|apply IHp]. by apply keeps_same_heap.
  - eapply keeps_trans; [|apply H]. by apply keeps_same_heap.
  - destruct (engines w !! this); [apply H|apply keeps_finish].
  - eapply keeps_trans; [apply keeps_update_engine|apply IHp].
  - eapply keeps_trans; [apply keeps_update_engine|apply IHp].
  - eapply keeps_trans; [apply keeps_update_engine|apply IHp].
  - eapply keeps_trans; [apply keeps_update_engine|apply IHp].
  - destruct (limiter_of this w) as [l|]; [|apply keeps_finish].
    pose proof (keeps_schedule l this c w) as Ha.
    destruct (schedule l this c w) as [w1 j]. cbn [fst] in *.
    eapply keeps_trans; [exact Ha|apply H].
  - destruct (limiter_of this w) as [l|]; [|apply keeps_finish].
    pose proof (keeps_stop l this w) as Ha.
    destruct (stop l this w) as [w1 s]. cbn [fst] in *.
    eapply keeps_trans; [exact Ha|apply H].
  - eapply keeps_trans; [apply keeps_job_done|apply IHp].
  - destruct (engines w !! this ≫= e_engine); [|apply keeps_finish].
    pose proof (keeps_start_call this InitStore None w) as Ha.
    destruct (start_call this InitStore None w) as [w1 t]. cbn [fst] in *.
    eapply keeps_trans; [exact Ha|apply H].
  - destruct (engines w !! this ≫= e_engine); [|apply keeps_finish].
    pose proof (keeps_start_call this ForEachItem (Some visit) w) as Ha.
    destruct (start_call this ForEachItem (Some visit) w) as [w1 t]. cbn [fst] in *.
    eapply keeps_trans; [exact Ha|apply H0].
  - eapply keeps_trans; [|apply H]. by apply keeps_same_heap.
  - eapply keeps_trans; [|apply IHp]. by apply keeps_same_heap.
  - apply H.
Qed.

Lemma keeps_run_job (j : job) (w : world) : keeps w (run_job j w).
Proof.
  destruct j as [f arg cap|p q]; cbn [run_job]; [apply keeps_exec|].
  pose proof (keeps_new_pair p w) as Ha.
  destruct (new_pair p w) as [w1 r]. cbn [fst] in *.
  eapply keeps_trans; [exact Ha|apply keeps_then].
Qed.

Lemma keeps_drain (n : nat) (w w' : world) : drain n w = Some w' -> keeps w w'.
Proof.
  revert w. induction n as [|n IH]; intros w; destruct w as [h m t c r e i s a rs];
    destruct m as [|j rest]; cbn [drain]; try done.
  - intros [= <-]. apply keeps_refl.
  - intros [= <-]. apply keeps_refl.
  - intros H. eapply keeps_trans; [|apply (IH _ H)].
    eapply keeps_trans; [|apply keeps_run_job]. by apply keeps_same_heap.
Qed.

Lemma keeps_fire (fuel n : nat) (w w' : world) : fire fuel n w = Some w' -> keeps w w'.
Proof.
  revert w. induction n as [|n IH]; intros w; cbn [fire];
    destruct (timers w) as [|[t cb] rest]; try (intros [= <-]; apply keeps_refl);
    destruct (t <=? clock w)%Z; try (intros [= <-]; apply keeps_refl); try done.
  destruct (drain fuel (exec cb None (set_timers rest w))) as [w1|] eqn:Hd; [|done].
  cbn [mbind option_bind]. intros H.
  eapply keeps_trans; [|apply (IH _ H)].
  eapply keeps_trans; [|apply (keeps_drain _ _ _ Hd)].
  eapply keeps_trans; [|apply keeps_exec]. by apply keeps_same_heap.
Qed.

Lemma keeps_visit_all (visit : datum -> prog) (ds : list datum) (w : world) :
  keeps w (visit_all visit ds w).
Proof.
  unfold visit_all. revert w. induction ds as [|x ds IH]; intros w; [apply keeps_refl|].
  simpl. eapply keeps_trans; [apply keeps_exec|apply IH].
Qed.

Lemma keeps_store_done (n i : nat) (o : outcome) (ds : list datum) (w w' : world) :
  store_done n i o ds w = Some w' -> keeps w w'.
Proof.
  unfold store_done. destruct (inflight w !! i) as [f|]; [|intros [= <-]; apply keeps_refl].
  intros H. eapply keeps_trans; [|apply (keeps_drain _ _ _ H)].
  eapply keeps_trans; [|apply keeps_settle].
  destruct (f_visit f) as [visit|].
  - eapply keeps_trans; [|apply keeps_visit_all]. by apply keeps_same_heap.
  - by apply keeps_same_heap.
Qed.

Lemma later_keeps (w w' : world) : later w w' -> keeps w w'.
Proof.
  induction 1.
  - apply keeps_refl.
  - eapply keeps_trans; [exact IHlater|apply keeps_exec].
  - eapply keeps_trans; [exact IHlater|by eapply keeps_drain].
  - eapply keeps_trans; [exact IHlater|]. unfold advance in H0.
    eapply keeps_trans; [|by eapply keeps_fire]. by apply keeps_same_heap.
  - eapply keeps_trans; [exact IHlater|by eapply keeps_store_done].
  - eapply keeps_trans; [exact IHlater|]. unfold run in H0.
    eapply keeps_trans; [apply keeps_exec|by eapply keeps_drain].
  - eapply keeps_trans; [exact IHlater|]. unfold call in H0.
    pose proof (keeps_alloc Pending w1) as Ha.
    destruct (alloc Pending w1) as [w3 r]. cbn [fst] in *.
    destruct (drain n (exec p (Some r) w3)) as [w4|] eqn:Hd; [|done].
    injection H0 as <- <-.
    eapply keeps_trans; [exact Ha|].
    eapply keeps_trans; [apply keeps_exec|by eapply keeps_drain].
Qed.

Lemma spent_call_resolve (r : resolver) (v : val) (w : world) :
  (exists pr i, heap w !! r.1 = Some pr /\ flags pr !! r.2 = Some i) ->
  spent r (call_resolve r v w).
Proof.
  intros (pr & b & Hp & Hb). unfold call_resolve.
  destruct (flag_of r w) eqn:Hf.
  - exists pr. split; [done|]. unfold flag_of in Hf. unfold pid in *.
    rewrite Hp, Hb in Hf. simpl in Hf. by subst b.
  - apply keeps_resolve_with. by apply spent_set_flag.
Qed.

(** [#lockDirectory] in any world where the lock table holds a record for
    [d].  The timer is armed for 500 ms, and from the moment the executor
    has returned its callback is dead: in every later world, whatever
    commands, microtasks, timers and store completions have run by then,
    calling [reject] changes nothing.  The acquisition can fail in no
    world. *)
Theorem contended_timer_is_dead (d : string) (k : pid -> prog) (tgt : option pid)
    (w : world) (r : lockrec) :
  dir_get d (registry w) = Some r ->
  exists w',
    exec (NodePersist.lockDirectory d k) tgt w = exec (k (lock_promise w)) tgt w' /\
    timers w' =
      insert_timer ((clock w + 500)%Z,
                    Reject (length (heap w), 0%nat) (NodePersist.locked_message d) (Ret VUndef))
        (timers w) /\
    forall w'', later w' w'' ->
      exec (Reject (length (heap w), 0%nat) (NodePersist.locked_message d) (Ret VUndef))
        None w'' = w''.
Proof.
  intros Hd. unfold NodePersist.lockDirectory, lock_promise.
  cbn [exec alloc fst snd registry set_heap]. rewrite Hd.
  cbn [exec alloc then_ fst snd].
  set (w1 := set_timers _ _).
  set (w2 := call_resolve _ _ w1).
  assert (Hs : spent (length (heap w), 0%nat) w2).
  { apply spent_call_resolve. exists (fresh Pending), false. unfold w1.
    cbn [fst snd heap set_heap set_timers]. unfold pid in *.
    by rewrite list_lookup_middle. }
  assert (Hl : length (heap w2) = S (length (heap w))).
  { unfold w2. rewrite heap_length_call_resolve. unfold w1. cbn [heap set_timers set_heap].
    rewrite length_app. simpl. lia. }
  eexists. split; [rewrite Hl; reflexivity|].
  split.
  { destruct (same_outside_call_resolve (length (heap w), 0%nat) (VPromise (lock r)) w1)
      as (_ & Ht & _).
    assert (Hp : forall p rc x, timers (perform_then p rc x) = timers x).
    { intros p rc x. unfold perform_then. destruct (heap x !! p) as [pr|]; [|done].
      by destruct (st pr). }
    rewrite Hp. cbn [timers set_heap]. etransitivity; [exact Ht|reflexivity]. }
  intros w'' Hw''. cbn [exec finish]. unfold call_reject.
  rewrite (spent_flag (length (heap w), 0%nat) w''); [done|].
  apply (later_keeps _ _ Hw'').
  apply keeps_perform_then. apply (keeps_alloc Pending w2). exact Hs.
Qed.

(** A run of [contended_timer_is_dead]: the directory is held by a pending
    lock. *)
Lemma contended_timer_is_dead_witness :
  exists w',
    exec (NodePersist.lockDirectory "cache" (fun _ => Ret VUndef)) None
      (set_registry (dir_set "cache" {| lock := 0; unlock := (0%nat, 0%nat) |} ∅)
         (set_heap [fresh Pending] w0)) =
    exec (Ret VUndef) None w' /\
    timers w' =
      [(500%Z, Reject (1%nat, 0%nat) (NodePersist.locked_message "cache") (Ret VUndef))] /\
    forall w'', later w' w'' ->
      exec (Reject (1%nat, 0%nat) (NodePersist.locked_message "cache") (Ret VUndef))
        None w'' = w''.
Proof.
  apply (contended_timer_is_dead "cache" (fun _ => Ret VUndef) None
           (set_registry (dir_set "cache" {| lock := 0; unlock := (0%nat, 0%nat) |} ∅)
              (set_heap [fresh Pending] w0))
           {| lock := 0; unlock := (0%nat, 0%nat) |}).
  reflexivity.
Defined.

(* ===================================================================== *)
(** ** The write queue admits one call at a time *)
(* ===================================================================== *)


Lemma tame_mono (P : pid -> Prop) (p : prog) :
  tame P p -> forall Q : pid -> Prop, (forall x, P x -> Q x) -> tame Q p.
Proof.
  induction 1; intros Q HQ; try (constructor; eauto; fail).
  constructor; [|eauto].
  intros r. apply H0. intros x [Hx| ->]; [left; auto|by right].
Qed.

Lemma cap_ok_mono (P Q : pid -> Prop) (c : option pid) :
  (forall x, P x -> Q x) -> cap_ok P c -> cap_ok Q c.
Proof. destruct c; simpl; auto. Qed.

Lemma tame_reaction_mono (P Q : pid -> Prop) (rc : reaction) :
  (forall x, P x -> Q x) -> tame_reaction P rc -> tame_reaction Q rc.
Proof.
  intros HQ (H1 & H2 & H3). repeat split.
  - intros v. eapply tame_mono; eauto.
  - intros v. eapply tame_mono; eauto.
  - eapply cap_ok_mono; eauto.
Qed.

Lemma tame_job_mono (P Q : pid -> Prop) (j : job) :
  (forall x, P x -> Q x) -> tame_job P j -> tame_job Q j.
Proof.
  intros HQ [f arg cap H1 H2|p q H1]; constructor; auto.
  - eapply tame_mono; eauto.
  - eapply cap_ok_mono; eauto.
Qed.

Lemma handler_job_mono (P Q : pid -> Prop) (j : job) :
  (forall x, P x -> Q x) -> handler_job P j -> handler_job Q j.
Proof. intros HQ [j' v H1|j' v H1]; constructor; auto. Qed.

Lemma jobs_ok_mono (P Q : pid -> Prop) (n : nat) (m : list job) :
  (forall x, P x -> Q x) -> jobs_ok P n m -> jobs_ok Q n m.
Proof.
  intros HQ. induction 1.
  - constructor.
  - apply jobs_tame; [eapply tame_job_mono; eauto|auto].
  - apply jobs_handler; [eapply handler_job_mono; eauto|auto].
Qed.

Lemma jobs_ok_app (P : pid -> Prop) (n n' : nat) (m m' : list job) :
  jobs_ok P n m -> jobs_ok P n' m' -> jobs_ok P (n + n') (m ++ m').
Proof.
  induction 1; intros H'; simpl; auto.
  - apply jobs_tame; auto.
  - apply jobs_handler; auto.
Qed.

Lemma jobs_ok_tame_list (P : pid -> Prop) (m : list job) :
  Forall (tame_job P) m -> jobs_ok P 0 m.
Proof. induction 1; [constructor|by apply jobs_tame]. Qed.

Lemma safe_grows (w w' : world) (p : pid) :
  grows w w' -> safe_in w p -> safe_in w' p.
Proof.
  intros [Hlen HF] [Hp Hn]. split; [lia|].
  intros Hin. apply Hn. by apply HF.
Qed.

Lemma grows_refl (w : world) : grows w w.
Proof. split; [lia|tauto]. Qed.

Lemma grows_trans (w1 w2 w3 : world) : grows w1 w2 -> grows w2 w3 -> grows w1 w3.
Proof.
  intros [H1 H2] [H3 H4]. split; [lia|].
  intros p Hp. rewrite H4 by lia. by apply H2.
Qed.

Lemma hpids_same (w w' : world) : inflight w' = inflight w -> hpids w' = hpids w.
Proof. unfold hpids, queued_flights. by intros ->. Qed.

Lemma safe_in_same (w w' : world) :
  length (heap w') = length (heap w) -> inflight w' = inflight w ->
  safe_in w' = safe_in w.
Proof. unfold safe_in. intros -> H. by rewrite (hpids_same _ _ H). Qed.

Lemma grows_same (w w' : world) :
  length (heap w') = length (heap w) -> inflight w' = inflight w -> grows w w'.
Proof.
  intros Hl Hi. split; [lia|]. intros p _. by rewrite (hpids_same _ _ Hi).
Qed.

(** A step that allocates nothing and starts no call: new jobs are tame,
    the promises keep reactions that are in order. *)
Lemma inv_step (e : nat) (w w' : world) (js : list job) :
  inv e w ->
  length (heap w') = length (heap w) -> inflight w' = inflight w ->
  registry w' = registry w -> limiter_of 0 w' = limiter_of 0 w ->
  micro w' = micro w ++ js -> Forall (tame_job (safe_in w)) js ->
  (forall p pr', heap w' !! p = Some pr' ->
     promise_ok (length (heap w)) (hpids w) p pr') ->
  inv e w' /\ grows w w'.
Proof.
  intros [Hl Hh Hf Hr] Hlen Hin Hreg Hlim Hmic Hjs Hheap.
  split; [|by apply grows_same].
  pose proof (hpids_same _ _ Hin) as HF.
  pose proof (safe_in_same _ _ Hlen Hin) as HS.
  constructor.
  - destruct Hl as (l & k & H1 & H2 & H3 & H4 & H5).
    exists l, k. rewrite Hlim, Hlen, HF, HS, Hmic.
    unfold queued_flights. rewrite Hin.
    split; [done|]. split; [done|]. split; [|done].
    replace k with (k + 0)%nat by lia. apply jobs_ok_app; [done|].
    by apply jobs_ok_tame_list.
  - intros p pr Hp. rewrite Hlen, HF. by apply Hheap.
  - rewrite Hin, Hlen, HS. done.
  - intros d r. rewrite Hreg, HS. apply Hr.
Qed.

Lemma inv_enqueue (e : nat) (w : world) (j : job) :
  inv e w -> tame_job (safe_in w) j -> inv e (enqueue j w) /\ grows w (enqueue j w).
Proof.
  intros Hi Hj. apply (inv_step e w (enqueue j w) [j]); auto.
  apply (inv_heap _ _ Hi).
Qed.

Lemma promise_ok_insert (w : world) (p : pid) (pr' : promise) :
  (forall q pr, heap w !! q = Some pr -> promise_ok (length (heap w)) (hpids w) q pr) ->
  promise_ok (length (heap w)) (hpids w) p pr' ->
  forall q pr, <[p := pr']> (heap w) !! q = Some pr ->
    promise_ok (length (heap w)) (hpids w) q pr.
Proof.
  intros Hh Hp q pr Hq.
  destruct (decide (p = q)) as [->|Hne].
  - apply list_lookup_insert_Some in Hq as [(_ & -> & _)|(Hne & _)]; [done|done].
  - rewrite list_lookup_insert_ne in Hq by done. by apply Hh.
Qed.

Lemma inv_settle (e : nat) (w : world) (p : pid) (o : outcome) :
  inv e w -> ~ In p (hpids w) -> inv e (settle p o w) /\ grows w (settle p o w).
Proof.
  intros Hi Hp. unfold settle.
  destruct (heap w !! p) as [pr|] eqn:Hpr; [|split; [done|apply grows_refl]].
  destruct (st pr) eqn:Hst; try (split; [done|apply grows_refl]).
  pose proof (proj2 (inv_heap _ _ Hi p pr Hpr) Hp) as Hrs.
  apply (inv_step e w _
           (map (fun r => match o with
                          | inl v => JReact (r_ful r) v (r_cap r)
                          | inr e => JReact (r_rej r) e (r_cap r)
                          end) (reacts pr))); auto; simpl.
  - by rewrite length_insert.
  - apply Forall_map. eapply Forall_impl; [exact Hrs|].
    intros rc (H1 & H2 & H3). destruct o; constructor; auto.
  - apply promise_ok_insert; [apply (inv_heap _ _ Hi)|].
    split; [done|]. intros _. simpl. constructor.
Qed.

Lemma inv_same_reacts (e : nat) (w : world) (p : pid) (pr pr' : promise) :
  inv e w -> heap w !! p = Some pr -> reacts pr' = reacts pr -> st pr' = st pr ->
  inv e (set_heap (<[p := pr']> (heap w)) w) /\
  grows w (set_heap (<[p := pr']> (heap w)) w).
Proof.
  intros Hi Hp Hr Hs.
  apply (inv_step e w _ []); auto; simpl.
  - by rewrite length_insert.
  - by rewrite app_nil_r.
  - apply promise_ok_insert; [apply (inv_heap _ _ Hi)|].
    pose proof (inv_heap _ _ Hi p pr Hp) as Hok.
    unfold promise_ok in *. by rewrite Hr, Hs.
Qed.

Lemma inv_set_flag (e : nat) (w : world) (r : resolver) :
  inv e w -> inv e (set_flag r w) /\ grows w (set_flag r w).
Proof.
  intros Hi. unfold set_flag.
  destruct (heap w !! r.1) as [pr|] eqn:Hpr; [|split; [done|apply grows_refl]].
  eapply inv_same_reacts; eauto.
Qed.

Lemma inv_new_pair (e : nat) (w : world) (p : pid) :
  inv e w -> inv e (new_pair p w).1 /\ grows w (new_pair p w).1 /\ (new_pair p w).2.1 = p.
Proof.
  intros Hi. unfold new_pair.
  destruct (heap w !! p) as [pr|] eqn:Hpr; simpl; [|split; [done|split; [apply grows_refl|done]]].
  destruct (inv_same_reacts e w p pr
              {| st := st pr; flags := flags pr ++ [false]; reacts := reacts pr |}
              Hi Hpr eq_refl eq_refl) as [H1 H2].
  split; [exact H1|split; [exact H2|reflexivity]].
Qed.

Lemma inv_resolve_with (e : nat) (w : world) (p : pid) (v : val) :
  inv e w -> safe_in w p -> inv e (resolve_with p v w) /\ grows w (resolve_with p v w).
Proof.
  intros Hi Hp. unfold resolve_with.
  destruct v; try (apply inv_settle; [done|apply Hp]).
  destruct (p =? p0)%nat; [apply inv_settle; [done|apply Hp]|].
  apply inv_enqueue; [done|]. by constructor.
Qed.

Lemma inv_call_resolve (e : nat) (w : world) (r : resolver) (v : val) :
  inv e w -> safe_in w r.1 -> inv e (call_resolve r v w) /\ grows w (call_resolve r v w).
Proof.
  intros Hi Hp. unfold call_resolve.
  destruct (flag_of r w); [split; [done|apply grows_refl]|].
  destruct (inv_set_flag e w r Hi) as [H1 H2].
  destruct (inv_resolve_with e (set_flag r w) r.1 v H1 (safe_grows _ _ _ H2 Hp)) as [H3 H4].
  split; [done|]. eapply grows_trans; eauto.
Qed.

Lemma inv_call_reject (e : nat) (w : world) (r : resolver) (x : val) :
  inv e w -> safe_in w r.1 -> inv e (call_reject r x w) /\ grows w (call_reject r x w).
Proof.
  intros Hi Hp. unfold call_reject.
  destruct (flag_of r w); [split; [done|apply grows_refl]|].
  destruct (inv_set_flag e w r Hi) as [H1 H2].
  destruct (inv_settle e (set_flag r w) r.1 (inr x) H1) as [H3 H4].
  { apply (safe_grows _ _ _ H2 Hp). }
  split; [done|]. eapply grows_trans; eauto.
Qed.

Lemma inv_finish (e : nat) (w : world) (tgt : option pid) (o : outcome) :
  inv e w -> cap_ok (safe_in w) tgt -> inv e (finish tgt o w) /\ grows w (finish tgt o w).
Proof.
  intros Hi Hc. destruct tgt as [t|]; simpl; [|split; [done|apply grows_refl]].
  destruct o; [by apply inv_call_resolve|by apply inv_call_reject].
Qed.

Lemma inv_perform_then (e : nat) (w : world) (p : pid) (rc : reaction) :
  inv e w -> tame_reaction (safe_in w) rc ->
  inv e (perform_then p rc w) /\ grows w (perform_then p rc w).
Proof.
  intros Hi Hrc. unfold perform_then.
  destruct (heap w !! p) as [pr|] eqn:Hpr; [|split; [done|apply grows_refl]].
  destruct (st pr) eqn:Hst.
  - apply (inv_step e w _ []); auto; simpl.
    + by rewrite length_insert.
    + by rewrite app_nil_r.
    + apply promise_ok_insert; [apply (inv_heap _ _ Hi)|].
      destruct (inv_heap _ _ Hi p pr Hpr) as [H1 H2].
      split; simpl.
      * intros Hin. destruct (H1 Hin) as (_ & j & rest & -> & Hj & Hrest).
        split; [done|].
        exists j, (rest ++ [rc]). split; [done|]. split; [done|].
        apply Forall_app. split; [done|]. by constructor.
      * intros Hnin. apply Forall_app. split; [auto|]. by constructor.
  - apply inv_enqueue; [done|]. destruct Hrc as (H1 & H2 & H3). by constructor.
  - apply inv_enqueue; [done|]. destruct Hrc as (H1 & H2 & H3). by constructor.
Qed.

Lemma limiter_ok_mono (n n' : nat) (F F' : list pid) (l : limiter) :
  (forall p, safe n F p -> safe n' F' p) -> limiter_ok n F l -> limiter_ok n' F' l.
Proof.
  intros HS (H1 & H2 & H3). split; [done|]. split.
  - eapply Forall_impl; [exact H2|]. intros [c j] [Hc Hj]. split; auto.
  - eapply Forall_impl; [exact H3|]. intros r Hr. auto.
Qed.

Lemma hpids_fresh (e : nat) (w : world) (p : pid) :
  inv e w -> In p (hpids w) -> (p < length (heap w))%nat.
Proof.
  intros Hi Hp. unfold hpids, queued_flights in Hp.
  apply in_map_iff in Hp as (f & <- & Hf).
  apply filter_In in Hf as [Hf _].
  by apply (proj2 (inv_flights _ _ Hi) f Hf).
Qed.

(** The world after changes that keep the calls in flight and the table,
    and add promises without reactions. *)
Lemma inv_extend (e : nat) (w w' : world) (s : pstate) :
  inv e w ->
  heap w' = heap w ++ [fresh s] -> inflight w' = inflight w ->
  registry w' = registry w -> limiter_of 0 w' = limiter_of 0 w -> micro w' = micro w ->
  inv e w' /\ grows w w' /\ safe_in w' (length (heap w)).
Proof.
  intros Hi Hh Hin Hreg Hlim Hmic.
  pose proof (hpids_same _ _ Hin) as HF.
  assert (Hlen : length (heap w') = S (length (heap w))).
  { rewrite Hh, length_app. simpl. lia. }
  assert (HS : forall p, safe_in w p -> safe_in w' p).
  { intros p [H1 H2]. unfold safe_in. rewrite Hlen, HF. split; [lia|done]. }
  destruct Hi as [Hl Hhp Hf Hr] eqn:Ei.
  split; [|split].
  - constructor.
    + destruct Hl as (l & k & H1 & H2 & H3 & H4 & H5).
      exists l, k. rewrite Hlim, Hmic. unfold queued_flights. rewrite Hin.
      split; [done|]. split; [eapply limiter_ok_mono; [|exact H2]; apply HS|].
      split; [eapply jobs_ok_mono; [|exact H3]; apply HS|done].
    + intros p pr Hp. rewrite Hh in Hp.
      apply lookup_app_Some in Hp as [Hp|[Hge Hp]].
      * destruct (Hhp p pr Hp) as [H1 H2]. split.
        -- intros Hin'. rewrite HF in Hin'.
           destruct (H1 Hin') as (Hst & j & rest & Hj & Hs & Hrest).
           split; [done|].
           exists j, rest. split; [done|]. split; [by apply HS|].
           eapply Forall_impl; [exact Hrest|]. intros rc. apply tame_reaction_mono, HS.
        -- intros Hnin. rewrite HF in Hnin.
           eapply Forall_impl; [exact (H2 Hnin)|]. intros rc. apply tame_reaction_mono, HS.
      * destruct (p - length (heap w))%nat eqn:Hd; [|by destruct n].
        simpl in Hp. injection Hp as <-. split.
        -- intros Hin'. rewrite HF in Hin'.
           pose proof (hpids_fresh e w p ltac:(by constructor) Hin'). lia.
        -- intros _. simpl. constructor.
    + rewrite Hin. destruct Hf as [Hnd Hf]. split; [done|].
      intros f Hfin. destruct (Hf f Hfin) as (H1 & H2 & H3).
      split; [lia|]. split; [done|].
      intros visit Hv x. eapply tame_mono; [by eapply H3|apply HS].
    + intros d r. rewrite Hreg. intros Hd. apply HS. by eapply Hr.
  - split; [lia|]. intros p _. by rewrite HF.
  - unfold safe_in. rewrite Hlen, HF. split; [lia|].
    intros Hin'. pose proof (hpids_fresh e w _ ltac:(by constructor) Hin'). lia.
Qed.

Lemma inv_alloc (e : nat) (w : world) (s : pstate) :
  inv e w ->
  inv e (alloc s w).1 /\ grows w (alloc s w).1 /\ safe_in (alloc s w).1 (alloc s w).2.
Proof. intros Hi. by apply (inv_extend e w _ s). Qed.

Lemma inv_then (e : nat) (w : world) (p : pid) (onF onR : val -> prog) :
  inv e w ->
  (forall v, tame (safe_in w) (onF v)) -> (forall v, tame (safe_in w) (onR v)) ->
  inv e (then_ p onF onR w).1 /\ grows w (then_ p onF onR w).1 /\
  safe_in (then_ p onF onR w).1 (then_ p onF onR w).2.
Proof.
  intros Hi HF HR. unfold then_.
  destruct (inv_alloc e w Pending Hi) as (H1 & H2 & H3).
  destruct (alloc Pending w) as [w1 q] eqn:Ha. simpl in *.
  destruct (inv_perform_then e w1 p {| r_ful := onF; r_rej := onR; r_cap := Some q |} H1)
    as [H4 H5].
  { split; [|split]; simpl.
    - intros v. eapply tame_mono; [apply HF|]. intros x. by apply safe_grows.
    - intros v. eapply tame_mono; [apply HR|]. intros x. by apply safe_grows.
    - exact H3. }
  split; [done|]. split; [eapply grows_trans; eauto|].
  by apply (safe_grows _ _ _ H5).
Qed.

Lemma inv_await_on (e : nat) (w : world) (v : val) (k : val -> prog) (tgt : option pid) :
  inv e w -> (forall x, tame (safe_in w) (k x)) -> cap_ok (safe_in w) tgt ->
  inv e (await_on v k tgt w) /\ grows w (await_on v k tgt w).
Proof.
  intros Hi Hk Hc. unfold await_on.
  set (rc := {| r_ful := k; r_rej := Throw; r_cap := tgt |}).
  assert (Hrc : forall w', grows w w' -> tame_reaction (safe_in w') rc).
  { intros w' Hg. split; [|split]; simpl.
    - intros x. eapply tame_mono; [apply Hk|]. intros y. by apply safe_grows.
    - intros x. constructor.
    - eapply cap_ok_mono; [|exact Hc]. intros y. by apply safe_grows. }
  assert (Hwrap : forall s,
            inv e (let '(w1, q) := alloc s w in perform_then q rc w1) /\
            grows w (let '(w1, q) := alloc s w in perform_then q rc w1)).
  { intros s. destruct (inv_alloc e w s Hi) as (H1 & H2 & H3).
    destruct (alloc s w) as [w1 q] eqn:Ha. simpl in *.
    destruct (inv_perform_then e w1 q rc H1 (Hrc w1 H2)) as [H4 H5].
    split; [done|eapply grows_trans; eauto]. }
  destruct v; try apply Hwrap.
  apply inv_perform_then; [done|apply Hrc, grows_refl].
Qed.

Lemma limiter_of_update (w : world) (l l' : limiter) :
  limiter_of 0 w = Some l ->
  limiter_of 0 (update_engine 0 (with_limiter l') w) = Some l'.
Proof.
  unfold limiter_of, update_engine.
  destruct (engines w !! 0%nat) as [en|] eqn:He; [|done].
  intros _. simpl. rewrite list_lookup_insert_eq; [done|].
  by eapply lookup_lt_Some.
Qed.

Lemma inv_with_limiter (e e' : nat) (w : world) (l l' : limiter) :
  inv e w -> limiter_of 0 w = Some l ->
  limiter_ok (length (heap w)) (hpids w) l' ->
  (running l + e' = running l' + e)%nat -> (running l' <= 1)%nat ->
  inv e' (update_engine 0 (with_limiter l') w) /\
  grows w (update_engine 0 (with_limiter l') w).
Proof.
  intros Hi Hl Hok Hrun Hmax.
  pose proof (limiter_of_update w l l' Hl) as Hl'.
  assert (Hsame : heap (update_engine 0 (with_limiter l') w) = heap w /\
                  inflight (update_engine 0 (with_limiter l') w) = inflight w /\
                  micro (update_engine 0 (with_limiter l') w) = micro w /\
                  registry (update_engine 0 (with_limiter l') w) = registry w).
  { unfold update_engine. by destruct (engines w !! 0%nat). }
  destruct Hsame as (Hh & Hin & Hmic & Hreg).
  pose proof (hpids_same _ _ Hin) as HF.
  assert (HS : safe_in (update_engine 0 (with_limiter l') w) = safe_in w).
  { apply safe_in_same; [by rewrite Hh|done]. }
  split; [|apply grows_same; [by rewrite Hh|done]].
  destruct Hi as [Hlim Hhp Hf Hr].
  constructor.
  - destruct Hlim as (l0 & k & H1 & H2 & H3 & H4 & H5).
    rewrite Hl in H1. injection H1 as <-.
    exists l', k. rewrite Hh, HF, HS, Hmic. unfold queued_flights. rewrite Hin.
    split; [done|]. split; [done|]. split; [done|].
    unfold queued_flights in H4. lia.
  - rewrite Hh, HF. done.
  - rewrite Hin, Hh, HS. done.
  - rewrite Hreg, HS. done.
Qed.

Lemma inv_update_other (e : nat) (w : world) (f : list (list row)) :
  inv e w -> inv e (set_arrays f w) /\ grows w (set_arrays f w).
Proof.
  intros Hi. apply (inv_step e w _ []); auto; simpl.
  - by rewrite app_nil_r.
  - apply (inv_heap _ _ Hi).
Qed.

Lemma inv_dir_delete (e : nat) (w : world) (d : string) :
  inv e w ->
  inv e (set_registry (dir_delete d (registry w)) w) /\
  grows w (set_registry (dir_delete d (registry w)) w).
Proof.
  intros [Hl Hh Hf Hr]. split; [|by apply grows_same].
  constructor; try done.
  intros d' r. simpl. unfold dir_delete. intros Hd.
  apply lookup_delete_Some in Hd as [_ Hd]. by eapply Hr.
Qed.

Lemma safe_more (n : nat) (F : list pid) (p : pid) : safe n F p -> safe (S n) F p.
Proof. intros [H1 H2]. split; [lia|done]. Qed.

(** A call handed to the store directly, as [load] does. *)
Lemma inv_start_load (e : nat) (w : world) (this : nat) (c : store_call)
    (visit : option (datum -> prog)) :
  inv e w -> queue_call c = false ->
  (forall v, visit = Some v -> forall x, tame (safe_in w) (v x)) ->
  inv e (start_call this c visit w).1 /\ grows w (start_call this c visit w).1.
Proof.
  intros Hi Hc Hv. unfold start_call, alloc. simpl.
  set (w' := set_store_log _ _).
  assert (HF : hpids w' = hpids w).
  { unfold hpids, queued_flights, w'. simpl. rewrite List.filter_app. simpl. rewrite Hc.
    by rewrite app_nil_r. }
  assert (Hlen : length (heap w') = S (length (heap w))).
  { unfold w'. simpl. rewrite length_app. simpl. lia. }
  assert (HS : forall p, safe_in w p -> safe_in w' p).
  { intros p [H1 H2]. unfold safe_in. rewrite Hlen, HF. split; [lia|done]. }
  destruct Hi as [Hl Hhp Hf Hr] eqn:Ei.
  split.
  - constructor.
    + destruct Hl as (l & k & H1 & H2 & H3 & H4 & H5).
      exists l, k. split; [exact H1|].
      split; [rewrite Hlen, HF; eapply limiter_ok_mono; [|exact H2]; apply safe_more|].
      split; [eapply jobs_ok_mono; [|exact H3]; apply HS|].
      split; [|done]. fold (hpids w) in *.
      replace (length (queued_flights w')) with (length (queued_flights w)); [done|].
      unfold queued_flights, w'. simpl. rewrite List.filter_app. simpl. rewrite Hc.
      by rewrite app_nil_r.
    + intros p pr Hp. rewrite Hlen, HF. unfold w' in Hp. simpl in Hp.
      apply lookup_app_Some in Hp as [Hp|[Hge Hp]].
      * destruct (Hhp p pr Hp) as [H1 H2]. split.
        -- intros Hin'. destruct (H1 Hin') as (Hst & j & rest & Hj & Hs & Hrest).
           split; [done|].
           exists j, rest. split; [done|]. split; [by apply safe_more|].
           eapply Forall_impl; [exact Hrest|]. intros rc. apply tame_reaction_mono, safe_more.
        -- intros Hnin.
           eapply Forall_impl; [exact (H2 Hnin)|]. intros rc. apply tame_reaction_mono, safe_more.
      * destruct (p - length (heap w))%nat eqn:Hd; [|by destruct n].
        simpl in Hp. injection Hp as <-. split.
        -- intros Hin'.
           pose proof (hpids_fresh e w p ltac:(by constructor) Hin'). lia.
        -- intros _. simpl. constructor.
    + destruct Hf as [Hnd Hf]. split.
      * unfold w'. simpl. rewrite map_app. simpl. apply NoDup_app. split; [done|].
        split; [|apply NoDup_singleton].
        intros x Hx Hx'. apply list_elem_of_singleton in Hx'. subst x.
        apply list_elem_of_In, in_map_iff in Hx as (f & Hfp & Hfin).
        destruct (Hf f Hfin) as (H1 & _). lia.
      * intros f Hfin. unfold w' in Hfin. simpl in Hfin.
        apply in_app_iff in Hfin as [Hfin|[<-|[]]].
        -- destruct (Hf f Hfin) as (H1 & H2 & H3).
           split; [lia|]. split; [done|].
           intros v Hv' x. eapply tame_mono; [by eapply H3|apply HS].
        -- cbn [f_promise f_call f_visit]. split; [lia|]. split; [by rewrite Hc|].
           intros v Hv' x. eapply tame_mono; [by eapply Hv|apply HS].
    + intros d r Hd. apply HS. by eapply Hr.
  - split; [lia|]. intros p _. by rewrite HF.
Qed.

Lemma queued_none (e : nat) (w : world) (l : limiter) :
  inv e w -> limiter_of 0 w = Some l -> running l = 0%nat ->
  queued_flights w = [] /\ e = 0%nat /\ jobs_ok (safe_in w) 0 (micro w).
Proof.
  intros Hi Hl Hr. destruct (inv_limiter _ _ Hi) as (l0 & k & H1 & H2 & H3 & H4 & H5).
  rewrite Hl in H1. injection H1 as <-.
  assert (k = 0%nat) as -> by lia.
  split; [|split; [lia|done]].
  destruct (queued_flights w); [done|simpl in H4; lia].
Qed.

(** The queue starts its oldest waiting task: the store call is in flight
    and its promise carries the handler of the queue. *)
Lemma inv_started (w w' : world) (l : limiter) (c : store_call) (j : pid)
    (rest : list (store_call * pid)) :
  inv 0 w -> limiter_of 0 w = Some l -> waiting l = (c, j) :: rest -> running l = 0%nat ->
  limiter_of 0 w' =
    Some {| maxConcurrent := maxConcurrent l; waiting := rest; running := 1;
            stopped := stopped l; draining := draining l |} ->
  heap w' = heap w ++ [{| st := Pending; flags := [false]; reacts := [handler j] |}] ->
  inflight w' = inflight w ++
    [{| f_this := 0; f_call := c; f_promise := length (heap w); f_visit := None |}] ->
  micro w' = micro w -> registry w' = registry w ->
  inv 0 w' /\ grows w w'.
Proof.
  intros Hi Hl Hw Hrun Hl' Hh Hin Hmic Hreg.
  destruct (queued_none 0 w l Hi Hl Hrun) as (Hq & _ & Hjobs).
  destruct (inv_limiter _ _ Hi) as (l0 & k & H1 & H2 & H3 & H4 & H5).
  rewrite Hl in H1. injection H1 as <-.
  destruct H2 as (Hmax & Hwait & Hdr). rewrite Hw in Hwait.
  apply Forall_cons in Hwait as [[Hc Hj] Hwait]. simpl in Hc, Hj.
  assert (HF0 : hpids w = []) by (unfold hpids; by rewrite Hq).
  assert (Hq' : queued_flights w' =
                [{| f_this := 0; f_call := c; f_promise := length (heap w); f_visit := None |}]).
  { unfold queued_flights in *. rewrite Hin, List.filter_app, Hq. simpl. by rewrite Hc. }
  assert (HF : hpids w' = [length (heap w)]) by (unfold hpids; by rewrite Hq').
  assert (Hlen : length (heap w') = S (length (heap w))).
  { rewrite Hh, length_app. simpl. lia. }
  assert (HS : forall p, safe_in w p -> safe_in w' p).
  { intros p [Hp1 Hp2]. unfold safe_in. rewrite Hlen, HF. split; [lia|].
    intros [Hp|[]]. lia. }
  unfold safe_in in HS. rewrite Hlen, HF, HF0 in HS.
  rewrite HF0 in *.
  split.
  - constructor.
    + eexists _, 0%nat. rewrite Hl', Hlen, HF, Hq', Hmic. split; [done|].
      split; [|split; [|simpl; lia]].
      * split; [done|]. simpl. split.
        -- eapply Forall_impl; [exact Hwait|]. intros [c' j'] [Hc' Hj']. split; auto.
        -- eapply Forall_impl; [exact Hdr|]. intros r Hr. simpl in Hr. auto.
      * unfold safe_in. rewrite Hlen, HF. eapply jobs_ok_mono; [|exact Hjobs].
        unfold safe_in. rewrite HF0. exact HS.
    + intros p pr Hp. rewrite Hlen, HF. rewrite Hh in Hp.
      apply lookup_app_Some in Hp as [Hp|[Hge Hp]].
      * pose proof (lookup_lt_Some _ _ _ Hp) as Hlt.
        destruct (inv_heap _ _ Hi p pr Hp) as [_ Hok]. rewrite HF0 in Hok. split.
        -- intros [Heq|[]]. lia.
        -- intros _. eapply Forall_impl; [exact (Hok ltac:(tauto))|].
           intros rc. apply tame_reaction_mono. exact HS.
      * destruct (p - length (heap w))%nat eqn:Hd; [|by destruct n].
        simpl in Hp. injection Hp as <-. split.
        -- intros _. split; [done|].
           exists j, []. simpl. split; [done|]. split; [by apply HS|constructor].
        -- intros Hn. exfalso. apply Hn. left. lia.
    + destruct (inv_flights _ _ Hi) as [Hnd Hf]. rewrite Hin. split.
      * rewrite map_app. simpl. apply NoDup_app. split; [done|].
        split; [|apply NoDup_singleton].
        intros x Hx Hx'. apply list_elem_of_singleton in Hx'. subst x.
        apply list_elem_of_In, in_map_iff in Hx as (f & Hfp & Hfin).
        destruct (Hf f Hfin) as (Hlt & _). lia.
      * intros f Hfin.
        apply in_app_iff in Hfin as [Hfin|[<-|[]]].
        -- destruct (Hf f Hfin) as (G1 & G2 & G3).
           split; [lia|]. split; [done|].
           intros v Hv' x. eapply tame_mono; [by eapply G3|].
           unfold safe_in. rewrite Hlen, HF, HF0. exact HS.
        -- cbn [f_promise f_call f_visit]. split; [lia|]. split; [done|]. intros v [=].
    + intros d r Hd. rewrite Hreg in Hd. unfold safe_in. rewrite Hlen, HF.
      apply HS. pose proof (inv_registry _ _ Hi d r Hd) as Hs.
      unfold safe_in in Hs. by rewrite HF0 in Hs.
  - split; [lia|]. intros p Hp. rewrite HF. split.
    + intros [Heq|[]]. lia.
    + unfold hpids. rewrite Hq. intros [].
Qed.

(** The promise operations leave the engines alone. *)
Lemma engines_settle (p : pid) (o : outcome) (w : world) : engines (settle p o w) = engines w.
Proof. unfold settle. by repeat case_match. Qed.

Lemma engines_set_flag (r : resolver) (w : world) : engines (set_flag r w) = engines w.
Proof. unfold set_flag. by case_match. Qed.

Lemma engines_new_pair (p : pid) (w : world) : engines (new_pair p w).1 = engines w.
Proof. unfold new_pair. by case_match. Qed.

Lemma engines_resolve_with (p : pid) (v : val) (w : world) :
  engines (resolve_with p v w) = engines w.
Proof. unfold resolve_with. repeat case_match; by rewrite ?engines_settle. Qed.

Lemma engines_call_resolve (r : resolver) (v : val) (w : world) :
  engines (call_resolve r v w) = engines w.
Proof.
  unfold call_resolve. case_match; [done|].
  by rewrite engines_resolve_with, engines_set_flag.
Qed.

Lemma engines_call_reject (r : resolver) (x : val) (w : world) :
  engines (call_reject r x w) = engines w.
Proof.
  unfold call_reject. case_match; [done|]. by rewrite engines_settle, engines_set_flag.
Qed.

Lemma engines_perform_then (p : pid) (rc : reaction) (w : world) :
  engines (perform_then p rc w) = engines w.
Proof. unfold perform_then. by repeat case_match. Qed.

Lemma engines_then (p : pid) (onF onR : val -> prog) (w : world) :
  engines (then_ p onF onR w).1 = engines w.
Proof. unfold then_. simpl. by rewrite engines_perform_then. Qed.

Lemma engines_await_on (v : val) (k : val -> prog) (tgt : option pid) (w : world) :
  engines (await_on v k tgt w) = engines w.
Proof. unfold await_on. destruct v; simpl; by rewrite engines_perform_then. Qed.

Lemma engines_finish (tgt : option pid) (o : outcome) (w : world) :
  engines (finish tgt o w) = engines w.
Proof.
  unfold finish. destruct tgt as [t|]; [|done].
  destruct o; [apply engines_call_resolve|apply engines_call_reject].
Qed.

Lemma engines_resolve_all (rs : list resolver) (w : world) :
  engines (fold_left (fun w r => call_resolve r VUndef w) rs w) = engines w.
Proof.
  revert w. induction rs as [|r rs IH]; intros w; simpl; [done|].
  by rewrite IH, engines_call_resolve.
Qed.

Lemma settled_same (w w' : world) :
  engines w' = engines w -> queue_settled w -> queue_settled w'.
Proof. unfold queue_settled, limiter_of. by intros ->. Qed.

Lemma settled_with_limiter (w : world) (l l' : limiter) :
  limiter_of 0 w = Some l -> waiting l' = waiting l -> running l' = running l ->
  queue_settled w -> queue_settled (update_engine 0 (with_limiter l') w).
Proof.
  intros Hl Hw Hr Hs l0 Hl0. rewrite (limiter_of_update w l l' Hl) in Hl0.
  injection Hl0 as <-. rewrite Hw, Hr. by apply Hs.
Qed.

Lemma limiter_of_alloc (s : pstate) (w : world) :
  limiter_of 0 (alloc s w).1 = limiter_of 0 w.
Proof. done. Qed.

Lemma inv_limiter_ok (e : nat) (w : world) (l : limiter) :
  inv e w -> limiter_of 0 w = Some l ->
  limiter_ok (length (heap w)) (hpids w) l /\ (running l <= 1)%nat.
Proof.
  intros Hi Hl. destruct (inv_limiter _ _ Hi) as (l0 & k & H1 & H2 & H3 & H4 & H5).
  rewrite Hl in H1. by injection H1 as <-.
Qed.

Lemma inv_dispatch (fuel : nat) (w : world) :
  inv 0 w ->
  inv 0 (dispatch fuel 0 w) /\ grows w (dispatch fuel 0 w) /\
  ((length (default [] (waiting <$> limiter_of 0 w)) < fuel)%nat ->
   queue_settled (dispatch fuel 0 w)).
Proof.
  revert w. induction fuel as [|fuel IH]; intros w Hi;
    [split; [done|split; [apply grows_refl|lia]]|].
  cbn [dispatch].
  destruct (limiter_of 0 w) as [l|] eqn:Hl;
    [|split; [done|split; [apply grows_refl|]]; intros _ l; congruence].
  destruct (waiting l) as [|[c j] rest] eqn:Hw.
  { split; [done|split; [apply grows_refl|]]. intros _ l0 Hl0.
    rewrite Hl in Hl0. injection Hl0 as <-. by rewrite Hw. }
  destruct (inv_limiter_ok 0 w l Hi Hl) as [[Hmax _] Hle].
  destruct (running l <? maxConcurrent l)%nat eqn:Hlt.
  2: { split; [done|split; [apply grows_refl|]]. intros _ l0 Hl0 _.
       rewrite Hl in Hl0. injection Hl0 as <-. apply Nat.ltb_ge in Hlt. lia. }
  assert (Hrun : running l = 0%nat) by (apply Nat.ltb_lt in Hlt; lia).
  set (l' := {| maxConcurrent := maxConcurrent l; waiting := rest; running := S (running l);
                stopped := stopped l; draining := draining l |}).
  set (wa := update_engine 0 (with_limiter l') w).
  assert (Hsame : heap wa = heap w /\ inflight wa = inflight w /\
                  micro wa = micro w /\ registry wa = registry w).
  { unfold wa, update_engine. by destruct (engines w !! 0%nat). }
  destruct Hsame as (Hh & Hin & Hmic & Hreg).
  pose proof (limiter_of_update w l l' Hl) as Hl'. fold wa in Hl'.
  unfold start_call, alloc. simpl.
  set (w' := perform_then _ _ _).
  assert (Hlw' : limiter_of 0 w' =
                 Some {| maxConcurrent := maxConcurrent l; waiting := rest; running := 1;
                         stopped := stopped l; draining := draining l |}).
  { unfold w', perform_then. simpl. rewrite Hh.
    rewrite list_lookup_middle by done. simpl. unfold l' in Hl'. by rewrite Hrun in Hl'. }
  assert (Hw' : inv 0 w' /\ grows w w').
  { apply (inv_started w w' l c j rest Hi Hl Hw Hrun Hlw').
    - unfold w', perform_then. simpl. rewrite Hh.
      rewrite list_lookup_middle by done. simpl.
      rewrite insert_app_r_alt by lia. by rewrite Nat.sub_diag.
    - unfold w', perform_then. simpl. rewrite Hh.
      rewrite list_lookup_middle by done. simpl. by rewrite Hin.
    - unfold w', perform_then. simpl. rewrite Hh.
      rewrite list_lookup_middle by done. simpl. done.
    - unfold w', perform_then. simpl. rewrite Hh.
      rewrite list_lookup_middle by done. simpl. done. }
  destruct Hw' as [H1 H2]. destruct (IH w' H1) as (H3 & H4 & H5).
  split; [done|]. split; [eapply grows_trans; eauto|].
  intros Hf. apply H5. rewrite Hlw'. simpl in Hf. rewrite Hw in Hf. simpl in *. lia.
Qed.

Lemma limiter_ok_grows (w w' : world) (l : limiter) :
  grows w w' -> limiter_ok (length (heap w)) (hpids w) l ->
  limiter_ok (length (heap w')) (hpids w') l.
Proof. intros Hg. apply limiter_ok_mono. intros p. by apply (safe_grows w w'). Qed.

Lemma inv_schedule (w : world) (l : limiter) (c : store_call) :
  inv 0 w -> limiter_of 0 w = Some l -> queue_call c = true ->
  inv 0 (schedule l 0 c w).1 /\ grows w (schedule l 0 c w).1 /\
  (queue_settled w -> queue_settled (schedule l 0 c w).1).
Proof.
  intros Hi Hl Hc. unfold schedule.
  destruct (stopped l).
  { destruct (inv_alloc 0 w (Rejected (VErr "This limiter has been stopped.")) Hi)
      as (H1 & H2 & _).
    done. }
  destruct (inv_alloc 0 w Pending Hi) as (H1 & H2 & H3).
  pose proof (limiter_of_alloc Pending w) as Hl1. rewrite Hl in Hl1.
  destruct (alloc Pending w) as [w1 j] eqn:Ha. simpl in *.
  destruct (inv_limiter_ok 0 w l Hi Hl) as [Hok Hrun].
  set (l' := {| maxConcurrent := maxConcurrent l; waiting := waiting l ++ [(c, j)];
                running := running l; stopped := false; draining := draining l |}).
  destruct (inv_with_limiter 0 0 w1 l l' H1 Hl1) as [H4 H5].
  { apply (limiter_ok_grows w w1 l H2) in Hok. destruct Hok as (G1 & G2 & G3).
    split; [done|]. split; [|done]. simpl. apply Forall_app. split; [done|].
    constructor; [|constructor]. by split. }
  { simpl. lia. }
  { done. }
  destruct (inv_dispatch
              (S (length (default [] (waiting <$>
                   limiter_of 0 (update_engine 0 (with_limiter l') w1)))))
              _ H4) as (H6 & H7 & H8).
  split; [exact H6|].
  split; [eapply grows_trans; [exact H2|]; eapply grows_trans; eauto|].
  intros _. apply H8. lia.
Qed.

Lemma inv_stop (w : world) (l : limiter) :
  inv 0 w -> limiter_of 0 w = Some l ->
  inv 0 (stop l 0 w).1 /\ grows w (stop l 0 w).1.
Proof.
  intros Hi Hl. unfold stop.
  destruct (inv_limiter_ok 0 w l Hi Hl) as [Hok Hrun].
  assert (Hidle :
    inv 0 (if idle l
           then alloc (Fulfilled VUndef)
                  (update_engine 0
                     (with_limiter
                        {| maxConcurrent := maxConcurrent l; waiting := waiting l;
                           running := running l; stopped := true;
                           draining := draining l |}) w)
           else
             let '(w1, s) := alloc Pending w in
             (update_engine 0
                (with_limiter
                   {| maxConcurrent := maxConcurrent l; waiting := waiting l;
                      running := running l; stopped := true;
                      draining := draining l ++ [(s, 0%nat)] |}) w1, s)).1 /\
    grows w
          (if idle l
           then alloc (Fulfilled VUndef)
                  (update_engine 0
                     (with_limiter
                        {| maxConcurrent := maxConcurrent l; waiting := waiting l;
                           running := running l; stopped := true;
                           draining := draining l |}) w)
           else
             let '(w1, s) := alloc Pending w in
             (update_engine 0
                (with_limiter
                   {| maxConcurrent := maxConcurrent l; waiting := waiting l;
                      running := running l; stopped := true;
                      draining := draining l ++ [(s, 0%nat)] |}) w1, s)).1).
  { destruct (idle l).
    - destruct (inv_with_limiter 0 0 w l
                  {| maxConcurrent := maxConcurrent l; waiting := waiting l;
                     running := running l; stopped := true; draining := draining l |}
                  Hi Hl) as [H1 H2]; [done|simpl; lia|done|].
      destruct (inv_alloc 0 _ (Fulfilled VUndef) H1) as (H3 & H4 & _).
      split; [done|eapply grows_trans; eauto].
    - destruct (inv_alloc 0 w Pending Hi) as (H1 & H2 & H3).
      pose proof (limiter_of_alloc Pending w) as Hl1. rewrite Hl in Hl1.
      destruct (alloc Pending w) as [w1 s] eqn:Ha. simpl in *.
      destruct (inv_with_limiter 0 0 w1 l
                  {| maxConcurrent := maxConcurrent l; waiting := waiting l;
                     running := running l; stopped := true;
                     draining := draining l ++ [(s, 0%nat)] |} H1 Hl1) as [H4 H5].
      + apply (limiter_ok_grows w w1 l H2) in Hok. destruct Hok as (G1 & G2 & G3).
        split; [done|]. split; [done|]. simpl. apply Forall_app. split; [done|].
        constructor; [done|constructor].
      + simpl. lia.
      + done.
      + split; [done|eapply grows_trans; eauto]. }
  destruct (stopped l); [|exact Hidle].
  destruct (restop w) as [x|]; [|exact Hidle].
  destruct (inv_alloc 0 w (Rejected x) Hi) as (H1 & H2 & _). done.
Qed.

Lemma inv_resolve_all (rs : list resolver) (w : world) :
  inv 0 w -> Forall (fun r => safe_in w r.1) rs ->
  inv 0 (fold_left (fun w r => call_resolve r VUndef w) rs w) /\
  grows w (fold_left (fun w r => call_resolve r VUndef w) rs w).
Proof.
  revert w. induction rs as [|r rs IH]; intros w Hi Hrs; simpl.
  - split; [done|apply grows_refl].
  - apply Forall_cons in Hrs as [Hr Hrs].
    destruct (inv_call_resolve 0 w r VUndef Hi Hr) as [H1 H2].
    destruct (IH _ H1) as [H3 H4].
    + eapply Forall_impl; [exact Hrs|]. intros x. by apply safe_grows.
    + split; [done|eapply grows_trans; eauto].
Qed.

Lemma inv_job_done (w : world) :
  inv 1 w -> inv 0 (job_done 0 w) /\ grows w (job_done 0 w) /\ queue_settled (job_done 0 w).
Proof.
  intros Hi. unfold job_done.
  destruct (limiter_of 0 w) as [l|] eqn:Hl.
  2: { destruct (inv_limiter _ _ Hi) as (l0 & k & H1 & _). congruence. }
  destruct (inv_limiter_ok 1 w l Hi Hl) as [Hok Hrun].
  assert (Hpos : (1 <= running l)%nat).
  { destruct (inv_limiter _ _ Hi) as (l0 & k & G1 & _ & _ & G4 & _).
    rewrite Hl in G1. injection G1 as <-. lia. }
  set (l' := {| maxConcurrent := maxConcurrent l; waiting := waiting l;
                running := Init.Nat.pred (running l); stopped := stopped l;
                draining := draining l |}).
  destruct (inv_with_limiter 1 0 w l l' Hi Hl) as [H1 H2]; [done|simpl; lia|simpl; lia|].
  unfold dispatch_all.
  destruct (inv_dispatch
              (S (length (default [] (waiting <$>
                   limiter_of 0 (update_engine 0 (with_limiter l') w)))))
              _ H1) as (H3 & H4 & Hset).
  specialize (Hset ltac:(lia)).
  set (w1 := dispatch _ _ _) in *.
  assert (Hg : grows w w1) by (eapply grows_trans; eauto).
  destruct (limiter_of 0 w1) as [l1|] eqn:Hl1; [|done].
  destruct (stopped l1 && idle l1); [|done].
  destruct (inv_limiter_ok 0 w1 l1 H3 Hl1) as [Hok1 Hrun1].
  set (l2 := {| maxConcurrent := maxConcurrent l1; waiting := waiting l1;
                running := running l1; stopped := true; draining := [] |}).
  destruct (inv_with_limiter 0 0 w1 l1 l2 H3 Hl1) as [H5 H6].
  { destruct Hok1 as (G1 & G2 & G3). split; [done|]. split; [done|constructor]. }
  { simpl. lia. }
  { done. }
  destruct (inv_resolve_all (draining l1) _ H5) as [H7 H8].
  { destruct Hok1 as (_ & _ & G3). eapply Forall_impl; [exact G3|].
    intros r Hr. apply (safe_grows w1); [done|]. exact Hr. }
  split; [done|]. split; [eapply grows_trans; [exact Hg|]; eapply grows_trans; eauto|].
  eapply settled_same; [apply engines_resolve_all|].
  by apply (settled_with_limiter w1 l1 l2).
Qed.

(** After a step from [w] to [w1], the rest of the command runs. *)
Lemma inv_continue (P : pid -> Prop) (k : prog) (tgt : option pid) (w w1 : world) :
  (forall (tgt : option pid) (w : world),
     (forall x, P x -> safe_in w x) -> inv 0 w -> cap_ok (safe_in w) tgt ->
     inv 0 (exec k tgt w) /\ grows w (exec k tgt w)) ->
  (forall x, P x -> safe_in w x) -> cap_ok (safe_in w) tgt ->
  inv 0 w1 /\ grows w w1 ->
  inv 0 (exec k tgt w1) /\ grows w (exec k tgt w1).
Proof.
  intros IH HP Hc [H1 H2].
  destruct (IH tgt w1) as [H3 H4]; [| exact H1 | |].
  - intros x Hx. eapply safe_grows; eauto.
  - eapply cap_ok_mono; [|exact Hc]. intros x. by apply safe_grows.
  - split; [done|eapply grows_trans; eauto].
Qed.

(** A tame command keeps the invariant. *)
Lemma inv_exec (P : pid -> Prop) (p : prog) :
  tame P p ->
  forall (tgt : option pid) (w : world),
    (forall x, P x -> safe_in w x) -> inv 0 w -> cap_ok (safe_in w) tgt ->
    inv 0 (exec p tgt w) /\ grows w (exec p tgt w).
Proof.
  induction 1; intros tgt w HP Hi Hc; cbn [exec].
  - by apply inv_finish.
  - by apply inv_finish.
  - apply inv_await_on; [done| |done].
    intros x. eapply tame_mono; [apply H|exact HP].
  - destruct (inv_alloc 0 w Pending Hi) as (H2 & H3 & H4).
    destruct (alloc Pending w) as [w1 r] eqn:Ha. simpl in *.
    destruct (IHtame (Some r) w1) as [H5 H6]; [|done|done|].
    { intros x Hx. eapply safe_grows; eauto. }
    eapply inv_continue; [apply H1|exact HP|exact Hc|].
    split; [done|eapply grows_trans; eauto].
  - eapply inv_continue; [exact IHtame|exact HP|exact Hc|].
    apply inv_call_resolve; auto.
  - eapply inv_continue; [exact IHtame|exact HP|exact Hc|].
    apply inv_call_reject; auto.
  - apply H0; auto.
  - destruct (dir_get d (registry w)) as [r|] eqn:Hd.
    + apply H0; auto. intros x [Hx| ->]; [auto|].
      by apply (inv_registry _ _ Hi d r).
    + apply IHtame; auto.
  - eapply inv_continue; [exact IHtame|exact HP|exact Hc|].
    by apply inv_dir_delete.
  - destruct (engines w !! this) as [me|]; [apply H0; auto|by apply inv_finish].
  - destruct (limiter_of 0 w) as [l|] eqn:Hl; [|by apply inv_finish].
    pose proof (inv_schedule w l c Hi Hl H) as Hs.
    destruct (schedule l 0 c w) as [w1 j]. simpl in Hs.
    eapply inv_continue; [apply H1|exact HP|exact Hc|].
    destruct Hs as (Hs1 & Hs2 & _). by split.
  - destruct (limiter_of 0 w) as [l|] eqn:Hl; [|by apply inv_finish].
    pose proof (inv_stop w l Hi Hl) as Hs.
    destruct (stop l 0 w) as [w1 s]. simpl in Hs.
    eapply inv_continue; [apply H0|exact HP|exact Hc|exact Hs].
  - destruct (engines w !! this ≫= e_engine); [|by apply inv_finish].
    pose proof (inv_start_load 0 w this InitStore None Hi eq_refl) as Hs.
    destruct (start_call this InitStore None w) as [w1 t]. simpl in Hs.
    eapply inv_continue; [apply H0|exact HP|exact Hc|apply Hs].
    intros v [=].
  - destruct (engines w !! this ≫= e_engine); [|by apply inv_finish].
    pose proof (inv_start_load 0 w this ForEachItem (Some visit) Hi eq_refl) as Hs.
    destruct (start_call this ForEachItem (Some visit) w) as [w1 t]. simpl in Hs.
    eapply inv_continue; [apply H2|exact HP|exact Hc|apply Hs].
    intros v [= <-] x. eapply tame_mono; [apply H|exact HP].
  - eapply inv_continue; [apply H0|exact HP|exact Hc|].
    by apply inv_update_other.
  - eapply inv_continue; [exact IHtame|exact HP|exact Hc|].
    by apply inv_update_other.
  - apply H0; auto.
Qed.

Lemma settled_stop (w : world) (l : limiter) :
  limiter_of 0 w = Some l -> queue_settled w -> queue_settled (stop l 0 w).1.
Proof.
  intros Hl Hs. unfold stop, alloc.
  destruct (stopped l), (restop w), (idle l); simpl;
    first [ by apply (settled_same w)
          | by apply (settled_with_limiter _ l)
          | eapply settled_same; [|by apply (settled_with_limiter w l)]; done ].
Qed.

Lemma settled_continue (P : pid -> Prop) (k : prog) (tgt : option pid) (w w1 : world) :
  (forall (tgt : option pid) (w : world),
     (forall x, P x -> safe_in w x) -> inv 0 w -> cap_ok (safe_in w) tgt ->
     queue_settled w -> queue_settled (exec k tgt w)) ->
  (forall x, P x -> safe_in w x) -> cap_ok (safe_in w) tgt ->
  inv 0 w1 /\ grows w w1 -> queue_settled w1 ->
  queue_settled (exec k tgt w1).
Proof.
  intros IH HP Hc [H1 H2] Hs. apply IH; [| exact H1 | | exact Hs].
  - intros x Hx. eapply safe_grows; eauto.
  - eapply cap_ok_mono; [|exact Hc]. intros x. by apply safe_grows.
Qed.

(** A tame command leaves nothing waiting beside a free slot. *)
Lemma settled_exec (P : pid -> Prop) (p : prog) :
  tame P p ->
  forall (tgt : option pid) (w : world),
    (forall x, P x -> safe_in w x) -> inv 0 w -> cap_ok (safe_in w) tgt ->
    queue_settled w -> queue_settled (exec p tgt w).
Proof.
  induction 1; intros tgt w HP Hi Hc Hs; cbn [exec].
  - by apply (settled_same w); [apply engines_finish|].
  - by apply (settled_same w); [apply engines_finish|].
  - by apply (settled_same w); [apply engines_await_on|].
  - destruct (inv_alloc 0 w Pending Hi) as (H2 & H3 & H4).
    pose proof (eq_refl : engines (alloc Pending w).1 = engines w) as He.
    destruct (alloc Pending w) as [w1 r] eqn:Ha. simpl in *.
    assert (HP1 : forall x, P x -> safe_in w1 x).
    { intros x Hx. eapply safe_grows; eauto. }
    assert (Hs1 : queue_settled w1) by (by apply (settled_same w)).
    destruct (inv_exec P _ H (Some r) w1) as [H5 H6]; [done|done|done|].
    eapply settled_continue; [apply H1|exact HP|exact Hc| |].
    + split; [done|eapply grows_trans; eauto].
    + by apply IHtame.
  - eapply settled_continue; [exact IHtame|exact HP|exact Hc| |].
    + apply inv_call_resolve; auto.
    + by apply (settled_same w); [apply engines_call_resolve|].
  - eapply settled_continue; [exact IHtame|exact HP|exact Hc| |].
    + apply inv_call_reject; auto.
    + by apply (settled_same w); [apply engines_call_reject|].
  - apply H0; auto.
  - destruct (dir_get d (registry w)) as [r|] eqn:Hd.
    + apply H0; auto. intros x [Hx| ->]; [auto|].
      by apply (inv_registry _ _ Hi d r).
    + apply IHtame; auto.
  - eapply settled_continue; [exact IHtame|exact HP|exact Hc| |].
    + by apply inv_dir_delete.
    + by apply (settled_same w).
  - destruct (engines w !! this) as [me|]; [apply H0; auto|].
    by apply (settled_same w); [apply engines_finish|].
  - destruct (limiter_of 0 w) as [l|] eqn:Hl;
      [|by apply (settled_same w); [apply engines_finish|]].
    destruct (inv_schedule w l c Hi Hl H) as (Hs1 & Hs2 & Hs3).
    destruct (schedule l 0 c w) as [w1 j]. simpl in *.
    eapply settled_continue; [apply H1|exact HP|exact Hc|by split|by apply Hs3].
  - destruct (limiter_of 0 w) as [l|] eqn:Hl;
      [|by apply (settled_same w); [apply engines_finish|]].
    pose proof (inv_stop w l Hi Hl) as Hi1.
    pose proof (settled_stop w l Hl Hs) as Hs1.
    destruct (stop l 0 w) as [w1 s]. simpl in *.
    eapply settled_continue; [apply H0|exact HP|exact Hc|exact Hi1|exact Hs1].
  - destruct (engines w !! this ≫= e_engine);
      [|by apply (settled_same w); [apply engines_finish|]].
    pose proof (inv_start_load 0 w this InitStore None Hi eq_refl) as Hi1.
    pose proof (eq_refl : engines (start_call this InitStore None w).1 = engines w) as He.
    destruct (start_call this InitStore None w) as [w1 t]. simpl in *.
    eapply settled_continue; [apply H0|exact HP|exact Hc|apply Hi1|by apply (settled_same w)].
    intros v [=].
  - destruct (engines w !! this ≫= e_engine);
      [|by apply (settled_same w); [apply engines_finish|]].
    pose proof (inv_start_load 0 w this ForEachItem (Some visit) Hi eq_refl) as Hi1.
    pose proof (eq_refl : engines (start_call this ForEachItem (Some visit) w).1 = engines w)
      as He.
    destruct (start_call this ForEachItem (Some visit) w) as [w1 t]. simpl in *.
    eapply settled_continue; [apply H2|exact HP|exact Hc|apply Hi1|by apply (settled_same w)].
    intros v [= <-] x. eapply tame_mono; [apply H|exact HP].
  - eapply settled_continue; [apply H0|exact HP|exact Hc| |by apply (settled_same w)].
    by apply inv_update_other.
  - eapply settled_continue; [exact IHtame|exact HP|exact Hc| |by apply (settled_same w)].
    by apply inv_update_other.
  - apply H0; auto.
Qed.


Ltac tame_steps :=
  repeat first
    [ progress intros
    | progress cbv beta zeta delta
        [body NodePersist.get NodePersist.set NodePersist.del NodePersist.ttl
         NodePersist.load NodePersist.flush NodePersist.close NodePersist.await_ready
         NodePersist.unlockDirectory NodePersist.load_visitor NodePersist.tsToTtl]
    | match goal with
      | |- tame _ (match ?x with _ => _ end) => destruct x
      | |- _ \/ _ => right; reflexivity
      end
    | constructor ].

Lemma tame_body (r : request) (P : pid -> Prop) : tame P (body r).
Proof. destruct r; tame_steps. Qed.

Lemma inv_run_job (w : world) (j : job) (rest : list job) :
  inv 0 w -> micro w = j :: rest ->
  inv 0 (run_job j (set_micro rest w)) /\ grows w (run_job j (set_micro rest w)).
Proof.
  intros Hi Hm.
  assert (Hg : grows w (set_micro rest w)) by (by apply grows_same).
  destruct Hi as [Hl Hh Hf Hr].
  destruct Hl as (l & k & H1 & H2 & H3 & H4 & H5).
  rewrite Hm in H3. inversion H3 as [|j' m' n' Hj Hrest|j' m' n' Hj Hrest]; subst.
  - assert (Hi' : inv 0 (set_micro rest w)).
    { constructor; try done. exists l, k. done. }
    destruct Hj as [f arg cap Hf1 Hf2|p q Hp]; simpl.
    + by apply (inv_exec (safe_in w) (f arg) Hf1 cap (set_micro rest w)).
    + destruct (inv_new_pair 0 (set_micro rest w) p Hi') as (G1 & G2 & G3).
      destruct (new_pair p (set_micro rest w)) as [w1 r] eqn:Hn. simpl in *. subst p.
      destruct (inv_then 0 w1 q (fun v => Resolve r v (Ret VUndef))
                  (fun e => Reject r e (Ret VUndef)) G1) as (G4 & G5 & _).
      * intros v. constructor; [|constructor]. by apply (safe_grows _ _ _ G2).
      * intros v. constructor; [|constructor]. by apply (safe_grows _ _ _ G2).
      * split; [done|]. eapply grows_trans; [exact Hg|]. eapply grows_trans; eauto.
  - assert (Hi' : inv 1 (set_micro rest w)).
    { constructor; try done. exists l, n'. split; [done|]. split; [done|].
      split; [done|]. split; [|done].
      change (queued_flights (set_micro rest w)) with (queued_flights w). lia. }
    destruct (inv_job_done _ Hi') as (G1 & G2 & _).
    destruct Hj as [j0 v Hj0|j0 v Hj0]; simpl.
    + destruct (inv_call_resolve 0 _ (j0, 0%nat) v G1) as [G3 G4].
      { apply (safe_grows _ _ _ G2). exact Hj0. }
      split; [done|]. eapply grows_trans; [exact Hg|]. eapply grows_trans; eauto.
    + destruct (inv_call_reject 0 _ (j0, 0%nat) v G1) as [G3 G4].
      { apply (safe_grows _ _ _ G2). exact Hj0. }
      split; [done|]. eapply grows_trans; [exact Hg|]. eapply grows_trans; eauto.
Qed.

Lemma inv_ready_world (d : string) (c : cache) (now : Z) : inv 0 (ready_world d c now).
Proof.
  constructor.
  - exists (new_limiter 1), 0%nat. simpl. split; [done|].
    split; [split; [done|split; constructor]|].
    split; [constructor|lia].
  - intros p pr Hp. split; [intros []|]. intros _.
    do 6 (destruct p as [|p]; [injection Hp as <-; constructor|]). done.
  - split; [constructor|intros f []].
  - intros d' r Hd. simpl in Hd. unfold dir_set in Hd.
    apply lookup_insert_Some in Hd as [[_ <-]|[_ Hd]]; [|done].
    split; [simpl; lia|intros []].
Qed.

Lemma delete_filter_length (A : Type) (f : A -> bool) (i : nat) (x : A) (l : list A) :
  l !! i = Some x ->
  length (List.filter f (delete i l)) =
  (length (List.filter f l) - (if f x then 1 else 0))%nat.
Proof.
  revert i. induction l as [|a l IH]; intros [|i] Hi; try done; simpl in *.
  - injection Hi as ->. destruct (f x); simpl; lia.
  - destruct (f a) eqn:Ha; simpl; rewrite (IH i Hi); [|done].
    destruct (f x) eqn:Hx; [|lia].
    assert (In x (List.filter f l)).
    { apply filter_In. split; [|done]. apply list_elem_of_In. by eapply list_elem_of_lookup_2. }
    destruct (List.filter f l); [done|simpl; lia].
Qed.

Lemma delete_filter_other (A : Type) (f : A -> bool) (i : nat) (x : A) (l : list A) :
  l !! i = Some x -> f x = false -> List.filter f (delete i l) = List.filter f l.
Proof.
  revert i. induction l as [|a l IH]; intros [|i] Hi Hx; try done; simpl in *.
  - injection Hi as ->. by rewrite Hx.
  - destruct (f a); by rewrite (IH i Hi Hx).
Qed.

Lemma NoDup_map_delete (A B : Type) (f : A -> B) (i : nat) (l : list A) :
  NoDup (map f l) -> NoDup (map f (delete i l)).
Proof.
  revert i. induction l as [|a l IH]; intros [|i] Hnd; simpl in *; try done.
  - by apply NoDup_cons in Hnd as [_ Hnd].
  - apply NoDup_cons in Hnd as [Ha Hnd]. apply NoDup_cons. split; [|by apply IH].
    intros Hin. apply Ha. apply list_elem_of_In, in_map_iff in Hin as (x & Hx & Hin).
    apply list_elem_of_In, in_map_iff. exists x. split; [done|].
    apply list_elem_of_In. eapply list_elem_of_delete_inv. by apply list_elem_of_In.
Qed.

Lemma In_delete (A : Type) (i : nat) (x : A) (l : list A) : In x (delete i l) -> In x l.
Proof.
  intros H. apply list_elem_of_In. eapply list_elem_of_delete_inv. by apply list_elem_of_In.
Qed.

Lemma inv_visit_all (visit : datum -> prog) (ds : list datum) (w : world) :
  inv 0 w -> (forall x, tame (safe_in w) (visit x)) ->
  inv 0 (visit_all visit ds w) /\ grows w (visit_all visit ds w).
Proof.
  unfold visit_all. revert w. induction ds as [|x ds IH]; intros w Hi Hv; simpl.
  - split; [done|apply grows_refl].
  - destruct (inv_exec (safe_in w) (visit x) (Hv x) None w) as [H1 H2];
      [done|done|exact I|].
    destruct (IH _ H1) as [H3 H4].
    + intros y. eapply tame_mono; [apply Hv|]. intros z. by apply safe_grows.
    + split; [done|eapply grows_trans; eauto].
Qed.

(** A call handed to the store directly completes. *)
Lemma inv_answered_direct (i : nat) (f : flight) (w : world) :
  inv 0 w -> inflight w !! i = Some f -> queue_call (f_call f) = false ->
  inv 0 (set_inflight (delete i (inflight w)) w) /\
  grows w (set_inflight (delete i (inflight w)) w) /\
  ~ In (f_promise f) (hpids w).
Proof.
  intros Hi Hf Hc.
  assert (Hq : queued_flights (set_inflight (delete i (inflight w)) w) = queued_flights w).
  { unfold queued_flights. simpl. by eapply delete_filter_other. }
  assert (HF : hpids (set_inflight (delete i (inflight w)) w) = hpids w).
  { unfold hpids. by rewrite Hq. }
  destruct Hi as [Hl Hh [Hnd Hfl] Hr].
  split; [|split].
  - constructor; try done.
    + unfold safe_in. simpl. rewrite HF, Hq. exact Hl.
    + simpl. rewrite HF. exact Hh.
    + simpl. split; [by apply NoDup_map_delete|].
      intros f' Hf'. apply In_delete in Hf'. unfold safe_in. simpl. rewrite HF.
      by apply Hfl.
    + unfold safe_in. simpl. rewrite HF. exact Hr.
  - split; [done|]. intros p _. by rewrite HF.
  - intros Hin. unfold hpids, queued_flights in Hin.
    apply in_map_iff in Hin as (f' & Hp & Hin).
    apply filter_In in Hin as [Hin Hc'].
    apply list_elem_of_In, list_elem_of_lookup in Hin as [i' Hi'].
    assert (i' = i).
    { eapply NoDup_lookup; [exact Hnd| |].
      - rewrite list_lookup_fmap, Hi'. simpl. by rewrite Hp.
      - by rewrite list_lookup_fmap, Hf. }
    subst i'. rewrite Hf in Hi'. injection Hi' as <-. congruence.
Qed.

Lemma safe_fewer (n : nat) (F : list pid) (p : pid) : safe n F p -> safe n [] p.
Proof. intros [H1 _]. split; [done|intros []]. Qed.

(** The call the queue has in flight completes. *)
Lemma inv_answered_queued (i : nat) (f : flight) (o : outcome) (w : world) :
  inv 0 w -> inflight w !! i = Some f -> queue_call (f_call f) = true ->
  inv 0 (settle (f_promise f) o (set_inflight (delete i (inflight w)) w)).
Proof.
  intros Hi Hf Hc.
  destruct (inv_limiter _ _ Hi) as (l & k & Hl & Hok & Hjobs & Hcount & Hrun).
  assert (Hfq : In f (queued_flights w)).
  { apply filter_In. split; [|done]. apply list_elem_of_In. by eapply list_elem_of_lookup_2. }
  assert (Hone : queued_flights w = [f]).
  { destruct (queued_flights w) as [|f0 [|f1 fs]] eqn:Hq; simpl in *; try lia; try done.
    destruct Hfq as [->|[]]. done. }
  rewrite Hone in Hcount. simpl in Hcount.
  assert (k = 0%nat) as -> by lia.
  assert (HF : hpids w = [f_promise f]) by (unfold hpids; by rewrite Hone).
  set (w1 := set_inflight (delete i (inflight w)) w).
  assert (Hq1 : queued_flights w1 = []).
  { pose proof (delete_filter_length _ (fun f => queue_call (f_call f)) i f (inflight w) Hf)
      as Hd.
    cbv beta in Hd. rewrite Hc in Hd. fold (queued_flights w) in Hd. rewrite Hone in Hd. simpl in Hd.
    unfold queued_flights, w1. simpl. by destruct (List.filter _ _). }
  assert (HF1 : hpids w1 = []) by (unfold hpids; by rewrite Hq1).
  assert (Hlt : (f_promise f < length (heap w))%nat).
  { apply (proj2 (inv_flights _ _ Hi) f). apply list_elem_of_In.
    by eapply list_elem_of_lookup_2. }
  unfold settle. change (heap w1) with (heap w).
  destruct (heap w !! f_promise f) as [pr|] eqn:Hpr.
  2: { apply lookup_ge_None in Hpr. lia. }
  destruct (inv_heap _ _ Hi _ _ Hpr) as [Hhead _].
  rewrite HF in Hhead. destruct (Hhead ltac:(by left)) as (Hst & j & rest & Hre & Hj & Hrest).
  rewrite Hst, Hre. cbn [map].
  rewrite <- HF in Hj, Hrest. fold (safe_in w) in Hj, Hrest.
  match goal with |- inv 0 ?x => set (w' := x) end.
  assert (Hn' : length (heap w') = length (heap w)).
  { unfold w'. cbn [heap set_micro set_heap]. by rewrite length_insert. }
  assert (Hq' : queued_flights w' = []) by exact Hq1.
  assert (HF' : hpids w' = []) by exact HF1.
  assert (HS' : forall p, safe_in w p -> safe_in w' p).
  { intros p. unfold safe_in. rewrite Hn', HF'. apply safe_fewer. }
  destruct Hi as [_ Hh [Hnd Hfl] Hr].
  constructor.
  - exists l, 1%nat. rewrite Hn', HF', Hq'.
    split; [exact Hl|].
    split; [eapply limiter_ok_mono; [|exact Hok]; rewrite HF; apply safe_fewer|].
    split; [|simpl; lia].
    change 1%nat with (0 + 1)%nat. apply jobs_ok_app.
    + eapply jobs_ok_mono; [|exact Hjobs]. exact HS'.
    + apply jobs_handler.
      * destruct o; constructor; apply HS'; exact Hj.
      * apply jobs_ok_tame_list. apply Forall_map.
        eapply Forall_impl; [exact Hrest|]. intros rc (G1 & G2 & G3).
        destruct o; constructor;
          try (eapply tame_mono; [eauto|exact HS']);
          (eapply cap_ok_mono; [exact HS'|exact G3]).
  - rewrite Hn', HF'.
    intros p pr' Hp. split; [intros []|]. intros _.
    unfold w' in Hp. cbn [heap set_micro set_heap] in Hp.
    destruct (decide (f_promise f = p)) as [<-|Hne].
    + rewrite list_lookup_insert_eq in Hp by done. injection Hp as <-. constructor.
    + rewrite list_lookup_insert_ne in Hp by done.
      destruct (Hh p pr' Hp) as [_ Hok']. rewrite HF in Hok'.
      eapply Forall_impl; [apply Hok'; intros [?|[]]; congruence|].
      intros rc. apply tame_reaction_mono, safe_fewer.
  - rewrite Hn'. change (inflight w') with (delete i (inflight w)).
    split; [by apply NoDup_map_delete|].
    intros f' Hf'. apply In_delete in Hf'. destruct (Hfl f' Hf') as (G1 & G2 & G3).
    split; [done|]. split; [done|].
    intros visit Hv x. eapply tame_mono; [by eapply G3|exact HS'].
  - change (registry w') with (registry w). intros d r Hd.
    apply HS'. by eapply Hr.
Qed.

Lemma inv_happen (ev : event) (w : world) : inv 0 w -> inv 0 (happen w ev).
Proof.
  intros Hi. destruct ev as [r| |i o ds]; cbn [happen].
  - destruct (inv_alloc 0 w Pending Hi) as (H1 & H2 & H3).
    destruct (alloc Pending w) as [w1 p]. cbn [fst snd] in *.
    by apply (inv_exec (safe_in w1) (body r) (tame_body r _) (Some p) w1).
  - destruct (micro w) as [|j rest] eqn:Hm; [done|].
    by apply inv_run_job.
  - unfold answered. destruct (inflight w !! i) as [f|] eqn:Hf; [|done].
    destruct (queue_call (f_call f)) eqn:Hc.
    + assert (Hv : f_visit f = None).
      { apply (proj2 (inv_flights _ _ Hi) f); [|done].
        apply list_elem_of_In. by eapply list_elem_of_lookup_2. }
      rewrite Hv. by apply inv_answered_queued.
    + destruct (inv_answered_direct i f w Hi Hf Hc) as (H1 & H2 & H3).
      assert (Hin : In f (inflight w)).
      { apply list_elem_of_In. by eapply list_elem_of_lookup_2. }
      destruct (proj2 (inv_flights _ _ Hi) f Hin) as (G1 & _ & G3).
      destruct (f_visit f) as [visit|] eqn:Hv.
      * destruct (inv_visit_all visit ds _ H1) as [H4 H5].
        { intros x. eapply tame_mono; [by apply G3|]. intros y. by apply safe_grows. }
        apply inv_settle; [done|].
        intros Hp. apply H3. apply (proj2 H2); [done|]. by apply (proj2 H5).
      * apply inv_settle; [done|].
        intros Hp. apply H3. by apply (proj2 H2).
Qed.

Lemma settled_run_job (w : world) (j : job) (rest : list job) :
  inv 0 w -> queue_settled w -> micro w = j :: rest ->
  queue_settled (run_job j (set_micro rest w)).
Proof.
  intros Hi Hs Hm.
  destruct Hi as [Hl Hh Hf Hr].
  destruct Hl as (l & k & H1 & H2 & H3 & H4 & H5).
  rewrite Hm in H3. inversion H3 as [|j' m' n' Hj Hrest|j' m' n' Hj Hrest]; subst.
  - assert (Hi' : inv 0 (set_micro rest w)).
    { constructor; try done. exists l, k. done. }
    destruct Hj as [f arg cap Hf1 Hf2|p q Hp]; cbn [run_job].
    + by apply (settled_exec (safe_in w) (f arg) Hf1 cap (set_micro rest w)).
    + pose proof (engines_new_pair p (set_micro rest w)) as He.
      destruct (new_pair p (set_micro rest w)) as [w1 r]. cbn [fst] in He.
      apply (settled_same w); [|done]. by rewrite engines_then.
  - assert (Hi' : inv 1 (set_micro rest w)).
    { constructor; try done. exists l, n'. split; [done|]. split; [done|].
      split; [done|]. split; [|done].
      change (queued_flights (set_micro rest w)) with (queued_flights w). lia. }
    destruct (inv_job_done _ Hi') as (_ & _ & G3).
    destruct Hj as [j0 v Hj0|j0 v Hj0]; simpl.
    + eapply settled_same; [apply engines_call_resolve|exact G3].
    + eapply settled_same; [apply engines_call_reject|exact G3].
Qed.

Lemma settled_visit_all (visit : datum -> prog) (ds : list datum) (w : world) :
  inv 0 w -> (forall x, tame (safe_in w) (visit x)) -> queue_settled w ->
  queue_settled (visit_all visit ds w).
Proof.
  unfold visit_all. revert w. induction ds as [|x ds IH]; intros w Hi Hv Hs; simpl; [done|].
  destruct (inv_exec (safe_in w) (visit x) (Hv x) None w) as [H1 H2];
    [done|done|exact I|].
  apply IH; [done| |].
  - intros y. eapply tame_mono; [apply Hv|]. intros z. by apply safe_grows.
  - by apply (settled_exec (safe_in w) (visit x) (Hv x) None w).
Qed.

Lemma settled_happen (ev : event) (w : world) :
  inv 0 w -> queue_settled w -> queue_settled (happen w ev).
Proof.
  intros Hi Hs. destruct ev as [r| |i o ds]; cbn [happen].
  - destruct (inv_alloc 0 w Pending Hi) as (H1 & H2 & H3).
    pose proof (eq_refl : engines (alloc Pending w).1 = engines w) as He.
    destruct (alloc Pending w) as [w1 p]. cbn [fst snd] in *.
    apply (settled_exec (safe_in w1) (body r) (tame_body r _) (Some p) w1); try done.
    by apply (settled_same w).
  - destruct (micro w) as [|j rest] eqn:Hm; [done|].
    by apply settled_run_job.
  - unfold answered. destruct (inflight w !! i) as [f|] eqn:Hf; [|done].
    eapply settled_same; [apply engines_settle|].
    destruct (f_visit f) as [visit|] eqn:Hv; [|by apply (settled_same w)].
    destruct (queue_call (f_call f)) eqn:Hc.
    { assert (Hn : f_visit f = None); [|congruence].
      apply (proj2 (inv_flights _ _ Hi) f); [|done].
      apply list_elem_of_In. by eapply list_elem_of_lookup_2. }
    destruct (inv_answered_direct i f w Hi Hf Hc) as (H1 & H2 & H3).
    assert (Hin : In f (inflight w)).
    { apply list_elem_of_In. by eapply list_elem_of_lookup_2. }
    destruct (proj2 (inv_flights _ _ Hi) f Hin) as (G1 & _ & G3).
    apply settled_visit_all; [done| |by apply (settled_same w)].
    intros x. eapply tame_mono; [by apply G3|]. intros y. by apply safe_grows.
Qed.

Lemma settled_after (evs : list event) (w : world) :
  inv 0 w -> queue_settled w -> queue_settled (after evs w).
Proof.
  unfold after. revert w. induction evs as [|ev evs IH]; intros w Hi Hs; simpl; [done|].
  apply IH; [by apply inv_happen|by apply settled_happen].
Qed.

Lemma settled_ready_world (d : string) (c : cache) (now : Z) :
  queue_settled (ready_world d c now).
Proof. intros l [= <-]. done. Qed.

Lemma inv_after (evs : list event) (w : world) : inv 0 w -> inv 0 (after evs w).
Proof.
  unfold after. revert w. induction evs as [|ev evs IH]; intros w Hi; simpl; [done|].
  by apply IH, inv_happen.
Qed.

Lemma queued_at_most_one (w : world) : inv 0 w -> (length (queued_flights w) <= 1)%nat.
Proof. intros Hi. destruct (inv_limiter _ _ Hi) as (l & k & _ & _ & _ & H1 & H2). lia. Qed.


Lemma drain_is_ticks (n : nat) (w w' : world) :
  drain n w = Some w' -> exists k, w' = after (repeat Tick k) w.
Proof.
  revert w. induction n as [|n IH]; intros w; destruct w as [h m t c r e i s a rs];
    destruct m as [|j rest]; simpl; try done.
  - intros [= <-]. by exists 0%nat.
  - intros [= <-]. by exists 0%nat.
  - intros H. destruct (IH _ H) as [k ->]. by exists (S k).
Qed.

Lemma call_is_events (n : nat) (r : request) (w w' : world) (p : pid) :
  call n (body r) w = Some (w', p) -> exists k, w' = after (Issue r :: repeat Tick k) w.
Proof.
  unfold call. simpl. destruct (drain n _) as [w2|] eqn:Hd; [|done].
  intros [= <- <-]. destruct (drain_is_ticks _ _ _ Hd) as [k ->]. by exists k.
Qed.

Lemma store_done_is_events (n i : nat) (o : outcome) (ds : list datum) (w w' : world) :
  store_done n i o ds w = Some w' ->
  exists k, w' = after (Answer i o ds :: repeat Tick k) w.
Proof.
  unfold store_done.
  destruct (inflight w !! i) as [f|] eqn:Hf.
  - intros Hd. destruct (drain_is_ticks _ _ _ Hd) as [k ->]. exists k.
    unfold after. cbn [fold_left happen]. unfold answered. by rewrite Hf.
  - intros [= <-]. exists 0%nat. unfold after. cbn [repeat fold_left happen app].
    unfold answered. by rewrite Hf.
Qed.

(** [call] and [store_done], by which the other theorems run the engine,
    are such sequences of events: the worlds they end in are covered. *)
Lemma calls_admit_one (d : string) (c : cache) (now : Z) (evs : list event) (n : nat) :
  (forall (r : request) (w' : world) (p : pid),
      call n (body r) (after evs (ready_world d c now)) = Some (w', p) ->
      (length (queued_flights w') <= 1)%nat) /\
  (forall (i : nat) (o : outcome) (ds : list datum) (w' : world),
      store_done n i o ds (after evs (ready_world d c now)) = Some w' ->
      (length (queued_flights w') <= 1)%nat).
Proof.
  split.
  - intros r w' p H. destruct (call_is_events _ _ _ _ _ H) as [k ->].
    unfold after. rewrite <- fold_left_app.
    apply queued_at_most_one, inv_after, inv_ready_world.
  - intros i o ds w' H. destruct (store_done_is_events _ _ _ _ _ _ H) as [k ->].
    unfold after. rewrite <- fold_left_app.
    apply queued_at_most_one, inv_after, inv_ready_world.
Qed.

(** The write queue admits one call at a time.  From a ready instance,
    whatever public methods host code calls on it ([get], [set], [del],
    [ttl], [load], [flush], [close]), in whatever order, between whatever
    microtasks, whatever the cache reports and however the store answers
    its calls: at every moment the store is working on at most one of the
    calls that go through the write queue ([getItem], [updateItem],
    [removeItem], [clear]). *)
Theorem queue_admits_one_call (d : string) (c : cache) (now : Z) (evs : list event) :
  (length (queued_flights (after evs (ready_world d c now))) <= 1)%nat.
Proof. apply queued_at_most_one, inv_after, inv_ready_world. Qed.

(** The write queue never stalls.  From a ready instance, whatever public
    methods host code calls on it, in whatever order, between whatever
    microtasks, whatever the cache reports and however the store answers
    its calls: whenever no microtask is left to run and a call waits in the
    write queue, the store is working on exactly one call of the queue. *)
Theorem queue_never_stalls (d : string) (c : cache) (now : Z) (evs : list event) :
  micro (after evs (ready_world d c now)) = [] ->
  queued 0 (after evs (ready_world d c now)) <> [] ->
  length (queued_flights (after evs (ready_world d c now))) = 1%nat.
Proof.
  intros Hm Hq.
  pose proof (inv_after evs _ (inv_ready_world d c now)) as Hi.
  pose proof (settled_after evs _ (inv_ready_world d c now) (settled_ready_world d c now))
    as Hs.
  destruct (inv_limiter _ _ Hi) as (l & k & H1 & _ & H3 & H4 & _).
  rewrite Hm in H3. inversion H3; subst.
  unfold queued in Hq. rewrite H1 in Hq.
  rewrite <- (Hs l H1); [lia|]. intros Hw. by rewrite Hw in Hq.
Qed.

Lemma queue_never_stalls_witness :
  micro (after [Issue (RDel "a"); Tick; Tick; Issue (RGet "b"); Tick; Tick]
           (ready_world "d" no_cache 0)) = [] /\
  queued 0 (after [Issue (RDel "a"); Tick; Tick; Issue (RGet "b"); Tick; Tick]
              (ready_world "d" no_cache 0)) = [GetItem "b"] /\
  length (queued_flights
            (after [Issue (RDel "a"); Tick; Tick; Issue (RGet "b"); Tick; Tick]
               (ready_world "d" no_cache 0))) = 1%nat.
Proof.
  split; [reflexivity|]. split; [reflexivity|].
  apply (queue_never_stalls "d" no_cache 0
           [Issue (RDel "a"); Tick; Tick; Issue (RGet "b"); Tick; Tick]);
    [reflexivity|vm_compute; discriminate].
Defined.


(* ===================================================================== *)
(** ** The older copy *)
(* ===================================================================== *)

(** In [src/unnamed/part_000] the promise [lockDirectory] returns follows
    the new lock, which stays pending while the directory is held: the
    instance does not become ready, its operations wait, and [close], which
    reads a [#directory] that was never assigned, releases nothing. *)
Lemma part000_never_ready (d : string) (c : cache) (now : Z) (key : string) :
  d <> "undefined" ->
  exists w1 r w2 w3 p,
    run fuel (Part000.constructor (opts_for d) c (fun _ => Ret VUndef)) (set_clock now w0)
      = Some w1 /\
    ready_state 0 w1 = Some Pending /\
    dir_get d (registry w1) = Some r /\ live w1 r = true /\
    run fuel (Part000.close 0 (fun _ => Ret VUndef)) w1 = Some w2 /\
    ready_state 0 w2 = Some Pending /\
    dir_get d (registry w2) = Some r /\ live w2 r = true /\
    call fuel (Part000.get 0 key) w2 = Some (w3, p) /\
    state_of p w3 = Some Pending /\ store_side w3 = ([], []).
Proof.
  intros Hd. do 5 eexists.
  split; [runs fail|].
  split; [reflexivity|].
  split; [apply dir_get_set|].
  split; [reflexivity|].
  split; [runs fail|].
  split; [reflexivity|].
  split; [apply dir_get_set|].
  split; [reflexivity|].
  split; [runs fail|].
  split; reflexivity.
Qed.

(** The timer of the older copy is as ineffective as that of
    [src/index.js]; and after a hand-over the contender holds the record of
    the directory while the promise of its acquisition is still pending. *)
Lemma part000_lock_promise_stays_pending (d : string) (t : Z) :
  (500 <= t)%Z ->
  exists w1 w2 w3 w4 r,
    run fuel (Part000.lockDirectory d (fun _ => Ret VUndef)) w0 = Some w1 /\
    run fuel (Part000.lockDirectory d (fun _ => Ret VUndef)) w1 = Some w2 /\
    advance fuel t w2 = Some w3 /\
    timers w3 = [] /\
    state_of (lock_promise w1) w3 = Some Pending /\
    run fuel (Part000.unlockDirectory d (fun _ => Ret VUndef)) w3 = Some w4 /\
    dir_get d (registry w4) = Some r /\ live w4 r = true /\
    state_of (lock_promise w1) w4 = Some Pending.
Proof.
  intros Ht. do 5 eexists.
  split; [runs fail|].
  split; [runs fail|].
  split; [runs fail|].
  split; [reflexivity|].
  split; [reflexivity|].
  split; [runs fail|].
  split; [apply dir_get_set|].
  split; reflexivity.
Qed.

(** A run of [part000_never_ready]. *)
Lemma part000_never_ready_witness :
  exists w1 r w2 w3 p,
    run fuel (Part000.constructor (opts_for "cache") no_cache (fun _ => Ret VUndef))
      (set_clock 0 w0) = Some w1 /\
    ready_state 0 w1 = Some Pending /\
    dir_get "cache" (registry w1) = Some r /\ live w1 r = true /\
    run fuel (Part000.close 0 (fun _ => Ret VUndef)) w1 = Some w2 /\
    ready_state 0 w2 = Some Pending /\
    dir_get "cache" (registry w2) = Some r /\ live w2 r = true /\
    call fuel (Part000.get 0 "a") w2 = Some (w3, p) /\
    state_of p w3 = Some Pending /\ store_side w3 = ([], []).
Proof. apply (part000_never_ready "cache" no_cache 0 "a"). discriminate. Defined.

(** A run of [part000_lock_promise_stays_pending]: 800 ms of waiting. *)
Lemma part000_lock_promise_stays_pending_witness :
  exists w1 w2 w3 w4 r,
    run fuel (Part000.lockDirectory "cache" (fun _ => Ret VUndef)) w0 = Some w1 /\
    run fuel (Part000.lockDirectory "cache" (fun _ => Ret VUndef)) w1 = Some w2 /\
    advance fuel 800 w2 = Some w3 /\
    timers w3 = [] /\
    state_of (lock_promise w1) w3 = Some Pending /\
    run fuel (Part000.unlockDirectory "cache" (fun _ => Ret VUndef)) w3 = Some w4 /\
    dir_get "cache" (registry w4) = Some r /\ live w4 r = true /\
    state_of (lock_promise w1) w4 = Some Pending.
Proof. apply (part000_lock_promise_stays_pending "cache" 800). lia. Defined.
